(** * Log20-Go: the cyclomatic-complexity engine of log20.go

    log20.go holds two programs. The second, derived from gocyclo, has the
    flags [-over], [-top] and [-avg], the sort and the average; the first
    is the same engine without them. Both share [buildBasicBlocks],
    [funcName], [recvString], [complexity] and the visitor word for word.
    This development embeds the second: the decision-point visitor run by
    [ast.Walk], the naming of functions and methods, the record builder
    with its process-wide counter and mutex, the sort by complexity, the
    report writer, the average and the exit status.

    Go's [int] is the 64-bit two's-complement integer (module [int]). The
    program runs in one goroutine; the state of the process (standard
    output, standard error, the global [count], the mutex) is threaded
    through the monad [IO], whose results are a value, an exit or a crash.
    The packages go/ast, go/parser, path/filepath and sort are not part of
    the repository: the syntax tree is a tree of nodes tagged with their
    dynamic type, the parser and the file system are an environment, and
    [sort.Sort] is embedded from the library's text (the pattern-defeating
    quicksort of Go 1.19 and later, with its insertion sort and heap
    sort). *)

From Stdlib Require Import ZArith Lia Floats Uint63 Ascii DecimalString DecimalZ.
From stdpp Require Import base numbers list strings sorting.

Local Open Scope Z_scope.

(** ** Go's [int] on a 64-bit platform *)

Module int.

Definition min : Z := - 2 ^ 63.
Definition max : Z := 2 ^ 63 - 1.

(** Two's-complement wrap-around into [[min, max]]. *)
Definition wrap (z : Z) : Z := (z + 2 ^ 63) mod 2 ^ 64 - 2 ^ 63.

Definition add (a b : Z) : Z := wrap (a + b).

(** [x++] *)
Definition incr (a : Z) : Z := add a 1.

End int.

(** ** The fragment of go/token and go/ast the program looks at *)

Module token.

(** The binary operators of Go; [BinaryExpr.Op] holds one of them. *)
Inductive Token : Set :=
  | ADD | SUB | MUL | QUO | REM
  | AND | OR | XOR | SHL | SHR | AND_NOT
  | LAND | LOR
  | EQL | LSS | GTR | NEQ | LEQ | GEQ
  | ILLEGAL.

Definition eqb (a b : Token) : bool :=
  match a, b with
  | ADD, ADD | SUB, SUB | MUL, MUL | QUO, QUO | REM, REM
  | AND, AND | OR, OR | XOR, XOR | SHL, SHL | SHR, SHR
  | AND_NOT, AND_NOT | LAND, LAND | LOR, LOR
  | EQL, EQL | LSS, LSS | GTR, GTR | NEQ, NEQ | LEQ, LEQ | GEQ, GEQ
  | ILLEGAL, ILLEGAL => true
  | _, _ => false
  end.

(** [token.Position], as [fset.Position] resolves it. *)
Record Position : Set := {
  Filename : string;
  Offset : Z;
  Line : Z;
  Column : Z
}.

End token.

Module ast.

(** The dynamic types of go/ast nodes whose fields the program never
    reads; [Ident], [StarExpr], [BinaryExpr] and [CallExpr] are
    constructors of [Node] on their own. *)
Inductive Kind : Set :=
  | Comment | CommentGroup | Field | FieldList
  | BadExpr | BasicLit | Ellipsis | FuncLit | CompositeLit | ParenExpr
  | SelectorExpr | IndexExpr | IndexListExpr | SliceExpr | TypeAssertExpr
  | UnaryExpr | KeyValueExpr
  | ArrayType | StructType | FuncType | InterfaceType | MapType | ChanType
  | BadStmt | DeclStmt | EmptyStmt | LabeledStmt | ExprStmt | SendStmt
  | IncDecStmt | AssignStmt | GoStmt | DeferStmt | ReturnStmt | BranchStmt
  | BlockStmt | IfStmt | CaseClause | SwitchStmt | TypeSwitchStmt
  | CommClause | SelectStmt | ForStmt | RangeStmt
  | ImportSpec | ValueSpec | TypeSpec
  | BadDecl | GenDecl | FuncDecl.

(** An [ast.Node]: its dynamic type and, in the order [ast.Walk] visits
    them, its non-nil children. *)
#[warnings="-register-all"]
Inductive Node : Type :=
  | Ident (Name : string)
  | StarExpr (X : Node)
  | BinaryExpr (X : Node) (Op : token.Token) (Y : Node)
  | CallExpr (Fun : Node) (Args : list Node)
  | Tree (kind : Kind) (children : list Node).

(** Induction over [Node] that reaches the elements of the child lists. *)
Section NodeInd.
Variable P : Node -> Prop.
Hypothesis HIdent : forall s, P (Ident s).
Hypothesis HStar : forall x, P x -> P (StarExpr x).
Hypothesis HBinary : forall x op y, P x -> P y -> P (BinaryExpr x op y).
Hypothesis HCall : forall f args, P f -> Forall P args -> P (CallExpr f args).
Hypothesis HTree : forall k sub, Forall P sub -> P (Tree k sub).

Fixpoint Node_nested_ind (n : Node) : P n :=
  let all := fix all (l : list Node) : Forall P l :=
    match l with
    | [] => @List.Forall_nil _ P
    | m :: l' => @List.Forall_cons _ P m l' (Node_nested_ind m) (all l')
    end in
  match n with
  | Ident s => HIdent s
  | StarExpr x => HStar x (Node_nested_ind x)
  | BinaryExpr x op y => HBinary x op y (Node_nested_ind x) (Node_nested_ind y)
  | CallExpr f args => HCall f args (Node_nested_ind f) (all args)
  | Tree k sub => HTree k sub (all sub)
  end.
End NodeInd.

(** [*ast.Field]: the fields [ast.Walk] descends into. *)
Module Field.
Record t : Type := {
  Doc : option Node;
  Names : list string;
  Type_ : option Node;
  Tag : option Node;
  Comment : option Node
}.
End Field.

(** [*ast.FieldList] *)
Module FieldList.
Record t : Type := { List : list Field.t }.

(** [NumFields]: every entry counts once per name, an anonymous entry
    once. The receiver is never nil where the program calls it. *)
Definition NumFields (f : t) : Z :=
  fold_left
    (fun n g =>
       let m := Z.of_nat (length (Field.Names g)) in
       int.add n (if m =? 0 then 1 else m))
    (List f) 0.
End FieldList.

(** [*ast.FuncDecl]. [Name] is the identifier's [Name]; go/parser never
    leaves it nil. [Pos] and [End_] are the declaration's extent as the
    file set resolves it. *)
Module FuncDecl.
Record t : Type := {
  Doc : option Node;
  Recv : option FieldList.t;
  Name : string;
  Type_ : Node;
  Body : option Node;
  Pos : token.Position;
  End_ : token.Position
}.
End FuncDecl.

(** An element of [File.Decls]. *)
Inductive Decl : Type :=
  | DeclFunc (fn : FuncDecl.t)
  | DeclGen (d : Node)
  | DeclBad.

(** [*ast.File]: the package name ([f.Name.Name]) and the declarations. *)
Module File.
Record t : Type := { Name : string; Decls : list Decl }.
End File.

(** The typed structs seen as plain nodes, children in [ast.Walk]'s order. *)
Definition opt (o : option Node) : list Node :=
  match o with Some n => [n] | None => [] end.

Definition Field_node (f : Field.t) : Node :=
  Tree Field
    (opt (Field.Doc f) ++ map Ident (Field.Names f) ++ opt (Field.Type_ f)
     ++ opt (Field.Tag f) ++ opt (Field.Comment f)).

Definition FieldList_node (f : FieldList.t) : Node :=
  Tree FieldList (map Field_node (FieldList.List f)).

Definition FuncDecl_node (fn : FuncDecl.t) : Node :=
  Tree FuncDecl
    (opt (FuncDecl.Doc fn)
     ++ opt (option_map FieldList_node (FuncDecl.Recv fn))
     ++ [Ident (FuncDecl.Name fn)]
     ++ [FuncDecl.Type_ fn]
     ++ opt (FuncDecl.Body fn)).

(** The nodes of a subtree in pre-order: the order of [ast.Walk]'s calls
    of [Visit] on non-nil nodes. *)
Fixpoint nodes (n : Node) : list Node :=
  let nodesList := fix nodesList (l : list Node) : list Node :=
    match l with
    | [] => []
    | m :: l' => nodes m ++ nodesList l'
    end in
  n :: match n with
       | Ident _ => []
       | StarExpr x => nodes x
       | BinaryExpr x _ y => nodes x ++ nodes y
       | CallExpr f args => nodes f ++ nodesList args
       | Tree _ sub => nodesList sub
       end.

Definition nodesList (l : list Node) : list Node := concat (map nodes l).

(** The proper descendants of a node. *)
Definition descendants (n : Node) : list Node := tail (nodes n).

End ast.

(** ** Complexity records *)

Record BasicBlock : Type := {
  PkgName : string;
  FuncName : string;
  Complexity : Z;
  Pos : token.Position;
  EndPos : token.Position;
  ID : Z
}.

(** ** The process: output streams, the global counter, the mutex *)

(** A write to standard output. *)
Inductive Output : Type :=
  | PrintFun (f : ast.Node)        (* fmt.Printf("%+v\n", n.Fun) *)
  | PrintBlock (b : BasicBlock)    (* fmt.Fprintln(w, BasicBlock) *)
  | PrintAverage (a : float).      (* fmt.Printf("Average: %.3g\n", a) *)

(** A write to standard error. *)
Inductive ErrOutput : Type :=
  | PrintUsage                     (* fmt.Fprintf(os.Stderr, usageDoc) *)
  | LogFatal (err : string).       (* the line log.Fatal(err) prints *)

Record Proc : Type := {
  stdout : list Output;
  stderr : list ErrOutput;
  count : Z;
  counterMutex : bool
}.

(** How a computation ends: with a value, by [os.Exit], or killed by the
    Go runtime (a panic, a self-deadlock on the mutex, an unlock of an
    unlocked mutex). *)
Inductive Result (A : Type) : Type :=
  | Ret (a : A)
  | Exit (code : Z)
  | Crash.
Arguments Ret {A} a.
Arguments Exit {A} code.
Arguments Crash {A}.

Definition IO (A : Type) : Type := Proc -> Result A * Proc.

#[global] Instance IO_ret : MRet IO := fun A a p => (Ret a, p).

#[global] Instance IO_bind : MBind IO := fun A B k m p =>
  match m p with
  | (Ret a, p') => k a p'
  | (Exit c, p') => (Exit c, p')
  | (Crash, p') => (Crash, p')
  end.

Definition print (o : Output) : IO unit :=
  fun p => (Ret tt, {| stdout := stdout p ++ [o]; stderr := stderr p;
                       count := count p; counterMutex := counterMutex p |}).

Definition eprint (e : ErrOutput) : IO unit :=
  fun p => (Ret tt, {| stdout := stdout p; stderr := stderr p ++ [e];
                       count := count p; counterMutex := counterMutex p |}).

(** [os.Exit(code)] *)
Definition os_Exit {A} (code : Z) : IO A := fun p => (Exit code, p).

(** [log.Fatal(err)]: print, then [os.Exit(1)]. *)
Definition log_Fatal {A} (err : string) : IO A :=
  eprint (LogFatal err);; os_Exit 1.

(** [counterMutex.Lock()]: the program has one goroutine, so locking a
    held mutex never returns. *)
Definition Lock : IO unit :=
  fun p =>
    if counterMutex p then (Crash, p)
    else (Ret tt, {| stdout := stdout p; stderr := stderr p;
                     count := count p; counterMutex := true |}).

(** [counterMutex.Unlock()] *)
Definition Unlock : IO unit :=
  fun p =>
    if counterMutex p
    then (Ret tt, {| stdout := stdout p; stderr := stderr p;
                     count := count p; counterMutex := false |})
    else (Crash, p).

(** ** The decision-point classifier *)

Record complexityVisitor : Set := { vComplexity : Z }.

(** [v.Complexity++] *)
Definition bump (v : complexityVisitor) : complexityVisitor :=
  {| vComplexity := int.incr (vComplexity v) |}.

(** [Visit]: [None] is the nil node [ast.Walk] passes after the children.
    The visitor is returned in place of the mutated receiver. *)
Definition Visit (v : complexityVisitor) (n : option ast.Node) : IO complexityVisitor :=
  match n with
  | Some (ast.Tree (ast.FuncDecl | ast.IfStmt | ast.ForStmt | ast.RangeStmt
                    | ast.CaseClause | ast.CommClause) _) =>
      mret (bump v)
  | Some (ast.BinaryExpr _ Op _) =>
      if token.eqb Op token.LAND || token.eqb Op token.LOR
      then mret (bump v)
      else mret v
  | Some (ast.CallExpr Fun _) =>
      print (PrintFun Fun);; mret v
  | _ => mret v
  end.

(** [ast.Walk]: [Visit] the node, walk the children, [Visit] nil. [Visit]
    always returns the visitor itself, so the walk never prunes. *)
Fixpoint Walk (v : complexityVisitor) (node : ast.Node) {struct node} : IO complexityVisitor :=
  let walkList := fix walkList (v : complexityVisitor) (l : list ast.Node) : IO complexityVisitor :=
    match l with
    | [] => mret v
    | n :: l' => v ← Walk v n; walkList v l'
    end in
  v ← Visit v (Some node);
  v ← match node with
       | ast.Ident _ => mret v
       | ast.StarExpr X => Walk v X
       | ast.BinaryExpr X _ Y => v ← Walk v X; Walk v Y
       | ast.CallExpr Fun Args => v ← Walk v Fun; walkList v Args
       | ast.Tree _ sub => walkList v sub
       end;
  Visit v None.

Fixpoint walkList (v : complexityVisitor) (l : list ast.Node) : IO complexityVisitor :=
  match l with
  | [] => mret v
  | n :: l' => v ← Walk v n; walkList v l'
  end.

(** [complexity] *)
Definition complexity (fn : ast.FuncDecl.t) : IO Z :=
  v ← Walk {| vComplexity := 0 |} (ast.FuncDecl_node fn);
  mret (vComplexity v).

(** ** The function identifier *)

(** [recvString] *)
Fixpoint recvString (recv : ast.Node) : string :=
  match recv with
  | ast.Ident Name => Name
  | ast.StarExpr X => "*" +:+ recvString X
  | _ => "BADRECV"
  end.

(** [funcName]. [None] is the run-time panic of indexing [List[0]] out of
    range. A nil [Type] matches no case of [recvString]'s type switch.
    [fmt.Sprintf("(%s).%s", r, fn.Name)] prints the identifier's name. *)
Definition funcName (fn : ast.FuncDecl.t) : option string :=
  match ast.FuncDecl.Recv fn with
  | Some Recv =>
      if 0 <? ast.FieldList.NumFields Recv then
        f ← ast.FieldList.List Recv !! 0%nat;
        let r := match ast.Field.Type_ f with
                 | Some typ => recvString typ
                 | None => "BADRECV"
                 end in
        Some ("(" +:+ r +:+ ")." +:+ ast.FuncDecl.Name fn)
      else Some (ast.FuncDecl.Name fn)
  | None => Some (ast.FuncDecl.Name fn)
  end.

(** ** The record builder *)

(** A value that must be there: its absence is a run-time panic. *)
Definition must {A} (o : option A) : IO A :=
  fun p => match o with Some a => (Ret a, p) | None => (Crash, p) end.

(** Reading the global [count], and [count++]. *)
Definition readCount : IO Z := fun p => (Ret (count p), p).

Definition incrCount : IO unit :=
  fun p => (Ret tt, {| stdout := stdout p; stderr := stderr p;
                       count := int.incr (count p);
                       counterMutex := counterMutex p |}).

(** A [for _, x := range l] loop that threads an accumulator. *)
Fixpoint forRange {A B} (l : list A) (body : B -> A -> IO B) (acc : B) : IO B :=
  match l with
  | [] => mret acc
  | x :: l' => acc ← body acc x; forRange l' body acc
  end.

(** [buildBasicBlocks] *)
Definition buildBasicBlocks (f : ast.File.t) (BasicBlocks : list BasicBlock)
  : IO (list BasicBlock) :=
  forRange (ast.File.Decls f)
    (fun BasicBlocks decl =>
       match decl with
       | ast.DeclFunc fn =>
           Lock;;
           name ← must (funcName fn);
           c ← complexity fn;
           id ← readCount;
           let BasicBlocks :=
             BasicBlocks ++ [ {| PkgName := ast.File.Name f;
                                 FuncName := name;
                                 Complexity := c;
                                 Pos := ast.FuncDecl.Pos fn;
                                 EndPos := ast.FuncDecl.End_ fn;
                                 ID := id |} ] in
           incrCount;;
           Unlock;;
           mret BasicBlocks
       | _ => mret BasicBlocks
       end)
    BasicBlocks.

(** ** The file system and the parser, as the run finds them *)

Record FileInfo : Set := { IsDir : bool }.

(** One call of the function passed to [filepath.Walk]: an entry with its
    [FileInfo], or an entry that could not be read, with the error. *)
Inductive WalkEntry : Set :=
  | Entry (path : string) (info : FileInfo)
  | EntryErr (path : string) (err : string).

Record Env : Type := {
  (** [os.Stat]: [None] when it returns an error *)
  os_Stat : string -> option FileInfo;
  (** [parser.ParseFile(fset, fname, nil, 0)]: the file or the error *)
  parser_ParseFile : string -> ast.File.t + string;
  (** the entries [filepath.Walk] reaches below a directory, in its order *)
  walk_entries : string -> list WalkEntry
}.

(** [strings.HasSuffix] *)
Definition HasSuffix (s suffix : string) : bool :=
  let n := String.length s in
  let m := String.length suffix in
  (m <=? n)%nat && String.eqb (String.substring (n - m) m s) suffix.

(** [filepath.Walk] calls [fn] on every entry until [fn] returns an error
    (the program's function never returns [SkipDir]); the accumulator is
    what the closure captures. *)
Fixpoint filepath_Walk {S} (entries : list WalkEntry)
    (fn : S -> WalkEntry -> IO (S * option string)) (s : S) : IO S :=
  match entries with
  | [] => mret s
  | e :: rest =>
      r ← fn s e;
      match r.2 with
      | None => filepath_Walk rest fn r.1
      | Some _ => mret r.1
      end
  end.

Record Flags : Set := { over : Z; top : Z; avg : bool }.

(** The flags' defaults. *)
Definition defaultFlags : Flags := {| over := 0; top := -1; avg := false |}.

(** ** Package sort: [Sort] and the functions it runs

    Indices and lengths are natural numbers: they stay inside the slice,
    where the arithmetic of [int] is exact. [None] is a run-time panic,
    the index out of range of a method of the slice. *)

Module sort.

(** [sort.Interface] *)
Class Interface (A : Type) : Type := {
  Len : A -> Z;
  (** [None]: an index out of range, a run-time panic *)
  Less : A -> Z -> Z -> option bool;
  Swap : A -> Z -> Z -> option A
}.

(** [sortedHint] *)
Inductive sortedHint : Set := unknownHint | increasingHint | decreasingHint.

Definition maxInsertion : nat := 12.
Definition maxSteps : nat := 5.
Definition shortestShifting : nat := 50.
Definition shortestNinther : nat := 50.
Definition maxSwaps : nat := 4 * 3.

(** [bits.Len]: the number of bits of an unsigned integer. *)
Definition bits_Len (x : Z) : Z := if x =? 0 then 0 else Z.log2 x + 1.

Definition uint64 (x : Z) : Z := x mod 2 ^ 64.

(** [xorshift.Next], on the 64-bit state [r]. The sort takes its
    generator as a parameter below, and what is proved of it holds for
    every generator: for these shifts and for any other. *)
Definition xorshift_Next (r : Z) : Z :=
  let r := Z.lxor r (uint64 (Z.shiftl r 13)) in
  let r := Z.lxor r (Z.shiftr r 7) in
  let r := Z.lxor r (uint64 (Z.shiftl r 17)) in
  r.

(** [nextPowerOfTwo]; the length of a slice is an [int], so the shift is
    at most 63 and [1 << shift] is exact in a [uint]. *)
Definition nextPowerOfTwo (length : Z) : Z :=
  let shift := bits_Len length in
  Z.shiftl 1 shift.

Section Library.

Context {A : Type} `{Interface A}.

(** The step of the pseudo-random generator of [breakPatterns]. *)
Context (Next : Z -> Z).

(** The inner loop of [insertionSort],
    [for j := i; j > a && data.Less(j, j-1); j-- { data.Swap(j, j-1) }],
    by recursion on [j]. *)
Fixpoint insertDown (data : A) (a j : nat) : option A :=
  match j with
  | O => Some data
  | S j' =>
      if (a <? j)%nat then
        less ← Less data (Z.of_nat j) (Z.of_nat j');
        if less : bool then
          data ← Swap data (Z.of_nat j) (Z.of_nat j');
          insertDown data a j'
        else Some data
      else Some data
  end.

(** The outer loop, [for i := ...; i < b; i++], with [n = b - i]
    iterations to go. *)
Fixpoint insertFrom (n : nat) (data : A) (a i : nat) : option A :=
  match n with
  | O => Some data
  | S n' => data ← insertDown data a i; insertFrom n' data a (S i)
  end.

(** [insertionSort(data, a, b)] *)
Definition insertionSort (data : A) (a b : nat) : option A :=
  insertFrom (b - (a + 1)) data a (a + 1).

Local Open Scope nat_scope.

(** [data.Less(i, j)] and [data.Swap(i, j)] at indices that are not
    negative. *)
Definition less (data : A) (i j : nat) : option bool :=
  Less data (Z.of_nat i) (Z.of_nat j).

Definition swap (data : A) (i j : nat) : option A :=
  Swap data (Z.of_nat i) (Z.of_nat j).

(** The loops below that do not go by recursion on a counter take a
    bound [fuel] on their iterations and give [None] when it is used up;
    their callers pass the length of the range they work on, and
    [Sort] is proved to return. *)

(** [siftDown(data, lo, hi, first)]: the loop, [root] starting at [lo]. *)
Fixpoint siftDownLoop (fuel : nat) (data : A) (root hi first : nat) : option A :=
  match fuel with
  | O => None
  | S fuel =>
      let child := 2 * root + 1 in
      if hi <=? child then Some data
      else
        right ← (if child + 1 <? hi
                 then less data (first + child) (first + child + 1)
                 else Some false);
        let child := if right : bool then child + 1 else child in
        above ← less data (first + root) (first + child);
        if above : bool then
          data ← swap data (first + root) (first + child);
          siftDownLoop fuel data child hi first
        else Some data
  end.

Definition siftDown (data : A) (lo hi first : nat) : option A :=
  siftDownLoop (S hi) data lo hi first.

(** [for i := (hi - 1) / 2; i >= 0; i-- { siftDown(data, i, hi, first) }],
    with [n = i + 1]. *)
Fixpoint buildHeap (n : nat) (data : A) (hi first : nat) : option A :=
  match n with
  | O => Some data
  | S i => data ← siftDown data i hi first; buildHeap i data hi first
  end.

(** [for i := hi - 1; i >= 0; i-- { data.Swap(first, first+i);
    siftDown(data, lo, i, first) }], with [n = i + 1]. *)
Fixpoint popHeap (n : nat) (data : A) (lo first : nat) : option A :=
  match n with
  | O => Some data
  | S i =>
      data ← swap data first (first + i);
      data ← siftDown data lo i first;
      popHeap i data lo first
  end.

(** [heapSort(data, a, b)] *)
Definition heapSort (data : A) (a b : nat) : option A :=
  let first := a in
  let lo := 0 in
  let hi := b - a in
  data ← buildHeap (S ((hi - 1) / 2)) data hi first;
  popHeap hi data lo first.

(** [for i <= j && data.Less(i, a) { i++ }] *)
Fixpoint skipLess (fuel : nat) (data : A) (a i j : nat) : option nat :=
  match fuel with
  | O => None
  | S fuel =>
      if i <=? j then
        before ← less data i a;
        if before : bool then skipLess fuel data a (S i) j else Some i
      else Some i
  end.

(** [for i <= j && !data.Less(j, a) { j-- }] *)
Fixpoint skipNotLess (fuel : nat) (data : A) (a i j : nat) : option nat :=
  match fuel with
  | O => None
  | S fuel =>
      if i <=? j then
        before ← less data j a;
        if before : bool then Some j else skipNotLess fuel data a i (j - 1)
      else Some j
  end.

(** The [for] loop of [partition]; it leaves the slice and [j]. *)
Fixpoint partitionLoop (fuel : nat) (data : A) (a i j : nat) : option (A * nat) :=
  match fuel with
  | O => None
  | S fuel =>
      i ← skipLess (S (S j - i)) data a i j;
      j ← skipNotLess (S (S j - i)) data a i j;
      if j <? i then Some (data, j)
      else
        data ← swap data i j;
        partitionLoop fuel data a (S i) (j - 1)
  end.

(** [partition(data, a, b, pivot)]: the slice, [newpivot] and
    [alreadyPartitioned]. *)
Definition partition (data : A) (a b pivot : nat) : option (A * nat * bool) :=
  data ← swap data a pivot;
  let i := a + 1 in
  let j := b - 1 in
  i ← skipLess (S (S j - i)) data a i j;
  j ← skipNotLess (S (S j - i)) data a i j;
  if j <? i then
    data ← swap data j a;
    Some (data, j, true)
  else
    data ← swap data i j;
    '(data, j) ← partitionLoop (b - a) data a (S i) (j - 1);
    data ← swap data j a;
    Some (data, j, false).

(** [for i <= j && !data.Less(a, i) { i++ }] *)
Fixpoint skipEqual (fuel : nat) (data : A) (a i j : nat) : option nat :=
  match fuel with
  | O => None
  | S fuel =>
      if i <=? j then
        before ← less data a i;
        if before : bool then Some i else skipEqual fuel data a (S i) j
      else Some i
  end.

(** [for i <= j && data.Less(a, j) { j-- }] *)
Fixpoint skipGreater (fuel : nat) (data : A) (a i j : nat) : option nat :=
  match fuel with
  | O => None
  | S fuel =>
      if i <=? j then
        before ← less data a j;
        if before : bool then skipGreater fuel data a i (j - 1) else Some j
      else Some j
  end.

(** The [for] loop of [partitionEqual]; it leaves the slice and [i]. *)
Fixpoint partitionEqualLoop (fuel : nat) (data : A) (a i j : nat) : option (A * nat) :=
  match fuel with
  | O => None
  | S fuel =>
      i ← skipEqual (S (S j - i)) data a i j;
      j ← skipGreater (S (S j - i)) data a i j;
      if j <? i then Some (data, i)
      else
        data ← swap data i j;
        partitionEqualLoop fuel data a (S i) (j - 1)
  end.

(** [partitionEqual(data, a, b, pivot)] *)
Definition partitionEqual (data : A) (a b pivot : nat) : option (A * nat) :=
  data ← swap data a pivot;
  let i := a + 1 in
  let j := b - 1 in
  partitionEqualLoop (S (b - a)) data a i j.

(** [for i < b && !data.Less(i, i-1) { i++ }] *)
Fixpoint skipOrdered (fuel : nat) (data : A) (i b : nat) : option nat :=
  match fuel with
  | O => None
  | S fuel =>
      if i <? b then
        before ← less data i (i - 1);
        if before : bool then Some i else skipOrdered fuel data (S i) b
      else Some i
  end.

(** [for j := i - 1; j >= 1; j-- { if !data.Less(j, j-1) { break };
    data.Swap(j, j-1) }], by recursion on [j]. *)
Fixpoint shiftLeft (data : A) (j : nat) : option A :=
  match j with
  | O => Some data
  | S j' =>
      before ← less data j j';
      if before : bool then
        data ← swap data j j';
        shiftLeft data j'
      else Some data
  end.

(** [for j := i + 1; j < b; j++ { if !data.Less(j, j-1) { break };
    data.Swap(j, j-1) }] *)
Fixpoint shiftRight (fuel : nat) (data : A) (j b : nat) : option A :=
  match fuel with
  | O => None
  | S fuel =>
      if j <? b then
        before ← less data j (j - 1);
        if before : bool then
          data ← swap data j (j - 1);
          shiftRight fuel data (S j) b
        else Some data
      else Some data
  end.

(** [for j := 0; j < maxSteps; j++ { ... }] of [partialInsertionSort],
    with [steps = maxSteps - j]. *)
Fixpoint partialInsertionLoop (steps : nat) (data : A) (a b i : nat) : option (A * bool) :=
  match steps with
  | O => Some (data, false)
  | S steps =>
      i ← skipOrdered (S (b - i)) data i b;
      if i =? b then Some (data, true)
      else if b - a <? shortestShifting then Some (data, false)
      else
        data ← swap data i (i - 1);
        data ← (if 2 <=? i - a then shiftLeft data (i - 1) else Some data);
        data ← (if 2 <=? b - i then shiftRight (b - i) data (i + 1) b
                else Some data);
        partialInsertionLoop steps data a b i
  end.

(** [partialInsertionSort(data, a, b)] *)
Definition partialInsertionSort (data : A) (a b : nat) : option (A * bool) :=
  partialInsertionLoop maxSteps data a b (a + 1).

(** [for i := 0; i < 3; i++ { ... }] of [breakPatterns], with
    [n = 3 - i]. *)
Fixpoint breakPatternsLoop (n : nat) (data : A) (a length idx i : nat)
    (random modulus : Z) : option A :=
  match n with
  | O => Some data
  | S n =>
      let random := Next random in
      let other := Z.land random (modulus - 1) in
      let other :=
        if (Z.of_nat length <=? other)%Z then (other - Z.of_nat length)%Z
        else other in
      data ← Swap data (Z.of_nat (idx - 1 + i)) (Z.of_nat a + other)%Z;
      breakPatternsLoop n data a length idx (S i) random modulus
  end.

(** [breakPatterns(data, a, b)] *)
Definition breakPatterns (data : A) (a b : nat) : option A :=
  let length := b - a in
  if 8 <=? length then
    let random := Z.of_nat length in
    let modulus := nextPowerOfTwo (Z.of_nat length) in
    let idx := a + (length / 4) * 2 - 1 in
    breakPatternsLoop 3 data a length idx 0 random modulus
  else Some data.

(** [order2(data, a, b, swaps)]: the two indices and the new [*swaps]. *)
Definition order2 (data : A) (a b swaps : nat) : option (nat * nat * nat) :=
  before ← less data b a;
  Some (if before : bool then (b, a, S swaps) else (a, b, swaps)).

(** [median(data, a, b, c, swaps)] *)
Definition median (data : A) (a b c swaps : nat) : option (nat * nat) :=
  '(a, b, swaps) ← order2 data a b swaps;
  '(b, c, swaps) ← order2 data b c swaps;
  '(a, b, swaps) ← order2 data a b swaps;
  Some (b, swaps).

(** [medianAdjacent(data, a, swaps)] *)
Definition medianAdjacent (data : A) (a swaps : nat) : option (nat * nat) :=
  median data (a - 1) a (a + 1) swaps.

(** [choosePivot(data, a, b)] *)
Definition choosePivot (data : A) (a b : nat) : option (nat * sortedHint) :=
  let l := b - a in
  let swaps := 0 in
  let i := a + l / 4 * 1 in
  let j := a + l / 4 * 2 in
  let k := a + l / 4 * 3 in
  '(j, swaps) ←
    (if 8 <=? l then
       '(i, j, k, swaps) ←
         (if shortestNinther <=? l then
            '(i, swaps) ← medianAdjacent data i swaps;
            '(j, swaps) ← medianAdjacent data j swaps;
            '(k, swaps) ← medianAdjacent data k swaps;
            Some (i, j, k, swaps)
          else Some (i, j, k, swaps));
       median data i j k swaps
     else Some (j, swaps));
  Some (j, if swaps =? 0 then increasingHint
           else if swaps =? maxSwaps then decreasingHint
           else unknownHint).

(** [for i < j { data.Swap(i, j); i++; j-- }] *)
Fixpoint reverseLoop (fuel : nat) (data : A) (i j : nat) : option A :=
  match fuel with
  | O => None
  | S fuel =>
      if i <? j then
        data ← swap data i j;
        reverseLoop fuel data (S i) (j - 1)
      else Some data
  end.

(** [reverseRange(data, a, b)] *)
Definition reverseRange (data : A) (a b : nat) : option A :=
  reverseLoop (S (b - a)) data a (b - 1).

(** [pdqsort(data, a, b, limit)]: the [for] loop, with its variables
    [wasBalanced] and [wasPartitioned]; a recursive call starts the loop
    with both [true]. *)
Fixpoint pdqsortLoop (fuel : nat) (data : A) (a b limit : nat)
    (wasBalanced wasPartitioned : bool) : option A :=
  match fuel with
  | O => None
  | S fuel =>
      let length := b - a in
      if length <=? maxInsertion then insertionSort data a b
      else if limit =? 0 then heapSort data a b
      else
        '(data, limit) ←
          (if wasBalanced then Some (data, limit)
           else data ← breakPatterns data a b; Some (data, limit - 1));
        '(pivot, hint) ← choosePivot data a b;
        '(data, pivot, hint) ←
          (match hint with
           | decreasingHint =>
               data ← reverseRange data a b;
               Some (data, (b - 1) - (pivot - a), increasingHint)
           | _ => Some (data, pivot, hint)
           end);
        '(data, done) ←
          (match wasBalanced && wasPartitioned, hint with
           | true, increasingHint => partialInsertionSort data a b
           | _, _ => Some (data, false)
           end);
        if done : bool then Some data
        else
          equal ← (if 0 <? a then
                     before ← less data (a - 1) pivot; Some (negb before)
                   else Some false);
          if equal : bool then
            '(data, mid) ← partitionEqual data a b pivot;
            pdqsortLoop fuel data mid b limit wasBalanced wasPartitioned
          else
            '(data, mid, alreadyPartitioned) ← partition data a b pivot;
            let wasPartitioned := alreadyPartitioned in
            let leftLen := mid - a in
            let rightLen := b - mid in
            let balanceThreshold := length / 8 in
            if leftLen <? rightLen then
              let wasBalanced := balanceThreshold <=? leftLen in
              data ← pdqsortLoop fuel data a mid limit true true;
              pdqsortLoop fuel data (mid + 1) b limit wasBalanced wasPartitioned
            else
              let wasBalanced := balanceThreshold <=? rightLen in
              data ← pdqsortLoop fuel data (mid + 1) b limit true true;
              pdqsortLoop fuel data a mid limit wasBalanced wasPartitioned
  end.

Definition pdqsort (data : A) (a b limit : nat) : option A :=
  pdqsortLoop (S (b - a)) data a b limit true true.

(** [sort.Sort], whatever the generator *)
Definition SortWith (data : A) : option A :=
  let n := Len data in
  if (n <=? 1)%Z then Some data
  else
    let limit := bits_Len n in
    pdqsort data 0 (Z.to_nat n) (Z.to_nat limit).

End Library.

(** [sort.Sort] *)
Definition Sort {A : Type} `{Interface A} (data : A) : option A :=
  SortWith xorshift_Next data.

End sort.

(** A slice element by an [int] index. *)
Definition index {A} (s : list A) (i : Z) : option A :=
  if i <? 0 then None else s !! Z.to_nat i.

Definition len {A} (s : list A) : Z := Z.of_nat (length s).

(** [byComplexity] *)
#[global] Instance byComplexity : sort.Interface (list BasicBlock) := {
  sort.Len s := len s;
  sort.Less s i j :=
    a ← index s i; b ← index s j;
    Some (Complexity b <=? Complexity a);
  sort.Swap s i j :=
    a ← index s i; b ← index s j;
    Some (<[Z.to_nat j := a]> (<[Z.to_nat i := b]> s))
}.

Section Program.

Context (env : Env) (flags : Flags).

(** [sort.Sort] with [byComplexity]'s methods: the library routine is a
    parameter of the program. *)
Context (sort_Sort : list BasicBlock -> list BasicBlock).

(** [isDir] *)
Definition isDir (filename : string) : bool :=
  match os_Stat env filename with
  | Some fi => IsDir fi
  | None => false
  end.

(** [analyzeFile] *)
Definition analyzeFile (fname : string) (BasicBlocks : list BasicBlock)
  : IO (list BasicBlock) :=
  match parser_ParseFile env fname with
  | inr err => log_Fatal err
  | inl f => buildBasicBlocks f BasicBlocks
  end.

(** The function literal [analyzeDir] hands to [filepath.Walk]. *)
Definition walkFn (BasicBlocks : list BasicBlock) (e : WalkEntry)
  : IO (list BasicBlock * option string) :=
  match e with
  | Entry path info =>
      if negb (IsDir info) && HasSuffix path ".go"
      then BasicBlocks ← analyzeFile path BasicBlocks; mret (BasicBlocks, None)
      else mret (BasicBlocks, None)
  | EntryErr path err => mret (BasicBlocks, Some err)
  end.

(** [analyzeDir] *)
Definition analyzeDir (dirname : string) (BasicBlocks : list BasicBlock)
  : IO (list BasicBlock) :=
  filepath_Walk (walk_entries env dirname) walkFn BasicBlocks.

(** [analyze] *)
Definition analyze (paths : list string) : IO (list BasicBlock) :=
  forRange paths
    (fun BasicBlocks path =>
       if isDir path
       then analyzeDir path BasicBlocks
       else analyzeFile path BasicBlocks)
    [].

(** The range loop of [writeBasicBlocks] from index [i] on: [Some i] is
    an early [return i], [None] the end of the slice. *)
Fixpoint writeLoop (i : Z) (rest : list BasicBlock) : IO (option Z) :=
  match rest with
  | [] => mret None
  | BasicBlock :: rest' =>
      if i =? top flags then mret (Some i)
      else if Complexity BasicBlock <=? over flags then mret (Some i)
      else print (PrintBlock BasicBlock);; writeLoop (i + 1) rest'
  end.

(** [writeBasicBlocks], writing to standard output. *)
Definition writeBasicBlocks (sortedBasicBlocks : list BasicBlock) : IO Z :=
  r ← writeLoop 0 sortedBasicBlocks;
  match r with
  | Some i => mret i
  | None => mret (len sortedBasicBlocks)
  end.

(** [float64(x)] for an [int] [x]: the nearest binary64 value. *)
Definition float64 (x : Z) : float :=
  let magnitude (n : Z) : float :=
    if n <? 2 ^ 63 then PrimFloat.of_uint63 (Uint63.of_Z n)
    else 0x1p63%float in
  if x <? 0 then PrimFloat.opp (magnitude (- x)) else magnitude x.

(** [average] *)
Definition average (BasicBlocks : list BasicBlock) : float :=
  let total :=
    fold_left (fun total s => int.add total (Complexity s)) BasicBlocks 0 in
  PrimFloat.div (float64 total) (float64 (len BasicBlocks)).

(** [showAverage] *)
Definition showAverage (BasicBlocks : list BasicBlock) : IO unit :=
  print (PrintAverage (average BasicBlocks)).

(** [usage] *)
Definition usage : IO unit :=
  eprint PrintUsage;; os_Exit 2.

(** [main]: the flags are parsed already, [args] are the paths. *)
Definition main (args : list string) : IO unit :=
  (if len args =? 0 then usage else mret tt);;
  BasicBlocks ← analyze args;
  let BasicBlocks := sort_Sort BasicBlocks in
  written ← writeBasicBlocks BasicBlocks;
  (if avg flags then showAverage BasicBlocks else mret tt);;
  if (0 <? over flags) && (0 <? written) then os_Exit 1 else mret tt.

End Program.

(** The process at start: nothing written, [count = 1], the mutex free. *)
Definition start : Proc :=
  {| stdout := []; stderr := []; count := 1; counterMutex := false |}.

(** The exit status of a finished computation: 0 when [main] returns, the
    code given to [os.Exit], 2 when the Go runtime kills the process. *)
Definition exit_status {A} (r : Result A) : Z :=
  match r with
  | Ret _ => 0
  | Exit code => code
  | Crash => 2
  end.

(** ** What the classifier counts *)

Definition is_decl (n : ast.Node) : bool :=
  match n with ast.Tree ast.FuncDecl _ => true | _ => false end.

Definition is_if (n : ast.Node) : bool :=
  match n with ast.Tree ast.IfStmt _ => true | _ => false end.

Definition is_loop (n : ast.Node) : bool :=
  match n with ast.Tree (ast.ForStmt | ast.RangeStmt) _ => true | _ => false end.

Definition is_arm (n : ast.Node) : bool :=
  match n with ast.Tree (ast.CaseClause | ast.CommClause) _ => true | _ => false end.

Definition is_logical (n : ast.Node) : bool :=
  match n with
  | ast.BinaryExpr _ (token.LAND | token.LOR) _ => true
  | _ => false
  end.

(** How many nodes of a list satisfy [p]. *)
Definition occurrences (p : ast.Node -> bool) (l : list ast.Node) : Z :=
  len (List.filter p l).

(** The nodes on which [Visit] increments the visitor. *)
Definition is_decision (n : ast.Node) : bool :=
  is_decl n || is_if n || is_loop n || is_arm n || is_logical n.

(** The lines [Visit] prints on the nodes of a list: one for each call
    expression, showing its [Fun]. *)
Definition printed (l : list ast.Node) : list Output :=
  omap (fun n => match n with
                 | ast.CallExpr Fun _ => Some (PrintFun Fun)
                 | _ => None
                 end) l.

(** A declaration as go/parser builds it: function declarations do not
    nest (a closure is a [FuncLit]). *)
Definition top_level (fn : ast.FuncDecl.t) : Prop :=
  forallb (fun n => negb (is_decl n))
          (ast.descendants (ast.FuncDecl_node fn)) = true.

(** Appending to standard output. *)
Definition emit (outs : list Output) (p : Proc) : Proc :=
  {| stdout := stdout p ++ outs; stderr := stderr p;
     count := count p; counterMutex := counterMutex p |}.

(** The visitor after [k] increments. *)
Definition bumps (k : nat) (v : complexityVisitor) : complexityVisitor :=
  Nat.iter k bump v.

(** How many nodes of a list make [Visit] increment the visitor. *)
Definition decisions (l : list ast.Node) : nat :=
  length (List.filter is_decision l).

(** The decision points of a declaration as the specification counts
    them: the [if] statements, the loops, the [switch] and [select] arms
    and the short-circuit operators of its subtree. *)
Definition decision_points (fn : ast.FuncDecl.t) : Z :=
  let subtree := ast.nodes (ast.FuncDecl_node fn) in
  occurrences is_if subtree + occurrences is_loop subtree
  + occurrences is_arm subtree + occurrences is_logical subtree.

(** A function with one [if] whose condition is an [&&], and one [for]. *)
Definition if_and_for : ast.FuncDecl.t :=
  {| ast.FuncDecl.Doc := None;
     ast.FuncDecl.Recv := None;
     ast.FuncDecl.Name := "f";
     ast.FuncDecl.Type_ := ast.Tree ast.FuncType [ast.Tree ast.FieldList []];
     ast.FuncDecl.Body := Some (ast.Tree ast.BlockStmt
       [ ast.Tree ast.IfStmt
           [ ast.BinaryExpr (ast.Ident "a") token.LAND (ast.Ident "b");
             ast.Tree ast.BlockStmt [] ];
         ast.Tree ast.ForStmt [ ast.Tree ast.BlockStmt [] ] ]);
     ast.FuncDecl.Pos := {| token.Filename := "a.go"; token.Offset := 13;
                            token.Line := 3; token.Column := 1 |};
     ast.FuncDecl.End_ := {| token.Filename := "a.go"; token.Offset := 60;
                             token.Line := 8; token.Column := 2 |} |}.

(** A function whose body defines a closure that holds an [if]. *)
Definition with_closure : ast.FuncDecl.t :=
  {| ast.FuncDecl.Doc := None;
     ast.FuncDecl.Recv := None;
     ast.FuncDecl.Name := "f";
     ast.FuncDecl.Type_ := ast.Tree ast.FuncType [ast.Tree ast.FieldList []];
     ast.FuncDecl.Body := Some (ast.Tree ast.BlockStmt
       [ ast.Tree ast.AssignStmt
           [ ast.Ident "h";
             ast.Tree ast.FuncLit
               [ ast.Tree ast.FuncType [ast.Tree ast.FieldList []];
                 ast.Tree ast.BlockStmt
                   [ ast.Tree ast.IfStmt
                       [ ast.Ident "a"; ast.Tree ast.BlockStmt [] ] ] ] ] ]);
     ast.FuncDecl.Pos := {| token.Filename := "a.go"; token.Offset := 13;
                            token.Line := 3; token.Column := 1 |};
     ast.FuncDecl.End_ := {| token.Filename := "a.go"; token.Offset := 70;
                             token.Line := 7; token.Column := 2 |} |}.

(** A function whose body is the single call [g()]. *)
Definition calls_g : ast.FuncDecl.t :=
  {| ast.FuncDecl.Doc := None;
     ast.FuncDecl.Recv := None;
     ast.FuncDecl.Name := "f";
     ast.FuncDecl.Type_ := ast.Tree ast.FuncType [ast.Tree ast.FieldList []];
     ast.FuncDecl.Body := Some (ast.Tree ast.BlockStmt
       [ ast.Tree ast.ExprStmt [ ast.CallExpr (ast.Ident "g") [] ] ]);
     ast.FuncDecl.Pos := {| token.Filename := "a.go"; token.Offset := 13;
                            token.Line := 3; token.Column := 1 |};
     ast.FuncDecl.End_ := {| token.Filename := "a.go"; token.Offset := 26;
                             token.Line := 3; token.Column := 14 |} |}.

(** The method [func (r recv) name() {}]. *)
Definition method (recv : ast.Node) (name : string) : ast.FuncDecl.t :=
  {| ast.FuncDecl.Doc := None;
     ast.FuncDecl.Recv := Some {| ast.FieldList.List :=
       [ {| ast.Field.Doc := None; ast.Field.Names := ["r"];
            ast.Field.Type_ := Some recv; ast.Field.Tag := None;
            ast.Field.Comment := None |} ] |};
     ast.FuncDecl.Name := name;
     ast.FuncDecl.Type_ := ast.Tree ast.FuncType [ast.Tree ast.FieldList []];
     ast.FuncDecl.Body := Some (ast.Tree ast.BlockStmt []);
     ast.FuncDecl.Pos := {| token.Filename := "a.go"; token.Offset := 13;
                            token.Line := 3; token.Column := 1 |};
     ast.FuncDecl.End_ := {| token.Filename := "a.go"; token.Offset := 30;
                             token.Line := 3; token.Column := 18 |} |}.

(** [n] levels of pointer around a type expression. *)
Fixpoint pointer (n : nat) (e : ast.Node) : ast.Node :=
  match n with
  | O => e
  | S n' => ast.StarExpr (pointer n' e)
  end.

(** [n] asterisks. *)
Fixpoint stars (n : nat) : string :=
  match n with
  | O => ""
  | S n' => "*" +:+ stars n'
  end.

(** A receiver type that is an identifier or a pointer. *)
Definition ident_or_pointer (e : ast.Node) : bool :=
  match e with
  | ast.Ident _ | ast.StarExpr _ => true
  | _ => false
  end.

(** ** What a run builds *)

(** The function declarations of a file, in source order, each with the
    package name of its file. *)
Definition funcDecls (f : ast.File.t) : list (string * ast.FuncDecl.t) :=
  omap (fun decl => match decl with
                    | ast.DeclFunc fn => Some (ast.File.Name f, fn)
                    | _ => None
                    end) (ast.File.Decls f).

(** The score [complexity] returns for a declaration. *)
Definition score (fn : ast.FuncDecl.t) : Z :=
  int.wrap (Z.of_nat (decisions (ast.nodes (ast.FuncDecl_node fn)))).

(** The record of a declaration that is given identity [id]. *)
Definition record (d : string * ast.FuncDecl.t) (id : Z) : BasicBlock :=
  {| PkgName := d.1;
     FuncName := default "" (funcName d.2);
     Complexity := score d.2;
     Pos := ast.FuncDecl.Pos d.2;
     EndPos := ast.FuncDecl.End_ d.2;
     ID := id |}.

(** The records of a sequence of declarations, identities counting up
    from [id]. *)
Fixpoint records (ds : list (string * ast.FuncDecl.t)) (id : Z) : list BasicBlock :=
  match ds with
  | [] => []
  | d :: ds' => record d id :: records ds' (int.incr id)
  end.

(** The process after the records of [ds] are built: the call expressions
    printed, the counter advanced. *)
Definition built (ds : list (string * ast.FuncDecl.t)) (p : Proc) : Proc :=
  {| stdout := stdout p
       ++ concat (map (fun d => printed (ast.nodes (ast.FuncDecl_node d.2))) ds);
     stderr := stderr p;
     count := Nat.iter (length ds) int.incr (count p);
     counterMutex := counterMutex p |}.

(** The files [filepath.Walk] hands to [analyzeFile]: regular entries named
    [*.go], up to the first entry that could not be read. *)
Fixpoint walked (entries : list WalkEntry) : list string :=
  match entries with
  | [] => []
  | Entry path info :: rest =>
      (if negb (IsDir info) && HasSuffix path ".go" then [path] else [])
      ++ walked rest
  | EntryErr _ _ :: _ => []
  end.

(** The files a run parses for the given arguments, in order. *)
Definition sources (env : Env) (paths : list string) : list string :=
  concat (map (fun path => if isDir env path
                           then walked (walk_entries env path)
                           else [path]) paths).

(** Parsing the files in order: all of them, or the files before the first
    one that fails together with its error. *)
Fixpoint parse_all (env : Env) (files : list string)
  : list ast.File.t + list ast.File.t * string :=
  match files with
  | [] => inl []
  | fname :: rest =>
      match parser_ParseFile env fname with
      | inr err => inr ([], err)
      | inl f =>
          match parse_all env rest with
          | inl fs => inl (f :: fs)
          | inr (fs, err) => inr (f :: fs, err)
          end
      end
  end.

(** All function declarations of a sequence of files, in order. *)
Definition allFuncDecls (fs : list ast.File.t) : list (string * ast.FuncDecl.t) :=
  concat (map funcDecls fs).

(** Appending to standard error. *)
Definition eemit (errs : list ErrOutput) (p : Proc) : Proc :=
  {| stdout := stdout p; stderr := stderr p ++ errs;
     count := count p; counterMutex := counterMutex p |}.

(** ** What a run reports *)

(** The leading records whose complexity exceeds [over]. *)
Fixpoint above (over : Z) (l : list BasicBlock) : list BasicBlock :=
  match l with
  | [] => []
  | b :: l' => if over <? Complexity b then b :: above over l' else []
  end.

(** At most [top] records; a negative [top] (the default is -1) is no
    bound. *)
Definition capped (top : Z) (l : list BasicBlock) : list BasicBlock :=
  if top <? 0 then l else take (Z.to_nat top) l.

(** The records the report shows: walking the sequence, stop at the first
    record that is not above [over] or when [top] records are out. *)
Definition reported (flags : Flags) (l : list BasicBlock) : list BasicBlock :=
  capped (top flags) (above (over flags) l).

(** The sum of the complexities, in unbounded integers. *)
Definition sumComplexity (l : list BasicBlock) : Z :=
  foldr (fun b s => Complexity b + s) 0 l.

(** ** What the insertion sort computes *)

(** The inner loop seen on the reversed prefix (nearest neighbour first):
    the new record passes every record that is not more complex than it. *)
Fixpoint settle (x : BasicBlock) (rp : list BasicBlock) : list BasicBlock :=
  match rp with
  | [] => [x]
  | y :: rp' =>
      if Complexity y <=? Complexity x then y :: settle x rp' else x :: rp
  end.

(** The reversed prefix after the records of [l] have been inserted. *)
Definition settled (rp l : list BasicBlock) : list BasicBlock :=
  foldl (fun rp x => settle x rp) rp l.

(** More complex first; among equals, the higher id first. *)
Definition before (a b : BasicBlock) : Prop :=
  Complexity b < Complexity a
  \/ (Complexity a = Complexity b /\ ID b < ID a).

(** The slices [sort.Sort] sorts by [insertionSort] alone in every release
    of package sort: at most 6 elements (since Go 1.19 at most 12; before,
    a slice of 7 to 12 elements gets a Shell pass first). *)
Definition shortSlice : Z := 6.

(** [sort.Sort] as the program's parameter: the slice is sorted in place,
    and is left as it is should a method panic. *)
Definition sorter (l : list BasicBlock) : list BasicBlock :=
  default l (sort.Sort l).

(** Two functions of equal complexity, in discovery order. *)
Definition tie : list BasicBlock :=
  [ record ("main", calls_g) 1; record ("main", method (ast.Ident "T") "M") 2 ].

(** ** What the library sort maintains *)

(** The complexity at an index of a slice (0 past its end). *)
Definition cx (l : list BasicBlock) (k : nat) : Z :=
  from_option Complexity 0 (l !! k).

(** The slice with the elements at [i] and [j] exchanged. *)
Definition exchange {A} (l : list A) (i j : nat) : list A :=
  match l !! i, l !! j with
  | Some x, Some y => <[j := x]> (<[i := y]> l)
  | _, _ => l
  end.

(** [l'] is [l] with the elements of the range [[a, b)] rearranged
    inside the range, and nothing else touched. *)
Definition within {A} (a b : nat) (l l' : list A) : Prop :=
  l' ≡ₚ l
  /\ (forall k, (k < a \/ b <= k)%nat -> l' !! k = l !! k)
  /\ (forall k, (a <= k < b)%nat ->
        exists k', (a <= k' < b)%nat /\ l' !! k = l !! k').

(** Complexity does not increase along the range [[a, b)]. *)
Definition descending (a b : nat) (l : list BasicBlock) : Prop :=
  forall i j, (a <= i)%nat -> (i < j)%nat -> (j < b)%nat -> cx l j <= cx l i.

(** Every record of the range [[a, b)] is strictly below the record
    before the range, when there is one. *)
Definition fenced (a b : nat) (l : list BasicBlock) : Prop :=
  forall k, (0 < a)%nat -> (a <= k < b)%nat -> cx l k < cx l (a - 1).

(** The range [[a, b)] is divided at [mid]: no record before [mid] is
    below the record at [mid], every record after it is. *)
Definition divided (a b mid : nat) (l : list BasicBlock) : Prop :=
  (a <= mid < b)%nat
  /\ (forall k, (a <= k < mid)%nat -> cx l mid <= cx l k)
  /\ (forall k, (mid < k < b)%nat -> cx l k < cx l mid).

(** What the loops of [partition] have established at [i] and [j]. *)
Definition parted (a b i j : nat) (l : list BasicBlock) : Prop :=
  (a < i)%nat /\ (i <= j + 1)%nat /\ (j < b)%nat /\ (b <= length l)%nat
  /\ (forall k, (a < k < i)%nat -> cx l a <= cx l k)
  /\ (forall k, (j < k < b)%nat -> cx l k < cx l a).

(** The heap of [heapSort] on [data[first : first+hi]]: the record at
    [k] is not above its children at [2k+1] and [2k+2]. *)
Definition heap_at (first hi : nat) (l : list BasicBlock) (k : nat) : Prop :=
  forall c, (c = 2 * k + 1 \/ c = 2 * k + 2)%nat -> (c < hi)%nat ->
    cx l (first + k) <= cx l (first + c).

Definition heap (first lo hi : nat) (l : list BasicBlock) : Prop :=
  forall k, (lo <= k)%nat -> heap_at first hi l k.

(** ** A small run *)

(** [a.go]: an import, then three functions. *)
Definition file_a : ast.File.t :=
  {| ast.File.Name := "main";
     ast.File.Decls :=
       [ ast.DeclGen (ast.Tree ast.GenDecl
           [ast.Tree ast.ImportSpec [ast.Tree ast.BasicLit []]]);
         ast.DeclFunc if_and_for;
         ast.DeclFunc (method (ast.StarExpr (ast.Ident "T")) "M");
         ast.DeclFunc calls_g ] |}.

(** [pkg/b.go]: one method. *)
Definition file_b : ast.File.t :=
  {| ast.File.Name := "pkg";
     ast.File.Decls := [ ast.DeclFunc (method (ast.Ident "T") "String") ] |}.

(** [empty.go]: a package clause and nothing else. *)
Definition file_empty : ast.File.t :=
  {| ast.File.Name := "main"; ast.File.Decls := [] |}.

(** A directory [pkg] holding [README.md] and [b.go], the files [a.go] and
    [empty.go], and [bad.go], which does not parse. *)
Definition example_env : Env :=
  {| os_Stat := fun path =>
       if String.eqb path "pkg" then Some {| IsDir := true |}
       else if String.eqb path "a.go" || String.eqb path "empty.go"
               || String.eqb path "bad.go"
       then Some {| IsDir := false |}
       else None;
     parser_ParseFile := fun fname =>
       if String.eqb fname "a.go" then inl file_a
       else if String.eqb fname "pkg/b.go" then inl file_b
       else if String.eqb fname "empty.go" then inl file_empty
       else inr (fname +:+ ":1:1: expected 'package', found 'EOF'");
     walk_entries := fun dirname =>
       if String.eqb dirname "pkg"
       then [ Entry "pkg" {| IsDir := true |};
              Entry "pkg/README.md" {| IsDir := false |};
              Entry "pkg/b.go" {| IsDir := false |} ]
       else [] |}.

(** The flags of [gocyclo -avg]. *)
Definition avgFlags : Flags := {| over := 0; top := -1; avg := true |}.

(** A record of the given complexity and id. *)
Definition scored (c id : Z) : BasicBlock :=
  {| PkgName := "main"; FuncName := "f"; Complexity := c;
     Pos := {| token.Filename := "a.go"; token.Offset := 0;
               token.Line := 1; token.Column := 1 |};
     EndPos := {| token.Filename := "a.go"; token.Offset := 0;
                  token.Line := 1; token.Column := 1 |};
     ID := id |}.

(** ** The first program of log20.go *)

(** The first program (lines 1 to 189 of log20.go) has no flag, no sort and
    no average. Its [analyze], [isDir], [analyzeFile], [analyzeDir],
    [buildBasicBlocks], [funcName], [recvString], [complexity] and visitor
    are those above; its [BasicBlock] has further fields that nothing sets
    or prints. Its [writeBasicBlocks] and [main] differ. *)
Module plain.

(** [writeBasicBlocks], writing to standard output. *)
Definition writeBasicBlocks (sortedBasicBlocks : list BasicBlock) : IO Z :=
  forRange sortedBasicBlocks
    (fun _ BasicBlock => print (PrintBlock BasicBlock)) tt;;
  mret (len sortedBasicBlocks).

(** [main]: without arguments it exits with status 2 and prints nothing. *)
Definition main (env : Env) (args : list string) : IO unit :=
  (if len args =? 0 then os_Exit 2 else mret tt);;
  BasicBlocks ← analyze env args;
  writeBasicBlocks BasicBlocks;;
  mret tt.

End plain.

(** ** More of what a run does *)

(** The records of a list that are above [over]. *)
Definition exceeding (over : Z) (l : list BasicBlock) : list BasicBlock :=
  List.filter (fun b => over <? Complexity b) l.

(** A sort routine that does sort: it permutes its input into a sequence
    that is non-increasing in complexity. *)
Definition sorts (sort_Sort : list BasicBlock -> list BasicBlock) : Prop :=
  forall l,
    sort_Sort l ≡ₚ l
    /\ StronglySorted (fun a b => Complexity b <= Complexity a) (sort_Sort l).

(** The fields of a field list, in unbounded integers: an entry counts
    once per name, an anonymous entry once. *)
Definition fieldCount (l : list ast.Field.t) : Z :=
  foldr (fun g n =>
           let m := Z.of_nat (length (ast.Field.Names g)) in
           (if m =? 0 then 1 else m) + n) 0 l.

(** The method [func (a first, b second) name() {}], which the parser
    builds although it reports it. *)
Definition two_receivers (first second : ast.Node) (name : string) : ast.FuncDecl.t :=
  {| ast.FuncDecl.Doc := None;
     ast.FuncDecl.Recv := Some {| ast.FieldList.List :=
       [ {| ast.Field.Doc := None; ast.Field.Names := ["a"];
            ast.Field.Type_ := Some first; ast.Field.Tag := None;
            ast.Field.Comment := None |};
         {| ast.Field.Doc := None; ast.Field.Names := ["b"];
            ast.Field.Type_ := Some second; ast.Field.Tag := None;
            ast.Field.Comment := None |} ] |};
     ast.FuncDecl.Name := name;
     ast.FuncDecl.Type_ := ast.Tree ast.FuncType [ast.Tree ast.FieldList []];
     ast.FuncDecl.Body := Some (ast.Tree ast.BlockStmt []);
     ast.FuncDecl.Pos := ast.FuncDecl.Pos calls_g;
     ast.FuncDecl.End_ := ast.FuncDecl.End_ calls_g |}.

(** A directory [dir] whose walk meets [a.go], then an entry that cannot
    be read, then [bad.go]. *)
Definition unreadable_env : Env :=
  {| os_Stat := fun path =>
       if String.eqb path "dir" then Some {| IsDir := true |} else None;
     parser_ParseFile := parser_ParseFile example_env;
     walk_entries := fun dirname =>
       if String.eqb dirname "dir"
       then [ Entry "dir" {| IsDir := true |};
              Entry "a.go" {| IsDir := false |};
              EntryErr "dir/locked" "open dir/locked: permission denied";
              Entry "bad.go" {| IsDir := false |} ]
       else [] |}.

(** ** The line of a record *)

(** [%d] of an [int]: its decimal digits, after a minus sign when it is
    negative. *)
Definition itoa (z : Z) : string :=
  DecimalString.NilEmpty.string_of_int (Z.to_int z).

(** [String]: [fmt.Sprintf("%d %s %s %s %s %d", ...)]. A [token.Position]
    is printed by its own [String] method, of package go/token: the
    parameter [posString]. *)
Definition BasicBlock_String (posString : token.Position -> string)
    (s : BasicBlock) : string :=
  itoa (Complexity s) +:+ " " +:+ PkgName s +:+ " " +:+ FuncName s +:+ " "
  +:+ posString (Pos s) +:+ " " +:+ posString (EndPos s) +:+ " "
  +:+ itoa (ID s).

(** A string without a space. *)
Fixpoint spaceless (s : string) : bool :=
  match s with
  | EmptyString => true
  | String c s' => negb (Ascii.eqb c " "%char) && spaceless s'
  end.

(** A rendering of positions as [file:line:column]. *)
Definition file_line_column (pos : token.Position) : string :=
  token.Filename pos +:+ ":" +:+ itoa (token.Line pos) +:+ ":"
  +:+ itoa (token.Column pos).

(** A record with the given package and function names, complexity and
    id. *)
Definition named (pkg fn : string) (c id : Z) : BasicBlock :=
  {| PkgName := pkg; FuncName := fn; Complexity := c;
     Pos := Pos (scored c id); EndPos := EndPos (scored c id); ID := id |}.

(** ** The entropy functions of the first program *)

Section Entropy.

(** [math.Log2] *)
Variable Log2 : float -> float.

(** [calculateShannonsEntropy] *)
Definition calculateShannonsEntropy (probabilities : list float) : float :=
  let sum :=
    fold_left
      (fun sum probability =>
         PrimFloat.add sum (PrimFloat.mul probability (Log2 probability)))
      probabilities 0%float in
  PrimFloat.opp sum.

(** [calculateProbablityOfSpecificLog] *)
Definition calculateProbablityOfSpecificLog (probabilities : list float) : float :=
  let sum :=
    fold_left
      (fun sum probability =>
         PrimFloat.add sum (PrimFloat.mul probability (Log2 probability)))
      probabilities 0%float in
  PrimFloat.opp sum.

End Entropy.

(** [math.Log2] where it is exact and this development needs it; a NaN
    elsewhere. *)
Definition log2_table (x : float) : float :=
  if PrimFloat.eqb x 0 then neg_infinity
  else if PrimFloat.eqb x 1 then 0%float
  else if PrimFloat.eqb x 0.5 then (-1)%float
  else if PrimFloat.eqb x 0.25 then (-2)%float
  else nan.

(** * Properties *)

(** ** Arithmetic of [int] *)

Lemma int_wrap_small z : int.min <= z <= int.max -> int.wrap z = z.
Proof.
  unfold int.min, int.max, int.wrap. intros H.
  rewrite Z.mod_small by lia. lia.
Qed.

Lemma int_wrap_add_l a b : int.wrap (int.wrap a + b) = int.wrap (a + b).
Proof.
  unfold int.wrap.
  replace ((a + 2 ^ 63) mod 2 ^ 64 - 2 ^ 63 + b + 2 ^ 63)
    with ((a + 2 ^ 63) mod 2 ^ 64 + b) by lia.
  rewrite Zplus_mod_idemp_l.
  replace (a + 2 ^ 63 + b) with (a + b + 2 ^ 63) by lia. reflexivity.
Qed.

(** [k] increments starting from an [int] in range. *)
Lemma int_incr_iter (k : nat) (c : Z) :
  int.min <= c <= int.max ->
  Nat.iter k int.incr c = int.wrap (c + Z.of_nat k).
Proof.
  intros Hc. induction k as [|k IH].
  - simpl. rewrite Z.add_0_r, int_wrap_small; auto.
  - rewrite Nat.iter_succ, IH. unfold int.incr, int.add.
    rewrite int_wrap_add_l. f_equal. lia.
Qed.

(** ** The monad *)

Lemma bind_Ret {A B} (m : IO A) (k : A -> IO B) p a p' :
  m p = (Ret a, p') -> (m ≫= k) p = k a p'.
Proof. unfold mbind, IO_bind. intros ->. reflexivity. Qed.

Lemma bind_stop {A B} (m : IO A) (k : A -> IO B) p :
  (m ≫= k) p =
  match m p with
  | (Ret a, p') => k a p'
  | (Exit c, p') => (Exit c, p')
  | (Crash, p') => (Crash, p')
  end.
Proof. reflexivity. Qed.

Lemma emit_nil p : emit [] p = p.
Proof. destruct p. unfold emit. simpl. rewrite app_nil_r. reflexivity. Qed.

Lemma emit_emit a b p : emit b (emit a p) = emit (a ++ b) p.
Proof. unfold emit. simpl. rewrite app_assoc. reflexivity. Qed.

(** ** The walk *)

Lemma nodes_eq (n : ast.Node) :
  ast.nodes n =
  n :: match n with
       | ast.Ident _ => []
       | ast.StarExpr x => ast.nodes x
       | ast.BinaryExpr x _ y => ast.nodes x ++ ast.nodes y
       | ast.CallExpr f args => ast.nodes f ++ ast.nodesList args
       | ast.Tree _ sub => ast.nodesList sub
       end.
Proof.
  assert (Hl : forall l,
    (fix nodesList (l : list ast.Node) : list ast.Node :=
       match l with
       | [] => []
       | m :: l' => ast.nodes m ++ nodesList l'
       end) l = ast.nodesList l).
  { induction l as [|m l IH]; [reflexivity|].
    unfold ast.nodesList. simpl. f_equal. exact IH. }
  destruct n; simpl; rewrite ?Hl; reflexivity.
Qed.

Lemma nodesList_cons n l : ast.nodesList (n :: l) = ast.nodes n ++ ast.nodesList l.
Proof. reflexivity. Qed.

Lemma Walk_eq v node :
  Walk v node =
  (v ← Visit v (Some node);
   v ← match node with
       | ast.Ident _ => mret v
       | ast.StarExpr X => Walk v X
       | ast.BinaryExpr X _ Y => v ← Walk v X; Walk v Y
       | ast.CallExpr Fun Args => v ← Walk v Fun; walkList v Args
       | ast.Tree _ sub => walkList v sub
       end;
   Visit v None).
Proof. destruct node; reflexivity. Qed.

Lemma bumps_add j k v : bumps k (bumps j v) = bumps (j + k) v.
Proof. unfold bumps. rewrite Nat.add_comm, Nat.iter_add. reflexivity. Qed.

Lemma decisions_app a b : decisions (a ++ b) = (decisions a + decisions b)%nat.
Proof. unfold decisions. rewrite List.filter_app, length_app. reflexivity. Qed.

Lemma printed_app a b : printed (a ++ b) = printed a ++ printed b.
Proof. unfold printed. apply omap_app. Qed.

Lemma Visit_Some v n p :
  Visit v (Some n) p =
  (Ret (bumps (decisions [n]) v), emit (printed [n]) p).
Proof.
  destruct n as [s|x|x op y|f args|k sub]; simpl.
  - rewrite emit_nil. reflexivity.
  - rewrite emit_nil. reflexivity.
  - destruct op; simpl; rewrite emit_nil; reflexivity.
  - reflexivity.
  - destruct k; simpl; rewrite emit_nil; reflexivity.
Qed.

Lemma cons_app1 {A} (x : A) (l : list A) : x :: l = [x] ++ l.
Proof. reflexivity. Qed.

Lemma Visit_None v p : Visit v None p = (Ret v, p).
Proof. reflexivity. Qed.

(** Closes a case of the walk: the node's own visit, then the walk of the
    nodes [below] it, then the visit of nil. *)
Ltac walked_below below :=
  rewrite Visit_None, (cons_app1 _ below);
  rewrite !decisions_app, !printed_app, !bumps_add, !emit_emit;
  rewrite <- ?Nat.add_assoc, <- ?app_assoc;
  reflexivity.

Lemma Walk_spec (n : ast.Node) : forall v p,
  Walk v n p = (Ret (bumps (decisions (ast.nodes n)) v), emit (printed (ast.nodes n)) p).
Proof.
  assert (HL : forall l, Forall (fun n => forall v p,
      Walk v n p = (Ret (bumps (decisions (ast.nodes n)) v),
                    emit (printed (ast.nodes n)) p)) l ->
    forall v p, walkList v l p =
      (Ret (bumps (decisions (ast.nodesList l)) v),
       emit (printed (ast.nodesList l)) p)).
  { induction 1 as [|m l Hm _ IH]; intros v p.
    - simpl. rewrite emit_nil. reflexivity.
    - simpl walkList. rewrite nodesList_cons, decisions_app, printed_app.
      erewrite bind_Ret by apply Hm. rewrite IH, bumps_add, emit_emit.
      reflexivity. }
  induction n as [s|x IHx|x op y IHx IHy|f args IHf IHargs|k sub IHsub]
    using ast.Node_nested_ind; intros v p;
    rewrite Walk_eq, (nodes_eq _);
    (erewrite bind_Ret by apply Visit_Some).
  - simpl. rewrite emit_nil. reflexivity.
  - erewrite bind_Ret by apply IHx.
    walked_below (ast.nodes x).
  - erewrite bind_Ret.
    2:{ erewrite bind_Ret by apply IHx. apply IHy. }
    walked_below (ast.nodes x ++ ast.nodes y).
  - erewrite bind_Ret.
    2:{ erewrite bind_Ret by apply IHf. apply HL, IHargs. }
    walked_below (ast.nodes f ++ ast.nodesList args).
  - erewrite bind_Ret by (apply HL, IHsub).
    walked_below (ast.nodesList sub).
Qed.

Lemma vComplexity_bumps k v :
  vComplexity (bumps k v) = Nat.iter k int.incr (vComplexity v).
Proof.
  unfold bumps. induction k as [|k IH]; [reflexivity|].
  rewrite !Nat.iter_succ. simpl. rewrite IH. reflexivity.
Qed.

Lemma complexity_spec fn p :
  complexity fn p =
  (Ret (int.wrap (Z.of_nat (decisions (ast.nodes (ast.FuncDecl_node fn))))),
   emit (printed (ast.nodes (ast.FuncDecl_node fn))) p).
Proof.
  unfold complexity. erewrite bind_Ret by apply Walk_spec.
  unfold mret, IO_ret. rewrite vComplexity_bumps. simpl vComplexity.
  rewrite int_incr_iter by (unfold int.min, int.max; lia).
  reflexivity.
Qed.

(** Every decision node is of exactly one of the five sorts. *)
Lemma decisions_split (l : list ast.Node) :
  Z.of_nat (decisions l) =
  occurrences is_decl l + occurrences is_if l + occurrences is_loop l
  + occurrences is_arm l + occurrences is_logical l.
Proof.
  unfold decisions, occurrences, len.
  induction l as [|n l IH]; [reflexivity|].
  assert (Hn : is_decision n = is_decl n || is_if n || is_loop n || is_arm n || is_logical n)
    by reflexivity.
  simpl List.filter.
  destruct n as [s|x|x op y|f args|k sub]; simpl in *;
    try lia;
    [ destruct op | destruct k ]; simpl in *; lia.
Qed.

Lemma filter_none {A} (q : A -> bool) (l : list A) :
  forallb (fun x => negb (q x)) l = true -> List.filter q l = [].
Proof.
  induction l as [|x l IH]; [reflexivity|].
  simpl. destruct (q x); simpl; [discriminate|]. exact IH.
Qed.

Lemma occurrences_decl_top_level fn :
  top_level fn -> occurrences is_decl (ast.nodes (ast.FuncDecl_node fn)) = 1.
Proof.
  unfold top_level, ast.descendants, occurrences, len.
  rewrite (nodes_eq (ast.FuncDecl_node fn)).
  unfold ast.FuncDecl_node at 1 3. simpl tail. simpl List.filter.
  intros H. rewrite (filter_none _ _ H). reflexivity.
Qed.

(** C1. For a declaration as the parser builds it (no function declaration
    nested below it) whose score fits Go's [int], [complexity] returns
    exactly 1 + the number of [if] statements + the number of [for] and
    [range] statements + the number of [case] and communication clauses +
    the number of [&&] and [||] operators of the whole subtree, closures
    included; no other node counts. *)
Theorem complexity_counts_decision_points (fn : ast.FuncDecl.t) (p : Proc) :
  top_level fn ->
  1 + decision_points fn <= int.max ->
  (complexity fn p).1 = Ret (1 + decision_points fn).
Proof.
  intros Htop Hmax. rewrite complexity_spec. cbn [fst]. f_equal.
  rewrite decisions_split, (occurrences_decl_top_level fn Htop).
  unfold decision_points in *.
  assert (H0 : forall q l, 0 <= occurrences q l)
    by (intros; unfold occurrences, len; lia).
  pose proof (H0 is_if (ast.nodes (ast.FuncDecl_node fn))).
  pose proof (H0 is_loop (ast.nodes (ast.FuncDecl_node fn))).
  pose proof (H0 is_arm (ast.nodes (ast.FuncDecl_node fn))).
  pose proof (H0 is_logical (ast.nodes (ast.FuncDecl_node fn))).
  rewrite int_wrap_small by (unfold int.min, int.max in *; lia).
  lia.
Qed.

(** C1 on a declaration with one [if], one [&&] and one [for]: 4. *)
Lemma complexity_if_and_for : (complexity if_and_for start).1 = Ret 4.
Proof.
  apply (complexity_counts_decision_points if_and_for start).
  - reflexivity.
  - vm_compute. discriminate.
Defined.

(** C8, as the claim states it, fails: analysing a function that calls
    [g] writes a line to standard output. *)
Lemma complexity_prints_call :
  stdout (complexity calls_g start).2 = [PrintFun (ast.Ident "g")]
  /\ (complexity calls_g start).2 <> start.
Proof. split; [reflexivity | discriminate]. Qed.

(** C8, amended. [complexity] never mutates the tree (a value of the
    embedding), leaves the counter, the mutex and standard error as they
    are, and returns a score that does not depend on the state of the
    process, so nothing is carried from one invocation to the next; its one
    effect besides the score is a line on standard output for every call
    expression of the subtree, in the order of the walk. *)
Theorem complexity_only_prints_calls (fn : ast.FuncDecl.t) (p : Proc) :
  let r := complexity fn p in
  stdout r.2 = stdout p ++ printed (ast.nodes (ast.FuncDecl_node fn))
  /\ stderr r.2 = stderr p
  /\ count r.2 = count p
  /\ counterMutex r.2 = counterMutex p
  /\ (exists score, r.1 = Ret score)
  /\ (forall p', (complexity fn p').1 = r.1).
Proof.
  cbv zeta. rewrite complexity_spec. cbn [fst snd emit stdout stderr count counterMutex].
  repeat split; eauto.
  intros p'. rewrite complexity_spec. reflexivity.
Qed.

(** ** The function identifier *)

(** A positive [NumFields] means the list has a first entry. *)
Lemma NumFields_pos_first (recv : ast.FieldList.t) :
  0 < ast.FieldList.NumFields recv ->
  exists f, ast.FieldList.List recv !! 0%nat = Some f.
Proof.
  destruct recv as [[|f l]]; [vm_compute; discriminate|]. eauto.
Qed.

Lemma NumFields_single (f : ast.Field.t) :
  (length (ast.Field.Names f) <= 1)%nat ->
  ast.FieldList.NumFields {| ast.FieldList.List := [f] |} = 1.
Proof.
  unfold ast.FieldList.NumFields. simpl.
  destruct (ast.Field.Names f) as [|x [|y l]]; simpl; intros H;
    [reflexivity | reflexivity | lia].
Qed.

Lemma NumFields_from (l : list ast.Field.t) (n : Z) :
  fold_left
    (fun n g =>
       let m := Z.of_nat (length (ast.Field.Names g)) in
       int.add n (if m =? 0 then 1 else m))
    l (int.wrap n)
  = int.wrap (n + fieldCount l).
Proof.
  revert n. induction l as [|g l IH]; intros n.
  - simpl. rewrite Z.add_0_r. reflexivity.
  - cbn [fold_left fieldCount foldr]. cbv zeta. unfold int.add at 2.
    rewrite int_wrap_add_l, IH.
    set (m := Z.of_nat (length (ast.Field.Names g))).
    replace (n + (if m =? 0 then 1 else m) + fieldCount l)
      with (n + ((if m =? 0 then 1 else m) + fieldCount l)) by lia.
    reflexivity.
Qed.

Lemma NumFields_wrap (l : list ast.Field.t) :
  ast.FieldList.NumFields {| ast.FieldList.List := l |} = int.wrap (fieldCount l).
Proof. apply (NumFields_from l 0). Qed.

Lemma fieldCount_pos f rest : 0 < fieldCount (f :: rest).
Proof.
  assert (H0 : forall l, 0 <= fieldCount l).
  { induction l as [|g l IH]; simpl; [lia|].
    destruct (Z.of_nat (length (ast.Field.Names g)) =? 0); lia. }
  specialize (H0 rest). simpl.
  destruct (Z.of_nat (length (ast.Field.Names f)) =? 0) eqn:Hm; [lia|].
  apply Z.eqb_neq in Hm. lia.
Qed.

Lemma recvString_pointer n e :
  recvString (pointer n e) = stars n +:+ recvString e.
Proof.
  induction n as [|n IH]; [reflexivity|].
  simpl. rewrite IH. reflexivity.
Qed.

(** C6, as the claim states it, fails: a double-pointer receiver is not
    rendered as BADRECV. *)
Lemma funcName_double_pointer :
  funcName (method (ast.StarExpr (ast.StarExpr (ast.Ident "T"))) "M")
  = Some "(**T).M".
Proof. reflexivity. Qed.

(** C6, amended. For a method M with one receiver, the name is "(R).M"
    where R renders the receiver's declared type: a named type T as "T",
    a pointer as "*" followed by the rendering of what it points to (so *T
    as "*T" and the double pointer **T as "**T"), and a type that is
    neither an identifier nor a pointer as "BADRECV". *)
Theorem funcName_receiver (fn : ast.FuncDecl.t) (f : ast.Field.t) (e : ast.Node) :
  ast.FuncDecl.Recv fn = Some {| ast.FieldList.List := [f] |} ->
  (length (ast.Field.Names f) <= 1)%nat ->
  ast.Field.Type_ f = Some e ->
  funcName fn = Some ("(" +:+ recvString e +:+ ")." +:+ ast.FuncDecl.Name fn)
  /\ (forall T, recvString (ast.Ident T) = T)
  /\ (forall X, recvString (ast.StarExpr X) = "*" +:+ recvString X)
  /\ (forall T, recvString (ast.StarExpr (ast.StarExpr (ast.Ident T))) = "**" +:+ T)
  /\ (ident_or_pointer e = false -> recvString e = "BADRECV").
Proof.
  intros HR Hn HT. unfold funcName. rewrite HR, (NumFields_single f Hn).
  simpl. rewrite HT. repeat split; try reflexivity.
  destruct e; simpl; try discriminate; reflexivity.
Qed.

(** C6 on a pointer receiver. *)
Lemma funcName_receiver_pointer :
  funcName (method (ast.StarExpr (ast.Ident "T")) "M") = Some "(*T).M".
Proof.
  apply (funcName_receiver (method (ast.StarExpr (ast.Ident "T")) "M") _ _
           eq_refl ltac:(simpl; lia) eq_refl).
Defined.

(** C7. [funcName] is total and pure: it yields a name for every
    declaration and touches nothing of the process; a function without
    receiver gets its own identifier; a method whose receiver type is [e]
    behind [n] pointers is named by [n] asterisks and the rendering of
    [e], in parentheses before its identifier; in [recvString] a pointer
    is "*" followed by the rendering of the pointee, to any depth, the
    recursion ending in a type name or in BADRECV. *)
Theorem funcName_total (fn : ast.FuncDecl.t) (p : Proc) :
  (exists name, must (funcName fn) p = (Ret name, p))
  /\ (ast.FuncDecl.Recv fn = None -> funcName fn = Some (ast.FuncDecl.Name fn))
  /\ (forall f rest n e,
        ast.FuncDecl.Recv fn = Some {| ast.FieldList.List := f :: rest |} ->
        fieldCount (f :: rest) <= int.max ->
        ast.Field.Type_ f = Some (pointer n e) ->
        funcName fn
        = Some ("(" +:+ (stars n +:+ recvString e) +:+ ")."
                +:+ ast.FuncDecl.Name fn))
  /\ (forall X, recvString (ast.StarExpr X) = "*" +:+ recvString X)
  /\ (forall n T, recvString (pointer n (ast.Ident T)) = stars n +:+ T)
  /\ (forall e, exists n leaf,
        recvString e = stars n +:+ leaf
        /\ (e = pointer n (ast.Ident leaf)
            \/ (leaf = "BADRECV"
                /\ exists e', e = pointer n e' /\ ident_or_pointer e' = false))).
Proof.
  split; [|split; [|split; [|split; [|split]]]].
  - unfold funcName.
    destruct (ast.FuncDecl.Recv fn) as [recv|]; [|simpl; eauto].
    destruct (0 <? ast.FieldList.NumFields recv) eqn:Hpos; [|simpl; eauto].
    apply Z.ltb_lt in Hpos.
    destruct (NumFields_pos_first recv Hpos) as [f Hf].
    rewrite Hf. simpl. eauto.
  - unfold funcName. intros ->. reflexivity.
  - intros f rest n e HR Hmax HT. unfold funcName.
    rewrite HR, NumFields_wrap.
    pose proof (fieldCount_pos f rest) as Hpos.
    rewrite int_wrap_small by (unfold int.min, int.max in *; lia).
    apply Z.ltb_lt in Hpos. rewrite Hpos.
    cbn [ast.FieldList.List lookup list_lookup mbind option_bind].
    rewrite HT, recvString_pointer. reflexivity.
  - reflexivity.
  - intros n T. apply recvString_pointer.
  - induction e as [s|x IHx|x op y _ _|f args _ _|k sub _] using ast.Node_nested_ind.
    + exists 0%nat, s. split; [reflexivity|]. left. reflexivity.
    + destruct IHx as (n & leaf & Hs & Hshape).
      exists (S n), leaf. split; [simpl; rewrite Hs; reflexivity|].
      destruct Hshape as [->|(Hl & e' & -> & He')].
      * left. reflexivity.
      * right. split; [exact Hl|]. exists e'. split; [reflexivity|exact He'].
    + exists 0%nat, "BADRECV". split; [reflexivity|]. right.
      split; [reflexivity|]. eexists. split; reflexivity.
    + exists 0%nat, "BADRECV". split; [reflexivity|]. right.
      split; [reflexivity|]. eexists. split; reflexivity.
    + exists 0%nat, "BADRECV". split; [reflexivity|]. right.
      split; [reflexivity|]. eexists. split; reflexivity.
Qed.

(** C10. A receiver list that is present but has no field makes [funcName]
    fall back to the bare name, as for a function without receiver. *)
Theorem funcName_empty_receiver (fn : ast.FuncDecl.t) :
  ast.FuncDecl.Recv fn = Some {| ast.FieldList.List := [] |} ->
  funcName fn = Some (ast.FuncDecl.Name fn).
Proof. unfold funcName. intros ->. reflexivity. Qed.

(** ** The record builder *)

Lemma forRange_app {A B} (a b : list A) (body : B -> A -> IO B) acc p :
  forRange (a ++ b) body acc p = (acc' ← forRange a body acc; forRange b body acc') p.
Proof.
  revert acc p. induction a as [|x a IH]; intros acc p; [reflexivity|].
  simpl. rewrite !bind_stop. destruct (body acc x p) as [[acc'| |] p']; auto.
Qed.

Lemma built_nil p : built [] p = p.
Proof. destruct p. unfold built. simpl. rewrite app_nil_r. reflexivity. Qed.

Lemma built_app a b p : built (a ++ b) p = built b (built a p).
Proof.
  unfold built. simpl. f_equal.
  - rewrite map_app, concat_app, app_assoc. reflexivity.
  - rewrite length_app, Nat.add_comm, Nat.iter_add. reflexivity.
Qed.

Lemma built_cons d ds p : built (d :: ds) p = built ds (built [d] p).
Proof. apply (built_app [d] ds). Qed.

Lemma records_app a b id :
  records (a ++ b) id = records a id ++ records b (Nat.iter (length a) int.incr id).
Proof.
  revert id. induction a as [|d a IH]; intros id; [reflexivity|].
  simpl. rewrite IH. f_equal. f_equal.
  rewrite <- Nat.iter_succ, Nat.iter_succ_r. reflexivity.
Qed.

Lemma must_funcName fn p :
  must (funcName fn) p = (Ret (default "" (funcName fn)), p).
Proof.
  unfold funcName.
  destruct (ast.FuncDecl.Recv fn) as [recv|]; [|reflexivity].
  destruct (0 <? ast.FieldList.NumFields recv) eqn:Hpos; [|reflexivity].
  apply Z.ltb_lt in Hpos.
  destruct (NumFields_pos_first recv Hpos) as [f Hf].
  rewrite Hf. reflexivity.
Qed.

(** One function declaration met by [buildBasicBlocks] with the mutex free. *)
Lemma build_one pkg fn (bbs : list BasicBlock) p :
  counterMutex p = false ->
  (Lock;;
   name ← must (funcName fn);
   c ← complexity fn;
   id ← readCount;
   incrCount;;
   Unlock;;
   mret (bbs ++ [ {| PkgName := pkg; FuncName := name; Complexity := c;
                     Pos := ast.FuncDecl.Pos fn; EndPos := ast.FuncDecl.End_ fn;
                     ID := id |} ])) p
  = (Ret (bbs ++ [record (pkg, fn) (count p)]), built [(pkg, fn)] p).
Proof.
  intros Hfree. destruct p as [o e c m]. simpl in Hfree. subst m.
  rewrite bind_stop. unfold Lock at 1. cbn [counterMutex stdout stderr count].
  rewrite bind_stop, must_funcName.
  rewrite bind_stop, complexity_spec.
  unfold built. cbn [map concat stdout stderr count counterMutex length snd].
  rewrite !app_nil_r. reflexivity.
Qed.

Lemma buildBasicBlocks_spec f bbs p :
  counterMutex p = false ->
  buildBasicBlocks f bbs p =
  (Ret (bbs ++ records (funcDecls f) (count p)), built (funcDecls f) p).
Proof.
  unfold buildBasicBlocks, funcDecls.
  generalize (ast.File.Name f) as pkg. intros pkg.
  revert bbs p. induction (ast.File.Decls f) as [|decl decls IH]; intros bbs p Hfree.
  - simpl. rewrite app_nil_r, built_nil. reflexivity.
  - cbn [forRange]. rewrite bind_stop. destruct decl as [fn|d|].
    + rewrite build_one by exact Hfree.
      rewrite IH by (simpl; exact Hfree).
      cbn [omap list_omap]. set (ds := omap _ decls).
      rewrite (built_cons _ ds). cbn [records].
      rewrite <- app_assoc. reflexivity.
    + simpl. apply IH, Hfree.
    + simpl. apply IH, Hfree.
Qed.

(** With the mutex held elsewhere the builder gets no id: its first
    function declaration waits in [Lock] for ever. *)
Lemma buildBasicBlocks_held f bbs p :
  counterMutex p = true ->
  funcDecls f <> [] ->
  buildBasicBlocks f bbs p = (Crash, p).
Proof.
  unfold buildBasicBlocks, funcDecls.
  generalize (ast.File.Name f) as pkg. intros pkg Hheld.
  revert bbs. induction (ast.File.Decls f) as [|decl decls IH]; intros bbs Hne.
  - contradiction.
  - cbn [forRange]. rewrite bind_stop. destruct decl as [fn|d|].
    + rewrite bind_stop. unfold Lock. rewrite Hheld. reflexivity.
    + apply IH. exact Hne.
    + apply IH. exact Hne.
Qed.

(** ** Discovery of the files *)

Lemma analyzeDir_walked env dirname bbs p :
  analyzeDir env dirname bbs p =
  forRange (walked (walk_entries env dirname))
    (fun bbs path => analyzeFile env path bbs) bbs p.
Proof.
  unfold analyzeDir. generalize (walk_entries env dirname) as entries.
  intros entries. revert bbs p.
  induction entries as [|[path info|path err] rest IH]; intros bbs p.
  - reflexivity.
  - cbn [filepath_Walk walked walkFn].
    destruct (negb (IsDir info) && HasSuffix path ".go").
    + cbn [app forRange]. rewrite !bind_stop.
      destruct (analyzeFile env path bbs p) as [[bbs'| |] p']; try reflexivity.
      apply IH.
    + apply IH.
  - reflexivity.
Qed.

Lemma analyze_sources_from env paths bbs p :
  forRange paths
    (fun BasicBlocks path =>
       if isDir env path
       then analyzeDir env path BasicBlocks
       else analyzeFile env path BasicBlocks) bbs p =
  forRange (sources env paths)
    (fun bbs path => analyzeFile env path bbs) bbs p.
Proof.
  unfold sources. revert bbs p.
  induction paths as [|path paths IH]; intros bbs p; [reflexivity|].
  cbn [map concat forRange]. rewrite forRange_app, !bind_stop.
  destruct (isDir env path).
  - rewrite analyzeDir_walked.
    destruct (forRange _ _ bbs p) as [[bbs'| |] p']; try reflexivity. apply IH.
  - cbn [forRange]. rewrite !bind_stop.
    destruct (analyzeFile env path bbs p) as [[bbs'| |] p']; try reflexivity.
    apply IH.
Qed.

Lemma count_built ds p :
  count (built ds p) = Nat.iter (length ds) int.incr (count p).
Proof. reflexivity. Qed.

(** Analysing a sequence of files: every record if all of them parse, and
    otherwise [log.Fatal] at the first file that does not. *)
Lemma analyze_files env files bbs p :
  counterMutex p = false ->
  forRange files (fun bbs path => analyzeFile env path bbs) bbs p =
  match parse_all env files with
  | inl fs =>
      (Ret (bbs ++ records (allFuncDecls fs) (count p)), built (allFuncDecls fs) p)
  | inr (fs, err) =>
      (Exit 1, eemit [LogFatal err] (built (allFuncDecls fs) p))
  end.
Proof.
  revert bbs p. induction files as [|fname files IH]; intros bbs p Hfree.
  - simpl. rewrite app_nil_r, built_nil. reflexivity.
  - cbn [forRange parse_all]. rewrite bind_stop. unfold analyzeFile at 1.
    destruct (parser_ParseFile env fname) as [f|err].
    + rewrite buildBasicBlocks_spec by exact Hfree.
      rewrite IH by exact Hfree.
      destruct (parse_all env files) as [fs|[fs err]];
        unfold allFuncDecls; cbn [map concat].
      * rewrite records_app, built_app, count_built, app_assoc. reflexivity.
      * rewrite built_app. reflexivity.
    + unfold allFuncDecls. cbn [map concat]. rewrite built_nil. reflexivity.
Qed.

Lemma analyze_spec env paths p :
  counterMutex p = false ->
  analyze env paths p =
  match parse_all env (sources env paths) with
  | inl fs =>
      (Ret (records (allFuncDecls fs) (count p)), built (allFuncDecls fs) p)
  | inr (fs, err) =>
      (Exit 1, eemit [LogFatal err] (built (allFuncDecls fs) p))
  end.
Proof.
  intros Hfree. unfold analyze.
  rewrite analyze_sources_from, analyze_files by exact Hfree. reflexivity.
Qed.

(** Identities counting up from [id] without overflow. *)
Lemma records_zip ds id :
  int.min <= id -> id + len ds - 1 <= int.max ->
  records ds id = zip_with record ds (seqZ id (len ds)).
Proof.
  revert id. induction ds as [|d ds IH]; intros id Hmin Hmax; [reflexivity|].
  unfold len in *. rewrite length_cons, Nat2Z.inj_succ in *.
  rewrite seqZ_cons by lia. cbn [records zip_with]. f_equal.
  destruct ds as [|d' ds]; [reflexivity|].
  rewrite length_cons, Nat2Z.inj_succ in *.
  assert (Hincr : int.incr id = id + 1).
  { unfold int.incr, int.add. apply int_wrap_small.
    unfold int.min, int.max in *. lia. }
  rewrite Hincr, IH by lia. f_equal. f_equal; lia.
Qed.

Lemma ID_zip_record ds ids :
  length ds = length ids -> map ID (zip_with record ds ids) = ids.
Proof.
  revert ids. induction ds as [|d ds IH]; intros [|i ids] Hlen;
    try discriminate; [reflexivity|].
  simpl. f_equal. apply IH. simpl in Hlen. lia.
Qed.

(** C5. In a run whose files all parse and that finds N function
    declarations (N within Go's [int]), the records come out in the order
    the files are read and, within a file, in declaration order; their ids
    are exactly 1, ..., N in creation order, so without duplicate or gap;
    each id is read and the counter incremented between [Lock] and
    [Unlock] (a builder that finds the mutex held gets no id), and the run
    leaves the mutex free and the counter at N + 1. *)
Theorem ids_one_to_N (env : Env) (paths : list string) (fs : list ast.File.t) :
  parse_all env (sources env paths) = inl fs ->
  len (allFuncDecls fs) < int.max ->
  let N := len (allFuncDecls fs) in
  (exists bbs p',
     analyze env paths start = (Ret bbs, p')
     /\ bbs = zip_with record (allFuncDecls fs) (seqZ 1 N)
     /\ map ID bbs = seqZ 1 N
     /\ NoDup (map ID bbs)
     /\ counterMutex p' = false
     /\ count p' = N + 1)
  /\ (forall f bbs p,
        counterMutex p = true -> funcDecls f <> [] ->
        buildBasicBlocks f bbs p = (Crash, p)).
Proof.
  intros Hparse Hmax N. split; [|apply buildBasicBlocks_held].
  rewrite analyze_spec, Hparse by reflexivity.
  eexists _, _. split; [reflexivity|].
  assert (Hrec : records (allFuncDecls fs) (count start)
                 = zip_with record (allFuncDecls fs) (seqZ 1 N)).
  { apply records_zip; unfold int.min, int.max in *; simpl; lia. }
  rewrite Hrec. split; [reflexivity|].
  assert (Hids : map ID (zip_with record (allFuncDecls fs) (seqZ 1 N)) = seqZ 1 N).
  { apply ID_zip_record. rewrite length_seqZ. unfold N, len. lia. }
  rewrite Hids. split; [reflexivity|]. split; [apply NoDup_seqZ|].
  split; [reflexivity|].
  rewrite count_built. cbn [count start].
  rewrite int_incr_iter by (unfold int.min, int.max; lia).
  rewrite int_wrap_small; unfold N, len, int.min, int.max in *; lia.
Qed.

Lemma emit_cons o outs p :
  emit outs {| stdout := stdout p ++ [o]; stderr := stderr p;
               count := count p; counterMutex := counterMutex p |}
  = emit (o :: outs) p.
Proof. unfold emit. simpl. rewrite <- app_assoc. reflexivity. Qed.

(** ** The report writer *)

Lemma above_prefix over l :
  exists rest, l = above over l ++ rest
    /\ match rest with
       | [] => True
       | next :: _ => Complexity next <= over
       end.
Proof.
  induction l as [|b l (rest & Hl & Hnext)].
  - exists []. split; [reflexivity|exact I].
  - simpl. destruct (over <? Complexity b) eqn:Hb.
    + exists rest. split; [simpl; f_equal; exact Hl|exact Hnext].
    + exists (b :: l). split; [reflexivity|]. apply Z.ltb_ge in Hb. exact Hb.
Qed.

Lemma above_Forall over l : Forall (fun b => over < Complexity b) (above over l).
Proof.
  induction l as [|b l IH]; simpl; [constructor|].
  destruct (over <? Complexity b) eqn:Hb; constructor; [|exact IH].
  apply Z.ltb_lt, Hb.
Qed.

Lemma step_result {A} (b : A) (out l : list A) (i : Z) :
  (if (length (b :: out) <? length (b :: l))%nat
   then Some (i + len (b :: out)) else None)
  = (if (length out <? length l)%nat then Some (i + 1 + len out) else None).
Proof.
  unfold len. cbn [length]. unfold Nat.ltb. cbn [Nat.leb].
  replace (i + Z.of_nat (S (length out))) with (i + 1 + Z.of_nat (length out))
    by lia.
  reflexivity.
Qed.

Lemma writeLoop_spec flags l : forall i p,
  0 <= i -> i <= top flags \/ top flags < 0 ->
  writeLoop flags i l p =
  let out := (if top flags <? 0 then above (over flags) l
              else take (Z.to_nat (top flags - i)) (above (over flags) l)) in
  (Ret (if (length out <? length l)%nat then Some (i + len out) else None),
   emit (map PrintBlock out) p).
Proof.
  induction l as [|b l IH]; intros i p Hi Htop; cbv zeta.
  - cbn [writeLoop above]. rewrite take_nil.
    destruct (top flags <? 0); simpl; rewrite emit_nil; reflexivity.
  - cbn [writeLoop above].
    destruct (i =? top flags) eqn:Heq.
    { apply Z.eqb_eq in Heq.
      destruct (top flags <? 0) eqn:Hneg; [apply Z.ltb_lt in Hneg; lia|].
      replace (top flags - i) with 0 by lia. simpl.
      rewrite emit_nil, Z.add_0_r. reflexivity. }
    apply Z.eqb_neq in Heq.
    destruct (Complexity b <=? over flags) eqn:Hle.
    { apply Z.leb_le in Hle.
      replace (over flags <? Complexity b) with false
        by (symmetry; apply Z.ltb_ge; lia).
      rewrite take_nil.
      destruct (top flags <? 0); simpl; rewrite emit_nil, Z.add_0_r; reflexivity. }
    apply Z.leb_gt in Hle.
    replace (over flags <? Complexity b) with true
      by (symmetry; apply Z.ltb_lt; lia).
    rewrite bind_stop. unfold print at 1.
    rewrite IH by lia. cbv zeta.
    destruct (top flags <? 0) eqn:Hneg.
    + rewrite step_result, emit_cons. reflexivity.
    + apply Z.ltb_ge in Hneg.
      replace (Z.to_nat (top flags - i)) with (S (Z.to_nat (top flags - (i + 1))))
        by lia.
      cbn [take]. rewrite step_result, emit_cons. reflexivity.
Qed.

Lemma writeBasicBlocks_spec flags l p :
  writeBasicBlocks flags l p =
  (Ret (len (reported flags l)), emit (map PrintBlock (reported flags l)) p).
Proof.
  unfold writeBasicBlocks, reported, capped.
  rewrite bind_stop, writeLoop_spec by lia. cbv zeta.
  rewrite Z.sub_0_r, Z.add_0_l.
  set (out := if top flags <? 0 then above (over flags) l
              else take (Z.to_nat (top flags)) (above (over flags) l)).
  destruct (length out <? length l)%nat eqn:Hlt; [reflexivity|].
  unfold mret, IO_ret. f_equal. unfold len. f_equal.
  apply Nat.ltb_ge in Hlt.
  destruct (above_prefix (over flags) l) as (rest & Hl & _).
  assert (Hout : (length out <= length (above (over flags) l))%nat).
  { unfold out. destruct (top flags <? 0); [lia|]. rewrite length_take. lia. }
  rewrite Hl, length_app in Hlt. rewrite Hl at 1. rewrite length_app.
  assert (length rest = 0%nat) by lia.
  assert (length out = length (above (over flags) l)) by lia.
  lia.
Qed.

Lemma capped_prefix top l :
  exists rest, l = capped top l ++ rest
    /\ (rest = [] \/ len (capped top l) = top).
Proof.
  unfold capped. destruct (top <? 0) eqn:Hneg.
  - exists []. rewrite app_nil_r. auto.
  - apply Z.ltb_ge in Hneg. exists (drop (Z.to_nat top) l).
    rewrite take_drop. split; [reflexivity|].
    destruct (decide (Z.to_nat top <= length l)%nat) as [Hle|Hgt].
    + right. unfold len. rewrite length_take. lia.
    + left. apply drop_ge. lia.
Qed.

(** C3. [writeBasicBlocks] emits the records in order and stops at the
    first of: [top] records are out, or the next record's complexity is at
    most [over]; it returns the number of records emitted. So every
    emitted record has complexity above [over], and the number never
    exceeds [top] unless [top] is negative (the default, -1), which is no
    bound. *)
Theorem writeBasicBlocks_stops (flags : Flags) (sorted : list BasicBlock) (p : Proc) :
  let out := reported flags sorted in
  writeBasicBlocks flags sorted p = (Ret (len out), emit (map PrintBlock out) p)
  /\ (exists rest,
        sorted = out ++ rest
        /\ match rest with
           | [] => True
           | next :: _ => len out = top flags \/ Complexity next <= over flags
           end)
  /\ Forall (fun b => over flags < Complexity b) out
  /\ (top flags < 0 \/ len out <= top flags)
  /\ (top flags < 0 -> out = above (over flags) sorted).
Proof.
  cbv zeta. split; [apply writeBasicBlocks_spec|].
  unfold reported. split; [|split; [|split]].
  - destruct (above_prefix (over flags) sorted) as (rest1 & H1 & Hnext).
    destruct (capped_prefix (top flags) (above (over flags) sorted))
      as (rest2 & H2 & Hcap).
    exists (rest2 ++ rest1). split.
    + rewrite app_assoc, <- H2. exact H1.
    + destruct Hcap as [-> | Hcap].
      * simpl. destruct rest1; [exact I|right; exact Hnext].
      * destruct (rest2 ++ rest1); [exact I|left; exact Hcap].
  - unfold capped. destruct (top flags <? 0); [apply above_Forall|].
    apply Forall_take, above_Forall.
  - unfold capped. destruct (top flags <? 0) eqn:Hneg.
    + left. apply Z.ltb_lt, Hneg.
    + right. apply Z.ltb_ge in Hneg. unfold len. rewrite length_take. lia.
  - intros Hneg. unfold capped.
    apply Z.ltb_lt in Hneg. rewrite Hneg. reflexivity.
Qed.

(** ** The whole run *)

Lemma main_spec env flags sort_Sort args :
  main env flags sort_Sort args start =
  match args with
  | [] => (Exit 2, eemit [PrintUsage] start)
  | _ :: _ =>
      match parse_all env (sources env args) with
      | inr (fs, err) =>
          (Exit 1, eemit [LogFatal err] (built (allFuncDecls fs) start))
      | inl fs =>
          let all := sort_Sort (records (allFuncDecls fs) 1) in
          let out := reported flags all in
          let p1 := emit (map PrintBlock out) (built (allFuncDecls fs) start) in
          let p2 := if avg flags then emit [PrintAverage (average all)] p1 else p1 in
          (if (0 <? over flags) && (0 <? len out) then Exit 1 else Ret (), p2)
      end
  end.
Proof.
  unfold main. destruct args as [|a args]; [reflexivity|].
  rewrite bind_stop.
  replace (len (a :: args) =? 0) with false
    by (symmetry; apply Z.eqb_neq; unfold len; simpl; lia).
  unfold mret at 1, IO_ret at 1. rewrite bind_stop, analyze_spec by reflexivity.
  destruct (parse_all env (sources env (a :: args))) as [fs|[fs err]];
    [|reflexivity].
  cbv zeta. rewrite bind_stop, writeBasicBlocks_spec.
  rewrite bind_stop. unfold showAverage.
  destruct (avg flags); cbn [mret IO_ret print];
    destruct ((0 <? over flags) && (0 <? len _)); reflexivity.
Qed.

(** A run with arguments whose status is 0 or 1: the case is as stated
    and the status is not 2. *)
Ltac status_not_2 :=
  split; [reflexivity|]; split; [split; discriminate|].

(** C9, amended. The exit status is 2 exactly for the usage error (no
    path given); a file that does not parse ends the run at once through
    [log.Fatal], which prints the parser's error and exits with status 1,
    before any record is reported; otherwise the status is 1 when [over]
    is positive and at least one record was written, and 0 if not. *)
Theorem exit_status_of_run (env : Env) (flags : Flags)
    (sort_Sort : list BasicBlock -> list BasicBlock) (args : list string) :
  let r := main env flags sort_Sort args start in
  match args with
  | [] => r = (Exit 2, eemit [PrintUsage] start)
  | _ :: _ =>
      match parse_all env (sources env args) with
      | inr (fs, err) =>
          r = (Exit 1, eemit [LogFatal err] (built (allFuncDecls fs) start))
      | inl fs =>
          let written :=
            len (reported flags (sort_Sort (records (allFuncDecls fs) 1))) in
          exit_status r.1 = if (0 <? over flags) && (0 <? written) then 1 else 0
      end
  end
  /\ (exit_status r.1 = 2 <-> args = [])
  /\ (exit_status r.1 = 0 \/ exit_status r.1 = 1 \/ exit_status r.1 = 2).
Proof.
  cbv zeta. rewrite main_spec.
  destruct args as [|a args].
  { split; [reflexivity|]. split; [split; reflexivity|]. right; right; reflexivity. }
  destruct (parse_all env (sources env (a :: args))) as [fs|[fs err]].
  - cbv zeta.
    destruct ((0 <? over flags) && (0 <? len _)); cbn [fst exit_status].
    + status_not_2; right; left; reflexivity.
    + status_not_2; left; reflexivity.
  - cbn [fst exit_status]. status_not_2; right; left; reflexivity.
Qed.

(** ** The average *)

Lemma sumComplexity_perm l l' : l ≡ₚ l' -> sumComplexity l = sumComplexity l'.
Proof.
  unfold sumComplexity.
  induction 1 as [|b l l' _ IH|a b l|l l' l'' _ IH1 _ IH2]; simpl; lia.
Qed.

Lemma total_wrap l t :
  fold_left (fun total s => int.add total (Complexity s)) l (int.wrap t)
  = int.wrap (t + sumComplexity l).
Proof.
  revert t. induction l as [|b l IH]; intros t.
  - simpl. rewrite Z.add_0_r. reflexivity.
  - cbn [fold_left sumComplexity foldr]. unfold int.add at 2.
    rewrite int_wrap_add_l, IH.
    replace (t + Complexity b + sumComplexity l)
      with (t + (Complexity b + sumComplexity l)) by lia.
    reflexivity.
Qed.

Lemma average_quotient l :
  average l = PrimFloat.div (float64 (int.wrap (sumComplexity l))) (float64 (len l)).
Proof.
  unfold average. change 0 with (int.wrap 0) at 1. rewrite total_wrap.
  reflexivity.
Qed.

Lemma average_perm l l' : l ≡ₚ l' -> average l = average l'.
Proof.
  intros H. rewrite !average_quotient, (sumComplexity_perm l l' H).
  unfold len. rewrite (Permutation_length H). reflexivity.
Qed.

(** C4, amended. With [avg] set, the last line of a run that parses all
    its files is the average over all the records, sorted, not over the
    records the report shows: the quotient, in binary64, of the [int] sum
    of all complexities and the number of records, which the order of the
    records does not change. Nothing treats the empty case apart: with no
    record the quotient is 0/0 and a NaN is printed. *)
Theorem average_over_all_records (env : Env) (flags : Flags)
    (sort_Sort : list BasicBlock -> list BasicBlock)
    (args : list string) (fs : list ast.File.t) :
  args <> [] ->
  parse_all env (sources env args) = inl fs ->
  avg flags = true ->
  let all := sort_Sort (records (allFuncDecls fs) 1) in
  last (stdout (main env flags sort_Sort args start).2)
    = Some (PrintAverage (average all))
  /\ average all
     = PrimFloat.div (float64 (int.wrap (sumComplexity all))) (float64 (len all))
  /\ (forall l, l ≡ₚ all -> average l = average all)
  /\ (all = [] -> PrimFloat.is_nan (average all) = true).
Proof.
  intros Hargs Hparse Havg. cbv zeta. rewrite main_spec.
  destruct args as [|a args]; [congruence|].
  rewrite Hparse, Havg. cbv zeta. cbn [snd emit stdout].
  split; [apply last_snoc|]. split; [apply average_quotient|].
  split; [intros l Hl; apply average_perm, Hl|].
  intros ->. reflexivity.
Qed.

(** ** The sort *)

Lemma index_of_nat {A} (s : list A) (i : nat) : index s (Z.of_nat i) = s !! i.
Proof.
  unfold index. destruct (Z.of_nat i <? 0) eqn:H.
  - apply Z.ltb_lt in H. lia.
  - rewrite Nat2Z.id. reflexivity.
Qed.

Lemma Less_adjacent (pre : list BasicBlock) y x suf :
  sort.Less (pre ++ y :: x :: suf)
            (Z.of_nat (S (length pre))) (Z.of_nat (length pre))
  = Some (Complexity y <=? Complexity x).
Proof.
  cbn [sort.Less byComplexity]. rewrite !index_of_nat.
  rewrite (list_lookup_middle pre (x :: suf) y (length pre) eq_refl).
  replace (pre ++ y :: x :: suf) with ((pre ++ [y]) ++ x :: suf)
    by (rewrite <- app_assoc; reflexivity).
  rewrite (list_lookup_middle (pre ++ [y]) suf x)
    by (rewrite length_app; simpl; lia).
  reflexivity.
Qed.

Lemma Swap_adjacent (pre : list BasicBlock) y x suf :
  sort.Swap (pre ++ y :: x :: suf)
            (Z.of_nat (S (length pre))) (Z.of_nat (length pre))
  = Some (pre ++ x :: y :: suf).
Proof.
  cbn [sort.Swap byComplexity]. rewrite !index_of_nat, !Nat2Z.id.
  rewrite (list_lookup_middle pre (x :: suf) y (length pre) eq_refl).
  replace (pre ++ y :: x :: suf) with ((pre ++ [y]) ++ x :: suf) at 1
    by (rewrite <- app_assoc; reflexivity).
  rewrite (list_lookup_middle (pre ++ [y]) suf x)
    by (rewrite length_app; simpl; lia).
  cbn [mbind option_bind]. f_equal.
  rewrite insert_app_r_alt by lia.
  replace (S (length pre) - length pre)%nat with 1%nat by lia.
  cbn [insert list_insert].
  rewrite insert_app_r_alt by lia.
  rewrite Nat.sub_diag. reflexivity.
Qed.

Lemma insertDown_prefix (rp : list BasicBlock) : forall pre x suf,
  pre = rev rp ->
  sort.insertDown (pre ++ x :: suf) 0 (length pre)
  = Some (rev (settle x rp) ++ suf).
Proof.
  induction rp as [|y rp IH]; intros pre x suf ->; [reflexivity|].
  cbn [rev settle]. rewrite length_app, Nat.add_1_r, <- app_assoc.
  cbn [app sort.insertDown].
  replace (0 <? S (length (rev rp)))%nat with true by reflexivity.
  rewrite Less_adjacent. cbn [mbind option_bind].
  destruct (Complexity y <=? Complexity x).
  - rewrite Swap_adjacent. cbn [mbind option_bind].
    rewrite (IH (rev rp) x (y :: suf) eq_refl).
    cbn [rev]. rewrite <- app_assoc. reflexivity.
  - cbn [rev]. rewrite <- !app_assoc. reflexivity.
Qed.

Lemma insertDown_settle (rp : list BasicBlock) x suf :
  sort.insertDown (rev rp ++ x :: suf) 0 (length rp)
  = Some (rev (settle x rp) ++ suf).
Proof.
  rewrite <- (length_rev rp). apply insertDown_prefix. reflexivity.
Qed.

Lemma insertFrom_settled (rest : list BasicBlock) : forall rp,
  sort.insertFrom (length rest) (rev rp ++ rest) 0 (length rp)
  = Some (rev (settled rp rest)).
Proof.
  induction rest as [|x rest IH]; intros rp.
  - simpl. rewrite app_nil_r. reflexivity.
  - cbn [length sort.insertFrom]. rewrite insertDown_settle.
    cbn [mbind option_bind].
    assert (Hlen : length (settle x rp) = S (length rp)).
    { clear. induction rp as [|y rp IH]; [reflexivity|].
      simpl. destruct (Complexity y <=? Complexity x); simpl; congruence. }
    rewrite <- Hlen. apply IH.
Qed.

(** On a slice of at most 12 records [sort.Sort] is one insertion sort:
    it leaves the reverse of the settled list. *)
Lemma Sort_settled (Next : Z -> Z) (l : list BasicBlock) :
  len l <= Z.of_nat sort.maxInsertion ->
  sort.SortWith Next l = Some (rev (settled [] l)).
Proof.
  intros Hlen. unfold sort.SortWith. cbn [sort.Len byComplexity]. cbv zeta.
  destruct l as [|x rest]; [reflexivity|].
  destruct (len (x :: rest) <=? 1) eqn:Hn.
  { destruct rest; [reflexivity|].
    apply Z.leb_le in Hn. unfold len in Hn. simpl length in Hn. lia. }
  unfold sort.pdqsort. cbn [sort.pdqsortLoop]. cbv zeta.
  unfold len in *. rewrite Nat2Z.id.
  replace (length (x :: rest) - 0 <=? sort.maxInsertion)%nat with true
    by (symmetry; apply Nat.leb_le; lia).
  unfold sort.insertionSort.
  cbn [length]. replace (S (length rest) - (0 + 1))%nat with (length rest) by lia.
  apply (insertFrom_settled rest [x]).
Qed.

Lemma settle_perm x rp : settle x rp ≡ₚ x :: rp.
Proof.
  induction rp as [|y rp IH]; [reflexivity|].
  simpl. destruct (Complexity y <=? Complexity x); [|reflexivity].
  rewrite IH. apply Permutation_swap.
Qed.

(** A new record with the highest id takes its place in key order. *)
Lemma settle_keyed x rp :
  Forall (fun y => ID y < ID x) rp ->
  StronglySorted (fun a b => before b a) rp ->
  StronglySorted (fun a b => before b a) (settle x rp).
Proof.
  induction rp as [|y rp IH]; intros Hid Hs.
  - repeat constructor.
  - apply Forall_cons in Hid as [Hidy Hid].
    apply StronglySorted_cons in Hs as [Hy Hs]. simpl.
    destruct (Complexity y <=? Complexity x) eqn:Hle.
    + apply Z.leb_le in Hle. apply StronglySorted_cons.
      split; [|apply IH; assumption].
      rewrite settle_perm. constructor; [|exact Hy].
      unfold before. lia.
    + apply Z.leb_gt in Hle. apply StronglySorted_cons. split.
      * constructor; [unfold before; lia|].
        eapply Forall_impl; [exact Hy|].
        intros z Hz. unfold before in *. lia.
      * apply StronglySorted_cons. split; assumption.
Qed.

Lemma settled_keyed l : forall rp,
  StronglySorted (fun a b => ID a < ID b) l ->
  Forall (fun y => Forall (fun x => ID y < ID x) l) rp ->
  StronglySorted (fun a b => before b a) rp ->
  StronglySorted (fun a b => before b a) (settled rp l).
Proof.
  induction l as [|x l IH]; intros rp Hl Hid Hs; [exact Hs|].
  cbn [settled foldl]. fold (settled (settle x rp) l).
  apply StronglySorted_cons in Hl as [Hx Hl].
  apply IH; [exact Hl| |].
  - rewrite settle_perm. constructor; [exact Hx|].
    eapply Forall_impl; [exact Hid|].
    intros y Hy. apply Forall_cons in Hy as [_ Hy]. exact Hy.
  - apply settle_keyed; [|exact Hs].
    eapply Forall_impl; [exact Hid|].
    intros y Hy. apply Forall_cons in Hy as [Hy _]. exact Hy.
Qed.

Lemma StronglySorted_rev {A} (R : A -> A -> Prop) (l : list A) :
  StronglySorted R l -> StronglySorted (fun a b => R b a) (rev l).
Proof.
  induction l as [|x l IH]; intros Hs; [constructor|].
  apply StronglySorted_cons in Hs as [Hx Hs]. cbn [rev].
  apply StronglySorted_app. split; [|split; [apply IH, Hs|repeat constructor]].
  intros a b Ha Hb. apply list_elem_of_singleton in Hb as ->.
  rewrite Forall_forall in Hx. apply Hx.
  apply list_elem_of_In, in_rev, list_elem_of_In. exact Ha.
Qed.

(** C2, as the claim states it, fails: two records of equal complexity
    leave the sort in the reverse of their discovery order. *)
Lemma Sort_reverses_tie :
  map ID tie = [1; 2]
  /\ map Complexity tie = [1; 1]
  /\ map ID <$> sort.Sort tie = Some [2; 1].
Proof. repeat split. Qed.

Lemma swap_perm {A} (s : list A) : forall i j a b,
  s !! i = Some a -> s !! j = Some b ->
  <[j := a]> (<[i := b]> s) ≡ₚ s.
Proof.
  assert (Hone : forall (s : list A) j a b,
             s !! j = Some b -> b :: <[j := a]> s ≡ₚ a :: s).
  { clear. induction s as [|x s IH]; intros [|j] a b Hb; try discriminate.
    - simpl in Hb. injection Hb as ->. simpl. apply Permutation_swap.
    - simpl in *. etransitivity; [apply Permutation_swap|].
      etransitivity; [apply Permutation_skip, (IH j a b Hb)|].
      apply Permutation_swap. }
  induction s as [|x s IH]; intros [|i] [|j] a b Ha Hb; try discriminate;
    simpl in *.
  - simplify_eq. reflexivity.
  - simplify_eq. apply Hone, Hb.
  - simplify_eq. rewrite (Hone s i b a Ha). reflexivity.
  - constructor. apply IH; assumption.
Qed.

(** * The library sort *)

Section SortLibrary.

Local Open Scope nat_scope.

Implicit Types l : list BasicBlock.

Lemma within_refl {A} (a b : nat) (l : list A) : within a b l l.
Proof.
  split; [reflexivity|]. split; [reflexivity|].
  intros k Hk. exists k. split; [exact Hk|reflexivity].
Qed.

Lemma within_trans {A} (a b : nat) (l1 l2 l3 : list A) :
  within a b l1 l2 -> within a b l2 l3 -> within a b l1 l3.
Proof.
  intros (Hp1 & Ho1 & Hi1) (Hp2 & Ho2 & Hi2).
  split; [etransitivity; eassumption|]. split.
  - intros k Hk. rewrite Ho2, Ho1 by exact Hk. reflexivity.
  - intros k Hk. destruct (Hi2 k Hk) as (k' & Hk' & E').
    destruct (Hi1 k' Hk') as (k'' & Hk'' & E'').
    exists k''. split; [exact Hk''|]. rewrite E'. exact E''.
Qed.

Lemma within_mono {A} (a b a' b' : nat) (l l' : list A) :
  a' <= a -> b <= b' -> within a b l l' -> within a' b' l l'.
Proof.
  intros Ha Hb (Hp & Ho & Hi). split; [exact Hp|]. split.
  - intros k Hk. apply Ho. lia.
  - intros k Hk. destruct (decide (a <= k < b)) as [Hin|Hout].
    + destruct (Hi k Hin) as (k' & Hk' & E). exists k'. split; [lia|exact E].
    + exists k. split; [exact Hk|]. apply Ho. lia.
Qed.

Lemma within_length {A} (a b : nat) (l l' : list A) :
  within a b l l' -> length l' = length l.
Proof. intros (Hp & _). apply Permutation_length, Hp. Qed.

Lemma exchange_length {A} (l : list A) i j :
  length (exchange l i j) = length l.
Proof.
  unfold exchange. destruct (l !! i), (l !! j); try reflexivity.
  rewrite !length_insert. reflexivity.
Qed.

Lemma exchange_lookup {A} (l : list A) i j k :
  i < length l -> j < length l ->
  exchange l i j !! k
  = if decide (k = j) then l !! i else if decide (k = i) then l !! j else l !! k.
Proof.
  intros Hi Hj. unfold exchange.
  destruct (lookup_lt_is_Some_2 l i Hi) as [x Hx].
  destruct (lookup_lt_is_Some_2 l j Hj) as [y Hy].
  rewrite Hx, Hy.
  destruct (decide (k = j)) as [->|Hkj].
  - rewrite list_lookup_insert_eq by (rewrite length_insert; exact Hj).
    reflexivity.
  - rewrite list_lookup_insert_ne by congruence.
    destruct (decide (k = i)) as [->|Hki].
    + rewrite list_lookup_insert_eq by exact Hi. reflexivity.
    + rewrite list_lookup_insert_ne by congruence. reflexivity.
Qed.

Lemma exchange_perm {A} (l : list A) i j : exchange l i j ≡ₚ l.
Proof.
  unfold exchange. destruct (l !! i) as [x|] eqn:Hx; [|reflexivity].
  destruct (l !! j) as [y|] eqn:Hy; [|reflexivity].
  apply swap_perm; assumption.
Qed.

Lemma exchange_within {A} (a b : nat) (l : list A) i j :
  a <= i < b -> a <= j < b -> b <= length l ->
  within a b l (exchange l i j).
Proof.
  intros Hi Hj Hb. split; [apply exchange_perm|]. split.
  - intros k Hk. rewrite exchange_lookup by lia.
    repeat destruct (decide _); try lia. reflexivity.
  - intros k Hk. rewrite exchange_lookup by lia.
    destruct (decide (k = j)); [exists i; split; [lia|reflexivity]|].
    destruct (decide (k = i)); [exists j; split; [lia|reflexivity]|].
    exists k. split; [lia|reflexivity].
Qed.

Lemma cx_exchange l i j k :
  i < length l -> j < length l ->
  cx (exchange l i j) k
  = if decide (k = j) then cx l i else if decide (k = i) then cx l j else cx l k.
Proof.
  intros Hi Hj. unfold cx. rewrite exchange_lookup by assumption.
  repeat destruct (decide _); reflexivity.
Qed.

Lemma less_at l i j :
  i < length l -> j < length l ->
  sort.Less l (Z.of_nat i) (Z.of_nat j) = Some (cx l j <=? cx l i)%Z.
Proof.
  intros Hi Hj. cbn [sort.Less byComplexity].
  rewrite !index_of_nat. unfold cx.
  destruct (lookup_lt_is_Some_2 l i Hi) as [x ->].
  destruct (lookup_lt_is_Some_2 l j Hj) as [y ->]. reflexivity.
Qed.

Lemma swap_at l i j :
  i < length l -> j < length l ->
  sort.Swap l (Z.of_nat i) (Z.of_nat j) = Some (exchange l i j).
Proof.
  intros Hi Hj. unfold exchange. cbn [sort.Swap byComplexity].
  rewrite !index_of_nat, !Nat2Z.id.
  destruct (lookup_lt_is_Some_2 l i Hi) as [x ->].
  destruct (lookup_lt_is_Some_2 l j Hj) as [y ->]. reflexivity.
Qed.

Lemma within_cx_out (a b : nat) l l' k :
  within a b l l' -> k < a \/ b <= k -> cx l' k = cx l k.
Proof. intros (_ & Ho & _) Hk. unfold cx. rewrite Ho by exact Hk. reflexivity. Qed.

Lemma within_cx_in (a b : nat) l l' k :
  within a b l l' -> a <= k < b ->
  exists k', a <= k' < b /\ cx l' k = cx l k'.
Proof.
  intros (_ & _ & Hi) Hk. destruct (Hi k Hk) as (k' & Hk' & E).
  exists k'. split; [exact Hk'|]. unfold cx. rewrite E. reflexivity.
Qed.

Lemma less_at' l i j :
  i < length l -> j < length l ->
  sort.less l i j = Some (cx l j <=? cx l i)%Z.
Proof. apply less_at. Qed.

Lemma swap_at' l i j :
  i < length l -> j < length l ->
  sort.swap l i j = Some (exchange l i j).
Proof. apply swap_at. Qed.

(** ** Insertion sort on a range *)

(** The element at [j] goes down to its place in the descending range
    [[a, j)]; the loop may be bounded lower than [a] when the record
    before [a] keeps it from going further. *)
Lemma insertDown_range (lo a : nat) : forall j l,
  lo <= a -> a <= j -> j < length l ->
  descending a j l ->
  a = lo \/ (0 < a /\ (cx l j < cx l (a - 1))%Z) ->
  exists l', sort.insertDown l lo j = Some l'
             /\ within a (j + 1) l l' /\ descending a (j + 1) l'.
Proof.
  induction j as [|j IH]; intros l Hlo Ha Hj Hd Hf.
  - exists l. split; [reflexivity|]. split; [apply within_refl|].
    intros i k. lia.
  - cbn [sort.insertDown].
    assert (Hone : descending a (S j + 1) l
                   -> exists l', Some l = Some l'
                        /\ within a (S j + 1) l l' /\ descending a (S j + 1) l').
    { intros Hd'. exists l. split; [reflexivity|].
      split; [apply within_refl|exact Hd']. }
    destruct (lo <? S j) eqn:Hlt;
      [apply Nat.ltb_lt in Hlt|apply Nat.ltb_ge in Hlt].
    2:{ apply Hone. intros i k. lia. }
    rewrite less_at by lia. cbn [mbind option_bind].
    destruct (cx l j <=? cx l (S j))%Z eqn:Hle;
      [apply Z.leb_le in Hle|apply Z.leb_gt in Hle].
    2:{ apply Hone. intros i k Hi Hik Hk.
        destruct (decide (k = S j)) as [->|Hne]; [|apply Hd; lia].
        destruct (decide (i = j)) as [->|Hij]; [lia|].
        assert (cx l j <= cx l i)%Z by (apply Hd; lia). lia. }
    destruct (decide (a = S j)) as [->|Hne].
    { exfalso. destruct Hf as [Hf|[_ Hf]]; [lia|].
      assert (E : S j - 1 = j) by lia. rewrite E in Hf. lia. }
    rewrite swap_at by lia. cbn [mbind option_bind].
    destruct (IH (exchange l (S j) j)) as (l' & Hrun & Hw & Hd').
    + exact Hlo.
    + lia.
    + rewrite exchange_length. lia.
    + intros i k Hi Hik Hk. rewrite !cx_exchange by lia.
      repeat destruct (decide _); try lia. apply Hd; lia.
    + destruct Hf as [Hf|[Hpos Hf]]; [left; exact Hf|right].
      split; [exact Hpos|]. rewrite !cx_exchange by lia.
      repeat destruct (decide _); try lia.
    + exists l'. split; [exact Hrun|]. split.
      * apply (within_trans _ _ _ (exchange l (S j) j)).
        -- apply exchange_within; lia.
        -- apply (within_mono a (j + 1)); [lia|lia|exact Hw].
      * intros i k Hi Hik Hk.
        destruct (decide (k = S j)) as [->|Hks]; [|apply Hd'; lia].
        rewrite (within_cx_out a (j + 1) _ l' (S j) Hw) by lia.
        destruct (within_cx_in a (j + 1) _ l' i Hw) as (i' & Hi' & ->); [lia|].
        rewrite !cx_exchange by lia.
        repeat destruct (decide _); try lia.
        assert (cx l j <= cx l i')%Z by (apply Hd; lia). lia.
Qed.

Lemma insertFrom_range (a : nat) : forall n i l,
  a < i -> i + n <= length l ->
  descending a i l ->
  exists l', sort.insertFrom n l a i = Some l'
             /\ within a (i + n) l l' /\ descending a (i + n) l'.
Proof.
  induction n as [|n IH]; intros i l Hi Hn Hd.
  - exists l. split; [reflexivity|]. rewrite Nat.add_0_r.
    split; [apply within_refl|exact Hd].
  - cbn [sort.insertFrom].
    destruct (insertDown_range a a i l) as (l1 & -> & Hw1 & Hd1);
      [lia|lia|lia|exact Hd|left; reflexivity|].
    cbn [mbind option_bind].
    destruct (IH (S i) l1) as (l2 & -> & Hw2 & Hd2).
    + lia.
    + rewrite (within_length _ _ _ _ Hw1). lia.
    + replace (S i) with (i + 1) by lia. exact Hd1.
    + exists l2. split; [reflexivity|].
      replace (i + S n) with (S i + n) by lia. split; [|exact Hd2].
      apply (within_trans _ _ _ l1); [|exact Hw2].
      apply (within_mono a (i + 1)); [lia|lia|exact Hw1].
Qed.

Lemma insertionSort_range (a b : nat) l :
  a <= b -> b <= length l ->
  exists l', sort.insertionSort l a b = Some l'
             /\ within a b l l' /\ descending a b l'.
Proof.
  intros Hab Hb. unfold sort.insertionSort.
  destruct (decide (a = b)) as [->|Hne].
  - replace (b - (b + 1)) with 0 by lia. exists l. split; [reflexivity|].
    split; [apply within_refl|]. intros i k. lia.
  - destruct (insertFrom_range a (b - (a + 1)) (a + 1) l) as (l' & Hrun & Hw & Hd).
    + lia.
    + lia.
    + intros i k. lia.
    + replace (a + 1 + (b - (a + 1))) with b in * by lia.
      exists l'. split; [exact Hrun|]. split; assumption.
Qed.

(** ** Partition *)

Lemma skipLess_spec (a j : nat) l : forall fuel i,
  S j - i < fuel -> a < length l -> j < length l ->
  exists i', sort.skipLess fuel l a i j = Some i'
             /\ i <= i' /\ (i <= j + 1 -> i' <= j + 1)
             /\ (forall k, i <= k < i' -> (cx l a <= cx l k)%Z)
             /\ (i' <= j -> (cx l i' < cx l a)%Z).
Proof.
  induction fuel as [|fuel IH]; intros i Hf Ha Hj; [lia|].
  cbn [sort.skipLess].
  destruct (i <=? j) eqn:Hij; [apply Nat.leb_le in Hij|apply Nat.leb_gt in Hij].
  2:{ exists i. split; [reflexivity|]. repeat split; try lia. }
  rewrite less_at' by lia. cbn [mbind option_bind].
  destruct (cx l a <=? cx l i)%Z eqn:Hle;
    [apply Z.leb_le in Hle|apply Z.leb_gt in Hle].
  2:{ exists i. split; [reflexivity|]. repeat split; try lia. }
  destruct (IH (S i)) as (i' & -> & H1 & H2 & H3 & H4); [lia|lia|lia|].
  exists i'. split; [reflexivity|]. repeat split; try lia.
  intros k Hk. destruct (decide (k = i)) as [->|Hne]; [exact Hle|apply H3; lia].
Qed.

Lemma skipNotLess_spec (a i : nat) l : forall fuel j,
  S j - i < fuel -> 0 < i -> a < length l -> j < length l ->
  exists j', sort.skipNotLess fuel l a i j = Some j'
             /\ j' <= j /\ (i <= j + 1 -> i <= j' + 1)
             /\ (forall k, j' < k <= j -> (cx l k < cx l a)%Z)
             /\ (i <= j' -> (cx l a <= cx l j')%Z).
Proof.
  induction fuel as [|fuel IH]; intros j Hf Hi Ha Hj; [lia|].
  cbn [sort.skipNotLess].
  destruct (i <=? j) eqn:Hij; [apply Nat.leb_le in Hij|apply Nat.leb_gt in Hij].
  2:{ exists j. split; [reflexivity|]. repeat split; try lia. }
  rewrite less_at' by lia. cbn [mbind option_bind].
  destruct (cx l a <=? cx l j)%Z eqn:Hle;
    [apply Z.leb_le in Hle|apply Z.leb_gt in Hle].
  { exists j. split; [reflexivity|]. repeat split; try lia. }
  destruct (IH (j - 1)) as (j' & -> & H1 & H2 & H3 & H4); [lia|lia|lia|lia|].
  exists j'. split; [reflexivity|]. repeat split; try lia.
  intros k Hk. destruct (decide (k = j)) as [->|Hne]; [exact Hle|apply H3; lia].
Qed.

(** One round of the two scans. *)
Lemma partition_round (a b i j : nat) l :
  parted a b i j l ->
  exists i' j',
    sort.skipLess (S (S j - i)) l a i j = Some i'
    /\ sort.skipNotLess (S (S j - i')) l a i' j = Some j'
    /\ parted a b i' j' l /\ i <= i' /\ j' <= j
    /\ (i' <= j' -> (cx l i' < cx l a <= cx l j')%Z).
Proof.
  intros (Hai & Hij & Hjb & Hb & Hlow & Hhigh).
  destruct (skipLess_spec a j l (S (S j - i)) i) as (i' & E1 & H1 & H2 & H3 & H4);
    [lia|lia|lia|].
  destruct (skipNotLess_spec a i' l (S (S j - i')) j)
    as (j' & E2 & G1 & G2 & G3 & G4); [lia|lia|lia|lia|].
  exists i', j'. split; [exact E1|]. split; [exact E2|].
  split; [|split; [exact H1|split; [exact G1|]]].
  - repeat split; try lia.
    + intros k Hk. destruct (decide (k < i)); [apply Hlow; lia|apply H3; lia].
    + intros k Hk. destruct (decide (j < k)); [apply Hhigh; lia|apply G3; lia].
  - intros Hle. split; [apply H4; lia|apply G4; lia].
Qed.

(** The exchange of two misplaced records extends both sides. *)
Lemma parted_exchange (a b i j : nat) l :
  parted a b i j l -> i <= j -> (cx l i < cx l a <= cx l j)%Z ->
  parted a b (S i) (j - 1) (exchange l i j) /\ i < j.
Proof.
  intros (Hai & Hij & Hjb & Hb & Hlow & Hhigh) Hle Hc.
  assert (Hlt : i < j).
  { destruct (decide (i = j)) as [->|]; [lia|lia]. }
  split; [|exact Hlt].
  repeat split; try lia.
  - rewrite exchange_length. exact Hb.
  - intros k Hk. rewrite !cx_exchange by lia.
    repeat destruct (decide _); try lia. apply Hlow. lia.
  - intros k Hk. rewrite !cx_exchange by lia.
    repeat destruct (decide _); try lia. apply Hhigh. lia.
Qed.

Lemma partitionLoop_spec (a b : nat) : forall fuel i j l,
  S j - i < fuel -> parted a b i j l ->
  exists l' j',
    sort.partitionLoop fuel l a i j = Some (l', j')
    /\ within (a + 1) b l l'
    /\ parted a b (j' + 1) j' l'.
Proof.
  induction fuel as [|fuel IH]; intros i j l Hf Hp; [lia|].
  cbn [sort.partitionLoop].
  destruct (partition_round a b i j l Hp) as (i' & j' & -> & Hj' & Hp' & Hi & Hj & Hc).
  cbn [mbind option_bind].
  rewrite Hj'. cbn [mbind option_bind].
  destruct (j' <? i') eqn:Hlt; [apply Nat.ltb_lt in Hlt|apply Nat.ltb_ge in Hlt].
  - exists l, j'. split; [reflexivity|]. split; [apply within_refl|].
    destruct Hp' as (H1 & H2 & H3 & H4 & H5 & H6).
    replace (j' + 1) with i' by lia. repeat split; try lia; assumption.
  - destruct (parted_exchange a b i' j' l Hp' Hlt (Hc Hlt)) as [Hp'' Hlt'].
    destruct Hp' as (H1 & H2 & H3 & H4 & _).
    rewrite swap_at' by lia. cbn [mbind option_bind].
    destruct (IH (S i') (j' - 1) (exchange l i' j')) as (l' & m & -> & Hw & Hm);
      [lia|exact Hp''|].
    exists l', m. split; [reflexivity|]. split; [|exact Hm].
    apply (within_trans _ _ _ (exchange l i' j')); [|exact Hw].
    apply exchange_within; lia.
Qed.

(** The pivot goes between the two sides. *)
Lemma parted_divided (a b m : nat) l :
  parted a b (m + 1) m l ->
  sort.swap l m a = Some (exchange l m a)
  /\ within a b l (exchange l m a)
  /\ divided a b m (exchange l m a).
Proof.
  intros (Ham & _ & Hmb & Hb & Hlow & Hhigh).
  split; [apply swap_at'; lia|].
  split; [apply exchange_within; lia|].
  split; [lia|]. split.
  - intros k Hk. rewrite !cx_exchange by lia.
    repeat destruct (decide _); subst; try lia; apply Hlow; lia.
  - intros k Hk. rewrite !cx_exchange by lia.
    repeat destruct (decide _); subst; try lia; apply Hhigh; lia.
Qed.

Lemma partition_spec (a b pivot : nat) l :
  a < b -> b <= length l -> a <= pivot < b ->
  exists l' mid already,
    sort.partition l a b pivot = Some (l', mid, already)
    /\ within a b l l' /\ divided a b mid l'.
Proof.
  intros Hab Hb Hp. unfold sort.partition.
  rewrite swap_at' by lia. cbn [mbind option_bind].
  set (l1 := exchange l a pivot).
  assert (Hw1 : within a b l l1) by (apply exchange_within; lia).
  assert (Hp1 : parted a b (a + 1) (b - 1) l1).
  { repeat split; try lia.
    unfold l1. rewrite exchange_length. exact Hb. }
  destruct (partition_round a b (a + 1) (b - 1) l1 Hp1)
    as (i & j & -> & Hj & Hp2 & Hi & Hjb & Hc).
  cbn [mbind option_bind]. rewrite Hj. cbn [mbind option_bind].
  destruct (j <? i) eqn:Hlt; [apply Nat.ltb_lt in Hlt|apply Nat.ltb_ge in Hlt].
  - assert (Hp3 : parted a b (j + 1) j l1).
    { destruct Hp2 as (H1 & H2 & H3). replace (j + 1) with i by lia.
      repeat split; try lia; apply H3. }
    destruct (parted_divided a b j l1 Hp3) as (-> & Hw & Hd).
    cbn [mbind option_bind]. eexists _, _, _. split; [reflexivity|].
    split; [|exact Hd]. apply (within_trans _ _ _ l1); assumption.
  - destruct (parted_exchange a b i j l1 Hp2 Hlt (Hc Hlt)) as [Hp3 Hlt'].
    destruct Hp2 as (H1 & H2 & H3 & H4 & _).
    rewrite swap_at' by lia. cbn [mbind option_bind].
    destruct (partitionLoop_spec a b (b - a) (S i) (j - 1) (exchange l1 i j))
      as (l3 & m & -> & Hw3 & Hp4); [lia|exact Hp3|].
    cbn [mbind option_bind].
    destruct (parted_divided a b m l3 Hp4) as (-> & Hw & Hd).
    cbn [mbind option_bind]. eexists _, _, _. split; [reflexivity|].
    split; [|exact Hd].
    apply (within_trans _ _ _ l1); [exact Hw1|].
    apply (within_trans _ _ _ (exchange l1 i j)); [apply exchange_within; lia|].
    apply (within_trans _ _ _ l3); [|exact Hw].
    apply (within_mono (a + 1) b); [lia|lia|exact Hw3].
Qed.

(** ** Heap sort *)

Ltac exchanged :=
  rewrite ?cx_exchange by lia; repeat destruct (decide _); try lia.

Lemma siftDownLoop_spec (first hi lo : nat) : forall fuel root l,
  hi - root < fuel -> first + hi <= length l -> lo <= root ->
  (forall k, lo <= k -> k <> root -> heap_at first hi l k) ->
  (forall p c, lo <= p -> root = 2 * p + 1 \/ root = 2 * p + 2 ->
     c = 2 * root + 1 \/ c = 2 * root + 2 -> c < hi ->
     (cx l (first + p) <= cx l (first + c))%Z) ->
  exists l', sort.siftDownLoop fuel l root hi first = Some l'
             /\ within first (first + hi) l l' /\ heap first lo hi l'.
Proof.
  induction fuel as [|fuel IH]; intros root l Hf Hlen Hlo Hheap Hup; [lia|].
  cbn [sort.siftDownLoop]. cbv zeta.
  destruct (hi <=? 2 * root + 1) eqn:Hleaf;
    [apply Nat.leb_le in Hleaf|apply Nat.leb_gt in Hleaf].
  { exists l. split; [reflexivity|]. split; [apply within_refl|].
    intros k Hk. destruct (decide (k = root)) as [->|Hne]; [|apply Hheap; lia].
    intros c Hc. lia. }
  assert (Hchild : exists c,
    (right ← (if 2 * root + 1 + 1 <? hi
              then sort.less l (first + (2 * root + 1)) (first + (2 * root + 1) + 1)
              else Some false);
     Some (if right : bool then 2 * root + 1 + 1 else 2 * root + 1)) = Some c
    /\ (c = 2 * root + 1 \/ c = 2 * root + 2) /\ c < hi
    /\ forall c', c' = 2 * root + 1 \/ c' = 2 * root + 2 -> c' < hi ->
         (cx l (first + c) <= cx l (first + c'))%Z).
  { destruct (2 * root + 1 + 1 <? hi) eqn:Htwo;
      [apply Nat.ltb_lt in Htwo|apply Nat.ltb_ge in Htwo].
    - rewrite less_at' by lia. cbn [mbind option_bind].
      replace (first + (2 * root + 1) + 1) with (first + (2 * root + 2)) by lia.
      destruct (cx l (first + (2 * root + 2)) <=? cx l (first + (2 * root + 1)))%Z
        eqn:Hle; [apply Z.leb_le in Hle|apply Z.leb_gt in Hle].
      + exists (2 * root + 1 + 1). split; [reflexivity|].
        replace (2 * root + 1 + 1) with (2 * root + 2) by lia.
        split; [lia|]. split; [lia|]. intros c' [->| ->] _; lia.
      + exists (2 * root + 1). split; [reflexivity|].
        split; [lia|]. split; [lia|]. intros c' [->| ->] _; lia.
    - exists (2 * root + 1). split; [reflexivity|].
      split; [lia|]. split; [lia|]. intros c' [->| ->] Hc'; lia. }
  destruct Hchild as (c & Hrun & Hc & Hchi & Hmin).
  destruct (if 2 * root + 1 + 1 <? hi
            then sort.less l (first + (2 * root + 1)) (first + (2 * root + 1) + 1)
            else Some false) as [right|]; [|discriminate].
  cbn [mbind option_bind] in Hrun |- *.
  assert (Ec : (if right then 2 * root + 1 + 1 else 2 * root + 1) = c)
    by congruence.
  rewrite Ec. clear Hrun Ec right.
  rewrite less_at' by lia. cbn [mbind option_bind].
  destruct (cx l (first + c) <=? cx l (first + root))%Z eqn:Hle;
    [apply Z.leb_le in Hle|apply Z.leb_gt in Hle].
  2:{ exists l. split; [reflexivity|]. split; [apply within_refl|].
      intros k Hk. destruct (decide (k = root)) as [->|Hne]; [|apply Hheap; lia].
      intros c' Hc' Hlt. specialize (Hmin c' Hc' Hlt). lia. }
  rewrite swap_at' by lia. cbn [mbind option_bind].
  destruct (IH c (exchange l (first + root) (first + c))) as (l' & -> & Hw & Hh).
  - lia.
  - rewrite exchange_length. exact Hlen.
  - lia.
  - intros k Hk Hkc c' Hc' Hlt.
    destruct (decide (k = root)) as [->|Hkr].
    + specialize (Hmin c' Hc' Hlt). exchanged.
    + assert (Hk' := Hheap k Hk Hkr c' Hc' Hlt).
      destruct (decide (c' = root)) as [->|Hcr].
      * assert (Hp := Hup k c Hk Hc' Hc Hchi). exchanged.
      * exchanged.
  - intros p c' Hp Hpc Hc' Hlt.
    assert (p = root) as -> by lia.
    assert (Hk' := Hheap c ltac:(lia) ltac:(lia) c' Hc' Hlt).
    exchanged.
  - exists l'. split; [reflexivity|]. split; [|exact Hh].
    apply (within_trans _ _ _ (exchange l (first + root) (first + c))); [|exact Hw].
    apply exchange_within; lia.
Qed.

Lemma siftDown_spec (first hi lo : nat) l :
  first + hi <= length l ->
  (forall k, lo < k -> heap_at first hi l k) ->
  exists l', sort.siftDown l lo hi first = Some l'
             /\ within first (first + hi) l l' /\ heap first lo hi l'.
Proof.
  intros Hlen Hheap. unfold sort.siftDown.
  apply siftDownLoop_spec; [lia|exact Hlen|lia| |].
  - intros k Hk Hne. apply Hheap. lia.
  - intros p c Hp Hr. lia.
Qed.

Lemma buildHeap_spec (first hi : nat) : forall n l,
  first + hi <= length l -> heap first n hi l ->
  exists l', sort.buildHeap n l hi first = Some l'
             /\ within first (first + hi) l l' /\ heap first 0 hi l'.
Proof.
  induction n as [|i IH]; intros l Hlen Hh.
  - exists l. split; [reflexivity|]. split; [apply within_refl|exact Hh].
  - cbn [sort.buildHeap].
    destruct (siftDown_spec first hi i l Hlen) as (l1 & -> & Hw1 & Hh1).
    { intros k Hk. apply Hh. lia. }
    cbn [mbind option_bind].
    destruct (IH l1) as (l2 & -> & Hw2 & Hh2).
    + rewrite (within_length _ _ _ _ Hw1). exact Hlen.
    + exact Hh1.
    + exists l2. split; [reflexivity|]. split; [|exact Hh2].
      apply (within_trans _ _ _ l1); assumption.
Qed.

Lemma parent_of (k : nat) :
  0 < k -> exists p, p < k /\ (k = 2 * p + 1 \/ k = 2 * p + 2).
Proof.
  intros Hk. exists ((k - 1) / 2).
  pose proof (Nat.div_mod_eq (k - 1) 2) as E.
  pose proof (Nat.mod_upper_bound (k - 1) 2) as U. lia.
Qed.

(** The root of a heap is its least record. *)
Lemma heap_root (first hi : nat) l :
  heap first 0 hi l ->
  forall k, k < hi -> (cx l first <= cx l (first + k))%Z.
Proof.
  intros Hh k. induction k as [k IH] using lt_wf_ind. intros Hk.
  destruct (decide (k = 0)) as [->|Hne].
  - rewrite Nat.add_0_r. lia.
  - destruct (parent_of k) as (p & Hp & Hpk); [lia|].
    assert (H1 := IH p Hp ltac:(lia)).
    assert (H2 := Hh p ltac:(lia) k Hpk Hk). lia.
Qed.

Lemma popHeap_spec (first top : nat) : forall n l,
  n <= top -> first + top <= length l ->
  heap first 0 n l ->
  descending (first + n) (first + top) l ->
  (forall k p, k < n -> n <= p < top ->
     (cx l (first + p) <= cx l (first + k))%Z) ->
  exists l', sort.popHeap n l 0 first = Some l'
             /\ within first (first + top) l l'
             /\ descending first (first + top) l'.
Proof.
  induction n as [|i IH]; intros l Hn Hlen Hh Hd Hsep.
  - exists l. split; [reflexivity|]. split; [apply within_refl|].
    rewrite Nat.add_0_r in Hd. exact Hd.
  - cbn [sort.popHeap]. rewrite swap_at' by lia. cbn [mbind option_bind].
    set (l1 := exchange l first (first + i)).
    assert (Hw1 : within first (first + top) l l1)
      by (apply exchange_within; lia).
    assert (Hroot := heap_root first (S i) l Hh).
    destruct (siftDown_spec first i 0 l1) as (l2 & -> & Hw2 & Hh2).
    { unfold l1. rewrite exchange_length. lia. }
    { intros k Hk c Hc Hlt. unfold l1.
      assert (Hk' := Hh k ltac:(lia) c Hc ltac:(lia)). exchanged. }
    cbn [mbind option_bind].
    assert (Hl2 : forall k, k < i ->
              exists k', k' <= i /\ cx l2 (first + k) = cx l1 (first + k')
                         /\ exists k'', k'' <= i /\ cx l1 (first + k') = cx l (first + k'')).
    { intros k Hk.
      destruct (within_cx_in first (first + i) l1 l2 (first + k) Hw2)
        as (q & Hq & Eq); [lia|].
      exists (q - first). replace (first + (q - first)) with q by lia.
      split; [lia|]. split; [exact Eq|]. unfold l1.
      destruct (decide (q = first)) as [->|Hqf].
      - exists i. split; [lia|]. exchanged.
      - exists (q - first). replace (first + (q - first)) with q by lia.
        split; [lia|]. exchanged. }
    assert (Htail : forall p, i <= p < top -> cx l2 (first + p)
                      = if decide (p = i) then cx l first else cx l (first + p)).
    { intros p Hp.
      rewrite (within_cx_out first (first + i) l1 l2 (first + p) Hw2) by lia.
      unfold l1. exchanged.
      all: subst; try lia; try (f_equal; lia). }
    destruct (IH l2) as (l3 & -> & Hw3 & Hd3).
    + lia.
    + rewrite (within_length _ _ _ _ Hw2). unfold l1.
      rewrite exchange_length. exact Hlen.
    + exact Hh2.
    + intros p q Hp Hpq Hq.
      replace p with (first + (p - first)) by lia.
      replace q with (first + (q - first)) by lia.
      rewrite !Htail by lia.
      destruct (decide (q - first = i)); [lia|].
      destruct (decide (p - first = i)).
      * assert (H0 := Hsep 0 (q - first) ltac:(lia) ltac:(lia)).
        rewrite Nat.add_0_r in H0. exact H0.
      * replace (first + (p - first)) with p by lia.
        replace (first + (q - first)) with q by lia. apply Hd; lia.
    + intros k p Hk Hp. rewrite Htail by lia.
      destruct (Hl2 k Hk) as (k' & Hk' & -> & k'' & Hk'' & ->).
      destruct (decide (p = i)).
      * apply Hroot. lia.
      * apply Hsep; lia.
    + exists l3. split; [reflexivity|]. split; [|exact Hd3].
      apply (within_trans _ _ _ l1); [exact Hw1|].
      apply (within_trans _ _ _ l2); [|exact Hw3].
      apply (within_mono first (first + i)); [lia|lia|exact Hw2].
Qed.

Lemma heapSort_range (a b : nat) l :
  a <= b -> b <= length l ->
  exists l', sort.heapSort l a b = Some l'
             /\ within a b l l' /\ descending a b l'.
Proof.
  intros Hab Hb. unfold sort.heapSort. cbv zeta.
  destruct (buildHeap_spec a (b - a) (S ((b - a - 1) / 2)) l)
    as (l1 & -> & Hw1 & Hh1).
  - lia.
  - intros k Hk c Hc Hlt.
    pose proof (Nat.div_mod_eq (b - a - 1) 2) as E.
    pose proof (Nat.mod_upper_bound (b - a - 1) 2) as U. lia.
  - cbn [mbind option_bind].
    replace (a + (b - a)) with b in Hw1 by lia.
    destruct (popHeap_spec a (b - a) (b - a) l1) as (l2 & -> & Hw2 & Hd2).
    + lia.
    + rewrite (within_length _ _ _ _ Hw1). lia.
    + exact Hh1.
    + intros i j. lia.
    + intros k p. lia.
    + replace (a + (b - a)) with b in * by lia.
      exists l2. split; [reflexivity|]. split; [|exact Hd2].
      apply (within_trans _ _ _ l1); assumption.
Qed.

(** ** The helpers of [pdqsort] *)

Lemma reverseLoop_spec (a b : nat) : forall fuel i j l,
  j - i < fuel -> a <= i -> j < b -> b <= length l ->
  exists l', sort.reverseLoop fuel l i j = Some l' /\ within a b l l'.
Proof.
  induction fuel as [|fuel IH]; intros i j l Hf Hi Hj Hb; [lia|].
  cbn [sort.reverseLoop].
  destruct (i <? j) eqn:Hij; [apply Nat.ltb_lt in Hij|apply Nat.ltb_ge in Hij].
  2:{ exists l. split; [reflexivity|apply within_refl]. }
  rewrite swap_at' by lia. cbn [mbind option_bind].
  destruct (IH (S i) (j - 1) (exchange l i j)) as (l' & -> & Hw);
    [lia|lia|lia|rewrite exchange_length; exact Hb|].
  exists l'. split; [reflexivity|].
  apply (within_trans _ _ _ (exchange l i j)); [|exact Hw].
  apply exchange_within; lia.
Qed.

Lemma reverseRange_spec (a b : nat) l :
  a < b -> b <= length l ->
  exists l', sort.reverseRange l a b = Some l' /\ within a b l l'.
Proof.
  intros Hab Hb. unfold sort.reverseRange.
  apply reverseLoop_spec; lia.
Qed.

(** The index [breakPatterns] draws is inside the range, whatever the
    generator gives. *)
Lemma other_in_range (length r : Z) :
  (0 < length)%Z ->
  let other := Z.land r (sort.nextPowerOfTwo length - 1) in
  (0 <= (if length <=? other then other - length else other) < length)%Z.
Proof.
  intros Hpos. unfold sort.nextPowerOfTwo, sort.bits_Len. cbv zeta.
  replace (length =? 0)%Z with false by (symmetry; apply Z.eqb_neq; lia).
  pose proof (Z.log2_nonneg length) as Hlog.
  pose proof (Z.log2_spec length Hpos) as [Hlo Hhi].
  rewrite Z.shiftl_1_l.
  replace (2 ^ (Z.log2 length + 1) - 1)%Z with (Z.ones (Z.log2 length + 1))
    by (rewrite Z.ones_equiv; lia).
  rewrite Z.land_ones by lia.
  pose proof (Z.mod_pos_bound r (2 ^ (Z.log2 length + 1))
                ltac:(apply Z.pow_pos_nonneg; lia)) as Hmod.
  replace (Z.succ (Z.log2 length)) with (Z.log2 length + 1)%Z in Hhi by lia.
  assert (Hdouble : (2 ^ (Z.log2 length + 1) = 2 * 2 ^ Z.log2 length)%Z).
  { rewrite Z.pow_add_r by lia. lia. }
  destruct (length <=? r mod 2 ^ (Z.log2 length + 1))%Z eqn:Hle;
    [apply Z.leb_le in Hle|apply Z.leb_gt in Hle]; lia.
Qed.

Section Generator.

Context (Next : Z -> Z).

Lemma breakPatternsLoop_spec (a b idx : nat) (modulus : Z) :
  modulus = sort.nextPowerOfTwo (Z.of_nat (b - a)) ->
  a < b ->
  forall n i l random,
    a <= idx - 1 + i -> idx - 1 + i + n <= b -> b <= length l ->
    exists l', sort.breakPatternsLoop Next n l a (b - a) idx i random modulus
               = Some l'
               /\ within a b l l'.
Proof.
  intros -> Hab. induction n as [|n IH]; intros i l random Hi Hn Hb.
  - exists l. split; [reflexivity|apply within_refl].
  - cbn [sort.breakPatternsLoop]. cbv zeta.
    pose proof (other_in_range (Z.of_nat (b - a)) (Next random) ltac:(lia))
      as Hother. cbv zeta in Hother.
    set (other := if (Z.of_nat (b - a) <=?
                        Z.land (Next random)
                          (sort.nextPowerOfTwo (Z.of_nat (b - a)) - 1))%Z
                  then _ else _) in *.
    replace (Z.of_nat a + other)%Z with (Z.of_nat (a + Z.to_nat other)) by lia.
    rewrite swap_at by lia. cbn [mbind option_bind].
    destruct (IH (S i) (exchange l (idx - 1 + i) (a + Z.to_nat other))
                (Next random)) as (l' & -> & Hw);
      [lia|lia|rewrite exchange_length; exact Hb|].
    exists l'. split; [reflexivity|].
    apply (within_trans _ _ _ (exchange l (idx - 1 + i) (a + Z.to_nat other)));
      [|exact Hw].
    apply exchange_within; lia.
Qed.

Lemma breakPatterns_spec (a b : nat) l :
  a <= b -> b <= length l ->
  exists l', sort.breakPatterns Next l a b = Some l' /\ within a b l l'.
Proof.
  intros Hab Hb. unfold sort.breakPatterns. cbv zeta.
  destruct (8 <=? b - a) eqn:Hlen;
    [apply Nat.leb_le in Hlen|apply Nat.leb_gt in Hlen].
  2:{ exists l. split; [reflexivity|apply within_refl]. }
  pose proof (Nat.div_mod_eq (b - a) 4) as E.
  pose proof (Nat.mod_upper_bound (b - a) 4) as U.
  apply breakPatternsLoop_spec; try reflexivity; try lia.
Qed.

End Generator.

Lemma order2_spec l (a b swaps : nat) :
  a < length l -> b < length l ->
  exists x y swaps',
    sort.order2 l a b swaps = Some (x, y, swaps')
    /\ (x = a /\ y = b \/ x = b /\ y = a).
Proof.
  intros Ha Hb. unfold sort.order2. rewrite less_at' by lia.
  cbn [mbind option_bind].
  destruct (cx l a <=? cx l b)%Z; eexists _, _, _; (split; [reflexivity|]); lia.
Qed.

Lemma median_spec l (a b c swaps : nat) :
  a < length l -> b < length l -> c < length l ->
  exists m swaps',
    sort.median l a b c swaps = Some (m, swaps')
    /\ (m = a \/ m = b \/ m = c).
Proof.
  intros Ha Hb Hc. unfold sort.median.
  destruct (order2_spec l a b swaps Ha Hb) as (x1 & y1 & s1 & -> & H1).
  cbn [mbind option_bind].
  destruct (order2_spec l y1 c s1) as (x2 & y2 & s2 & -> & H2); [lia|lia|].
  cbn [mbind option_bind].
  destruct (order2_spec l x1 x2 s2) as (x3 & y3 & s3 & -> & H3); [lia|lia|].
  cbn [mbind option_bind].
  eexists _, _. split; [reflexivity|]. lia.
Qed.

Lemma choosePivot_spec (a b : nat) l :
  8 <= b - a -> b <= length l ->
  exists pivot hint,
    sort.choosePivot l a b = Some (pivot, hint) /\ a <= pivot < b.
Proof.
  intros Hlen Hb. unfold sort.choosePivot. cbv zeta.
  pose proof (Nat.div_mod_eq (b - a) 4) as E.
  pose proof (Nat.mod_upper_bound (b - a) 4) as U.
  replace (8 <=? b - a) with true by (symmetry; apply Nat.leb_le; lia).
  set (q := (b - a) / 4) in *.
  assert (Hq : 2 <= q) by lia.
  destruct (sort.shortestNinther <=? b - a) eqn:Hnine.
  - unfold sort.medianAdjacent.
    destruct (median_spec l (a + q * 1 - 1) (a + q * 1) (a + q * 1 + 1) 0)
      as (i & s1 & -> & Hi); [lia|lia|lia|].
    cbn [mbind option_bind].
    destruct (median_spec l (a + q * 2 - 1) (a + q * 2) (a + q * 2 + 1) s1)
      as (j & s2 & -> & Hj); [lia|lia|lia|].
    cbn [mbind option_bind].
    destruct (median_spec l (a + q * 3 - 1) (a + q * 3) (a + q * 3 + 1) s2)
      as (k & s3 & -> & Hk); [lia|lia|lia|].
    cbn [mbind option_bind].
    destruct (median_spec l i j k s3) as (m & s4 & -> & Hm); [lia|lia|lia|].
    cbn [mbind option_bind]. eexists _, _. split; [reflexivity|]. lia.
  - cbn [mbind option_bind].
    destruct (median_spec l (a + q * 1) (a + q * 2) (a + q * 3) 0)
      as (m & s4 & -> & Hm); [lia|lia|lia|].
    cbn [mbind option_bind]. eexists _, _. split; [reflexivity|]. lia.
Qed.

(** ** Partial insertion sort *)

Lemma fenced_within (a b : nat) l l' :
  within a b l l' -> fenced a b l -> fenced a b l'.
Proof.
  intros Hw Hf k Ha Hk.
  rewrite (within_cx_out a b l l' (a - 1) Hw) by lia.
  destruct (within_cx_in a b l l' k Hw Hk) as (k' & Hk' & ->).
  apply Hf; assumption.
Qed.

Lemma fenced_mono (a b b' : nat) l :
  b' <= b -> fenced a b l -> fenced a b' l.
Proof. intros Hb Hf k Ha Hk. apply Hf; lia. Qed.

Lemma skipOrdered_spec (a b : nat) l : forall fuel i,
  b - i < fuel -> a < i -> i <= b -> b <= length l ->
  descending a i l ->
  exists i', sort.skipOrdered fuel l i b = Some i'
             /\ i <= i' <= b /\ descending a i' l.
Proof.
  induction fuel as [|fuel IH]; intros i Hf Hai Hib Hb Hd; [lia|].
  cbn [sort.skipOrdered].
  destruct (i <? b) eqn:Hlt; [apply Nat.ltb_lt in Hlt|apply Nat.ltb_ge in Hlt].
  2:{ exists i. split; [reflexivity|]. split; [lia|exact Hd]. }
  rewrite less_at' by lia. cbn [mbind option_bind].
  destruct (cx l (i - 1) <=? cx l i)%Z eqn:Hle;
    [apply Z.leb_le in Hle|apply Z.leb_gt in Hle].
  { exists i. split; [reflexivity|]. split; [lia|exact Hd]. }
  destruct (IH (S i)) as (i' & -> & Hi' & Hd'); [lia|lia|lia|exact Hb| |].
  - intros p q Hp Hpq Hq.
    destruct (decide (q = i)) as [->|Hne]; [|apply Hd; lia].
    destruct (decide (p = i - 1)) as [->|Hpi]; [lia|].
    assert (cx l (i - 1) <= cx l p)%Z by (apply Hd; lia). lia.
  - exists i'. split; [reflexivity|]. split; [lia|exact Hd'].
Qed.

Lemma shiftLeft_insertDown : forall j l,
  sort.shiftLeft l j = sort.insertDown l 0 j.
Proof.
  induction j as [|j IH]; intros l; [reflexivity|].
  cbn [sort.shiftLeft sort.insertDown].
  replace (0 <? S j) with true by reflexivity.
  unfold sort.less, sort.swap.
  destruct (sort.Less l (Z.of_nat (S j)) (Z.of_nat j)) as [[|]|]; try reflexivity.
  cbn [mbind option_bind].
  destruct (sort.Swap l (Z.of_nat (S j)) (Z.of_nat j)) as [l'|]; [|reflexivity].
  cbn [mbind option_bind]. apply IH.
Qed.

Lemma shiftRight_spec (i b : nat) : forall fuel j l,
  b - j < fuel -> i < j -> b <= length l ->
  exists l', sort.shiftRight fuel l j b = Some l' /\ within i b l l'.
Proof.
  induction fuel as [|fuel IH]; intros j l Hf Hij Hb; [lia|].
  cbn [sort.shiftRight].
  destruct (j <? b) eqn:Hlt; [apply Nat.ltb_lt in Hlt|apply Nat.ltb_ge in Hlt].
  2:{ exists l. split; [reflexivity|apply within_refl]. }
  rewrite less_at' by lia. cbn [mbind option_bind].
  destruct (cx l (j - 1) <=? cx l j)%Z.
  2:{ exists l. split; [reflexivity|apply within_refl]. }
  rewrite swap_at' by lia. cbn [mbind option_bind].
  destruct (IH (S j) (exchange l j (j - 1))) as (l' & -> & Hw);
    [lia|lia|rewrite exchange_length; exact Hb|].
  exists l'. split; [reflexivity|].
  apply (within_trans _ _ _ (exchange l j (j - 1))); [|exact Hw].
  apply exchange_within; lia.
Qed.

Lemma descending_out (a b a' b' : nat) l l' :
  within a' b' l l' -> b <= a' \/ b' <= a ->
  descending a b l -> descending a b l'.
Proof.
  intros Hw Hout Hd i j Hi Hij Hj.
  rewrite !(within_cx_out a' b' l l' _ Hw) by lia. apply Hd; lia.
Qed.

Lemma partialInsertionLoop_spec (a b : nat) : forall steps i l,
  a < i -> i <= b -> b <= length l ->
  descending a i l -> fenced a b l ->
  exists l' done,
    sort.partialInsertionLoop steps l a b i = Some (l', done)
    /\ within a b l l'
    /\ (done = true -> descending a b l').
Proof.
  induction steps as [|steps IH]; intros i l Hai Hib Hb Hd Hf.
  { exists l, false. split; [reflexivity|]. split; [apply within_refl|].
    discriminate. }
  cbn [sort.partialInsertionLoop].
  destruct (skipOrdered_spec a b l (S (b - i)) i) as (i' & -> & Hi' & Hd');
    [lia|lia|lia|exact Hb|exact Hd|].
  cbn [mbind option_bind].
  destruct (i' =? b) eqn:Hend; [apply Nat.eqb_eq in Hend|apply Nat.eqb_neq in Hend].
  { subst i'. exists l, true. split; [reflexivity|].
    split; [apply within_refl|]. intros _. exact Hd'. }
  destruct (b - a <? sort.shortestShifting).
  { exists l, false. split; [reflexivity|]. split; [apply within_refl|].
    discriminate. }
  rewrite swap_at' by lia. cbn [mbind option_bind].
  set (l1 := exchange l i' (i' - 1)).
  assert (Hw1 : within a b l l1) by (apply exchange_within; lia).
  assert (Hf1 : fenced a b l1) by (apply (fenced_within a b l); assumption).
  assert (Hlen1 : length l1 = length l) by apply exchange_length.
  assert (Hleft : exists l2,
            (if 2 <=? i' - a then sort.shiftLeft l1 (i' - 1) else Some l1) = Some l2
            /\ within a i' l1 l2 /\ descending a i' l2).
  { destruct (2 <=? i' - a) eqn:Htwo;
      [apply Nat.leb_le in Htwo|apply Nat.leb_gt in Htwo].
    - rewrite shiftLeft_insertDown.
      destruct (insertDown_range 0 a (i' - 1) l1) as (l2 & -> & Hw2 & Hd2).
      + lia.
      + lia.
      + lia.
      + intros p q Hp Hpq Hq. unfold l1. rewrite !cx_exchange by lia.
        repeat destruct (decide _); try lia. apply Hd'; lia.
      + destruct (decide (a = 0)) as [->|Hpos]; [left; reflexivity|right].
        split; [lia|]. apply Hf1; lia.
      + replace (i' - 1 + 1) with i' in * by lia.
        exists l2. split; [reflexivity|]. split; assumption.
    - exists l1. split; [reflexivity|]. split; [apply within_refl|].
      intros p q. lia. }
  destruct Hleft as (l2 & -> & Hw2 & Hd2). cbn [mbind option_bind].
  assert (Hlen2 : length l2 = length l)
    by (rewrite (within_length _ _ _ _ Hw2); exact Hlen1).
  assert (Hright : exists l3,
            (if 2 <=? b - i' then sort.shiftRight (b - i') l2 (i' + 1) b
             else Some l2) = Some l3
            /\ within i' b l2 l3).
  { destruct (2 <=? b - i').
    - apply shiftRight_spec; lia.
    - exists l2. split; [reflexivity|apply within_refl]. }
  destruct Hright as (l3 & -> & Hw3). cbn [mbind option_bind].
  assert (Hw : within a b l l3).
  { apply (within_trans _ _ _ l1); [exact Hw1|].
    apply (within_trans _ _ _ l2).
    - apply (within_mono a i'); [lia|lia|exact Hw2].
    - apply (within_mono i' b); [lia|lia|exact Hw3]. }
  destruct (IH i' l3) as (l4 & done & -> & Hw4 & Hdone).
  - lia.
  - lia.
  - rewrite (within_length _ _ _ _ Hw3). lia.
  - apply (descending_out a i' i' b l2); [exact Hw3|lia|exact Hd2].
  - apply (fenced_within a b l); assumption.
  - exists l4, done. split; [reflexivity|]. split; [|exact Hdone].
    apply (within_trans _ _ _ l3); assumption.
Qed.

Lemma partialInsertionSort_spec (a b : nat) l :
  a < b -> b <= length l -> fenced a b l ->
  exists l' done,
    sort.partialInsertionSort l a b = Some (l', done)
    /\ within a b l l'
    /\ (done = true -> descending a b l').
Proof.
  intros Hab Hb Hf. unfold sort.partialInsertionSort.
  apply partialInsertionLoop_spec; [lia|lia|exact Hb| |exact Hf].
  intros p q. lia.
Qed.

(** ** [pdqsort] *)

(** Two sorted sides of a divided range make a sorted range. *)
Lemma divided_descending (a b mid : nat) l l' :
  divided a b mid l ->
  cx l' mid = cx l mid ->
  (forall k, a <= k < mid -> exists k', a <= k' < mid /\ cx l' k = cx l k') ->
  (forall k, mid < k < b -> exists k', mid < k' < b /\ cx l' k = cx l k') ->
  descending a mid l' -> descending (mid + 1) b l' ->
  descending a b l'.
Proof.
  intros (Hmid & Hlow & Hhigh) Em Hl Hr Hdl Hdr i j Hi Hij Hj.
  destruct (decide (j < mid)) as [Hjm|Hjm]; [apply Hdl; lia|].
  destruct (decide (mid < i)) as [Him|Him]; [apply Hdr; lia|].
  assert (Hi' : (cx l mid <= cx l' i)%Z).
  { destruct (decide (i = mid)) as [->|Hne]; [lia|].
    destruct (Hl i) as (k' & Hk' & ->); [lia|]. apply Hlow. lia. }
  assert (Hj' : (cx l' j <= cx l mid)%Z).
  { destruct (decide (j = mid)) as [->|Hne]; [lia|].
    destruct (Hr j) as (k' & Hk' & ->); [lia|].
    assert (cx l k' < cx l mid)%Z by (apply Hhigh; lia). lia. }
  lia.
Qed.

(** The two recursive calls, in either order. *)
Lemma conquered (a b mid : nat) l l1 l2 :
  divided a b mid l ->
  within a mid l l1 /\ within (mid + 1) b l1 l2
  \/ within (mid + 1) b l l1 /\ within a mid l1 l2 ->
  descending a mid l2 -> descending (mid + 1) b l2 ->
  within a b l l2 /\ descending a b l2.
Proof.
  intros Hdiv Hw Hdl Hdr.
  assert (Hmid : a <= mid < b) by apply Hdiv.
  split.
  - destruct Hw as [[H1 H2]|[H1 H2]];
      (apply (within_trans _ _ _ l1);
       [eapply within_mono; [| |exact H1]; lia
       |eapply within_mono; [| |exact H2]; lia]).
  - apply (divided_descending a b mid l l2 Hdiv); [| | |exact Hdl|exact Hdr].
    + destruct Hw as [[H1 H2]|[H1 H2]].
      * rewrite (within_cx_out _ _ _ _ mid H2), (within_cx_out _ _ _ _ mid H1)
          by lia. reflexivity.
      * rewrite (within_cx_out _ _ _ _ mid H2), (within_cx_out _ _ _ _ mid H1)
          by lia. reflexivity.
    + intros k Hk. destruct Hw as [[H1 H2]|[H1 H2]].
      * rewrite (within_cx_out _ _ _ _ k H2) by lia.
        apply (within_cx_in a mid l l1 k H1 Hk).
      * destruct (within_cx_in a mid l1 l2 k H2 Hk) as (k' & Hk' & ->).
        exists k'. split; [exact Hk'|].
        apply (within_cx_out _ _ _ _ k' H1). lia.
    + intros k Hk. destruct Hw as [[H1 H2]|[H1 H2]].
      * destruct (within_cx_in (mid + 1) b l1 l2 k H2) as (k' & Hk' & ->); [lia|].
        exists k'. split; [lia|].
        apply (within_cx_out _ _ _ _ k' H1). lia.
      * rewrite (within_cx_out _ _ _ _ k H2) by lia.
        destruct (within_cx_in (mid + 1) b l l1 k H1) as (k' & Hk' & ->); [lia|].
        exists k'. split; [lia|reflexivity].
Qed.

Section Generator.

Context (Next : Z -> Z).

Lemma pdqsortLoop_spec : forall fuel a b limit wasBalanced wasPartitioned l,
  b - a < fuel -> a <= b -> b <= length l -> fenced a b l ->
  exists l',
    sort.pdqsortLoop Next fuel l a b limit wasBalanced wasPartitioned = Some l'
    /\ within a b l l' /\ descending a b l'.
Proof.
  induction fuel as [|fuel IH];
    intros a b limit wasBalanced wasPartitioned l Hfuel Hab Hb Hf; [lia|].
  cbn [sort.pdqsortLoop]. cbv zeta.
  destruct (b - a <=? sort.maxInsertion) eqn:Hshort;
    [apply insertionSort_range; assumption|apply Nat.leb_gt in Hshort].
  unfold sort.maxInsertion in Hshort.
  destruct (limit =? 0); [apply heapSort_range; assumption|].
  (* breakPatterns *)
  assert (Hbreak : exists l1 limit1,
            (if wasBalanced then Some (l, limit)
             else data ← sort.breakPatterns Next l a b; Some (data, limit - 1))
            = Some (l1, limit1) /\ within a b l l1).
  { destruct wasBalanced.
    - exists l, limit. split; [reflexivity|apply within_refl].
    - destruct (breakPatterns_spec Next a b l Hab Hb) as (l1 & -> & Hw1).
      exists l1, (limit - 1). split; [reflexivity|exact Hw1]. }
  destruct Hbreak as (l1 & limit1 & -> & Hw1). cbn [mbind option_bind].
  assert (Hb1 : b <= length l1) by (rewrite (within_length _ _ _ _ Hw1); exact Hb).
  (* choosePivot *)
  destruct (choosePivot_spec a b l1) as (pivot & hint & -> & Hpivot);
    [lia|exact Hb1|].
  cbn [mbind option_bind].
  assert (Hrev : exists l2 pivot2 hint2,
            match hint with
            | sort.decreasingHint =>
                data ← sort.reverseRange l1 a b;
                Some (data, b - 1 - (pivot - a), sort.increasingHint)
            | _ => Some (l1, pivot, hint)
            end = Some (l2, pivot2, hint2)
            /\ within a b l1 l2 /\ a <= pivot2 < b).
  { destruct hint.
    - exists l1, pivot, sort.unknownHint.
      split; [reflexivity|]. split; [apply within_refl|exact Hpivot].
    - exists l1, pivot, sort.increasingHint.
      split; [reflexivity|]. split; [apply within_refl|exact Hpivot].
    - destruct (reverseRange_spec a b l1) as (l2 & -> & Hw2); [lia|exact Hb1|].
      exists l2, (b - 1 - (pivot - a)), sort.increasingHint.
      split; [reflexivity|]. split; [exact Hw2|lia]. }
  destruct Hrev as (l2 & pivot2 & hint2 & -> & Hw2 & Hpivot2).
  cbn [mbind option_bind].
  assert (Hb2 : b <= length l2) by (rewrite (within_length _ _ _ _ Hw2); exact Hb1).
  assert (Hf2 : fenced a b l2).
  { apply (fenced_within a b l1); [exact Hw2|].
    apply (fenced_within a b l); assumption. }
  (* partialInsertionSort *)
  assert (Hpart : exists l3 done,
            match wasBalanced && wasPartitioned, hint2 with
            | true, sort.increasingHint => sort.partialInsertionSort l2 a b
            | _, _ => Some (l2, false)
            end = Some (l3, done)
            /\ within a b l2 l3 /\ (done = true -> descending a b l3)).
  { assert (Hno : exists l3 done,
              Some (l2, false) = Some (l3, done)
              /\ within a b l2 l3 /\ (done = true -> descending a b l3)).
    { exists l2, false. split; [reflexivity|]. split; [apply within_refl|].
      discriminate. }
    destruct (wasBalanced && wasPartitioned); [|destruct hint2; exact Hno].
    destruct hint2; try exact Hno.
    apply partialInsertionSort_spec; [lia|exact Hb2|exact Hf2]. }
  destruct Hpart as (l3 & done & -> & Hw3 & Hdone). cbn [mbind option_bind].
  assert (Hw03 : within a b l l3).
  { apply (within_trans _ _ _ l1); [exact Hw1|].
    apply (within_trans _ _ _ l2); assumption. }
  destruct done.
  { exists l3. split; [reflexivity|]. split; [exact Hw03|]. apply Hdone.
    reflexivity. }
  assert (Hb3 : b <= length l3) by (rewrite (within_length _ _ _ _ Hw3); exact Hb2).
  assert (Hf3 : fenced a b l3) by (apply (fenced_within a b l2); assumption).
  (* the record before the range is above the pivot *)
  assert (Hequal : (if 0 <? a
                    then before ← sort.less l3 (a - 1) pivot2; Some (negb before)
                    else Some false) = Some false).
  { destruct (0 <? a) eqn:Hpos; [apply Nat.ltb_lt in Hpos|reflexivity].
    rewrite less_at' by lia. cbn [mbind option_bind].
    assert (cx l3 pivot2 < cx l3 (a - 1))%Z by (apply Hf3; lia).
    replace (cx l3 pivot2 <=? cx l3 (a - 1))%Z with true
      by (symmetry; apply Z.leb_le; lia).
    reflexivity. }
  rewrite Hequal. cbn [mbind option_bind].
  (* partition *)
  destruct (partition_spec a b pivot2 l3) as (l4 & mid & already & -> & Hw4 & Hdiv);
    [lia|exact Hb3|exact Hpivot2|].
  cbn [mbind option_bind].
  assert (Hmid : a <= mid < b) by apply Hdiv.
  assert (Hb4 : b <= length l4) by (rewrite (within_length _ _ _ _ Hw4); exact Hb3).
  assert (Hf4 : fenced a b l4) by (apply (fenced_within a b l3); assumption).
  assert (Hw04 : within a b l l4) by (apply (within_trans _ _ _ l3); assumption).
  assert (Hfr : forall l', (forall k, mid <= k < b -> cx l' k = cx l4 k) ->
                  fenced (mid + 1) b l').
  { intros l' Hsame k _ Hk. replace (mid + 1 - 1) with mid by lia.
    rewrite !Hsame by lia. apply Hdiv. lia. }
  destruct (mid - a <? b - mid).
  - destruct (IH a mid limit1 true true l4) as (l5 & -> & Hw5 & Hd5);
      [lia|lia|lia|apply (fenced_mono a b); [lia|exact Hf4]|].
    cbn [mbind option_bind].
    destruct (IH (mid + 1) b limit1 ((b - a) / 8 <=? mid - a) already l5)
      as (l6 & -> & Hw6 & Hd6).
    + lia.
    + lia.
    + rewrite (within_length _ _ _ _ Hw5). exact Hb4.
    + apply Hfr. intros k Hk. apply (within_cx_out a mid l4 l5 k Hw5). lia.
    + destruct (conquered a b mid l4 l5 l6 Hdiv) as [Hw Hd].
      * left. split; assumption.
      * apply (descending_out a mid (mid + 1) b l5); [exact Hw6|lia|exact Hd5].
      * exact Hd6.
      * exists l6. split; [reflexivity|]. split; [|exact Hd].
        apply (within_trans _ _ _ l4); assumption.
  - destruct (IH (mid + 1) b limit1 true true l4) as (l5 & -> & Hw5 & Hd5);
      [lia|lia|lia|apply Hfr; reflexivity|].
    cbn [mbind option_bind].
    destruct (IH a mid limit1 ((b - a) / 8 <=? b - mid) already l5)
      as (l6 & -> & Hw6 & Hd6).
    + lia.
    + lia.
    + rewrite (within_length _ _ _ _ Hw5). lia.
    + apply (fenced_mono a b); [lia|].
      apply (fenced_within a b l4); [|exact Hf4].
      apply (within_mono (mid + 1) b); [lia|lia|exact Hw5].
    + destruct (conquered a b mid l4 l5 l6 Hdiv) as [Hw Hd].
      * right. split; assumption.
      * exact Hd6.
      * apply (descending_out (mid + 1) b a mid l5); [exact Hw6|lia|exact Hd5].
      * exists l6. split; [reflexivity|]. split; [|exact Hd].
        apply (within_trans _ _ _ l4); assumption.
Qed.

End Generator.

Lemma cx_cons x l k : cx (x :: l) (S k) = cx l k.
Proof. reflexivity. Qed.

Lemma descending_sorted l :
  descending 0 (length l) l ->
  StronglySorted (fun a b => (Complexity b <= Complexity a)%Z) l.
Proof.
  induction l as [|x l IH]; intros Hd; [constructor|].
  apply StronglySorted_cons. split.
  - apply Forall_forall. intros y Hy.
    apply list_elem_of_lookup in Hy as [k Hk].
    assert (H := Hd 0 (S k) ltac:(lia) ltac:(lia)
                   ltac:(apply lookup_lt_Some in Hk; simpl; lia)).
    change (cx l k <= Complexity x)%Z in H. unfold cx in H.
    rewrite Hk in H. exact H.
  - apply IH. intros i j Hi Hij Hj.
    apply (Hd (S i) (S j)); simpl; lia.
Qed.

(** [sort.Sort] returns, with the records permuted into non-increasing
    complexity, whatever the generator of [breakPatterns]. *)
Lemma SortWith_sorts (Next : Z -> Z) l :
  exists sorted,
    sort.SortWith Next l = Some sorted
    /\ sorted ≡ₚ l
    /\ StronglySorted (fun a b => (Complexity b <= Complexity a)%Z) sorted.
Proof.
  unfold sort.SortWith. cbn [sort.Len byComplexity]. cbv zeta. unfold len.
  destruct (Z.of_nat (length l) <=? 1)%Z eqn:Hn;
    [apply Z.leb_le in Hn|apply Z.leb_gt in Hn].
  - exists l. split; [reflexivity|]. split; [reflexivity|].
    apply descending_sorted. intros i j. lia.
  - unfold sort.pdqsort. rewrite Nat2Z.id.
    destruct (pdqsortLoop_spec Next (S (length l - 0)) 0 (length l)
                (Z.to_nat (sort.bits_Len (Z.of_nat (length l)))) true true l)
      as (l' & -> & Hw & Hd); [lia|lia|lia| |].
    + intros k Hk. lia.
    + exists l'. split; [reflexivity|]. split; [apply Hw|].
      apply descending_sorted.
      rewrite (within_length _ _ _ _ Hw). exact Hd.
Qed.

End SortLibrary.

(** C2, amended. For every record list [sort.Sort] returns, without
    panic, a permutation of the list that is non-increasing in
    complexity, whatever the generator of [breakPatterns] gives. The sort
    is not stable: with [Less] true on equal complexities, the records of
    a list of at most 6, which every release sorts by [insertionSort]
    alone, come out with equal complexities in the reverse of their
    discovery order (by decreasing id when the ids increase along the
    input, as the record builder leaves them). *)
Theorem Sort_by_complexity (Next : Z -> Z) (l : list BasicBlock) :
  exists sorted,
    sort.SortWith Next l = Some sorted
    /\ sorted ≡ₚ l
    /\ StronglySorted (fun a b => Complexity b <= Complexity a) sorted
    /\ (len l <= shortSlice ->
        StronglySorted (fun a b => ID a < ID b) l ->
        StronglySorted before sorted).
Proof.
  destruct (SortWith_sorts Next l) as (sorted & Hrun & Hperm & Hsorted).
  exists sorted. split; [exact Hrun|]. split; [exact Hperm|].
  split; [exact Hsorted|]. intros Hshort Hl.
  rewrite Sort_settled in Hrun
    by (unfold shortSlice, sort.maxInsertion in *; lia).
  injection Hrun as <-.
  apply (StronglySorted_rev (fun a b => before b a)).
  apply settled_keyed; [exact Hl|constructor|constructor].
Qed.

(** ** The claims on a small run *)

(** C2 on two records of equal complexity, with the library's generator. *)
Lemma Sort_tie :
  exists sorted,
    sort.Sort tie = Some sorted
    /\ sorted ≡ₚ tie
    /\ StronglySorted (fun a b => Complexity b <= Complexity a) sorted
    /\ (len tie <= shortSlice ->
        StronglySorted (fun a b => ID a < ID b) tie ->
        StronglySorted before sorted).
Proof. apply (Sort_by_complexity sort.xorshift_Next tie). Defined.

(** Thirteen records of equal complexity take one partition, which puts
    the pivot last, and an insertion sort of the twelve before it. *)
Example Sort_thirteen_ties :
  map ID <$> sort.Sort (map (scored 1) (seqZ 1 13))
  = Some [12; 11; 10; 9; 8; 1; 6; 5; 4; 3; 2; 13; 7].
Proof. vm_compute. reflexivity. Qed.

(** C5 on a run over a file and a directory: the ids are 1 to 4. *)
Lemma ids_of_example_run :
  (exists bbs p',
     analyze example_env ["a.go"; "pkg"] start = (Ret bbs, p')
     /\ bbs = zip_with record (allFuncDecls [file_a; file_b]) (seqZ 1 4)
     /\ map ID bbs = seqZ 1 4
     /\ NoDup (map ID bbs)
     /\ counterMutex p' = false
     /\ count p' = 4 + 1)
  /\ (forall f bbs p,
        counterMutex p = true -> funcDecls f <> [] ->
        buildBasicBlocks f bbs p = (Crash, p)).
Proof.
  apply (ids_one_to_N example_env ["a.go"; "pkg"] [file_a; file_b]).
  - reflexivity.
  - vm_compute. reflexivity.
Defined.

(** C10 on a method declared with an empty receiver list. *)
Lemma funcName_no_fields :
  funcName {| ast.FuncDecl.Doc := None;
              ast.FuncDecl.Recv := Some {| ast.FieldList.List := [] |};
              ast.FuncDecl.Name := "M";
              ast.FuncDecl.Type_ := ast.Tree ast.FuncType [];
              ast.FuncDecl.Body := None;
              ast.FuncDecl.Pos := ast.FuncDecl.Pos calls_g;
              ast.FuncDecl.End_ := ast.FuncDecl.End_ calls_g |}
  = Some "M".
Proof. apply funcName_empty_receiver. reflexivity. Defined.

(** C9, as the claim states it, fails: a file that does not parse ends the
    run with status 1, with [over] at 0 and nothing reported. *)
Lemma parse_failure_status :
  main example_env defaultFlags sorter ["a.go"; "bad.go"] start
  = (Exit 1,
     eemit [LogFatal "bad.go:1:1: expected 'package', found 'EOF'"]
       (built (funcDecls file_a) start))
  /\ exit_status (main example_env defaultFlags sorter ["a.go"; "bad.go"] start).1 = 1
  /\ over defaultFlags = 0.
Proof. repeat split. Qed.

(** C4, as the claim states it, fails: on a file without functions the
    run with [-avg] divides 0 by 0 and prints a NaN. *)
Lemma average_of_empty_run :
  (main example_env avgFlags sorter ["empty.go"] start).1 = Ret ()
  /\ stdout (main example_env avgFlags sorter ["empty.go"] start).2
     = [PrintAverage (average [])]
  /\ PrimFloat.is_nan (average []) = true.
Proof. repeat split. Qed.

(** C4 on a run over three functions. *)
Lemma average_of_example_run :
  let all := sorter (records (allFuncDecls [file_a]) 1) in
  last (stdout (main example_env avgFlags sorter ["a.go"] start).2)
    = Some (PrintAverage (average all))
  /\ average all
     = PrimFloat.div (float64 (int.wrap (sumComplexity all))) (float64 (len all))
  /\ (forall l, l ≡ₚ all -> average l = average all)
  /\ (all = [] -> PrimFloat.is_nan (average all) = true).
Proof.
  apply (average_over_all_records example_env avgFlags sorter ["a.go"] [file_a]);
    [discriminate | reflexivity | reflexivity].
Defined.

(** The specification's examples. *)

Example complexity_closure :
  complexity with_closure start = (Ret 2, start).
Proof. reflexivity. Qed.

Example average_1_3_2 :
  average [scored 1 1; scored 3 2; scored 2 3] = 2%float.
Proof. reflexivity. Qed.

Example threshold_run :
  writeBasicBlocks {| over := 3; top := -1; avg := false |}
    (sorter [scored 2 1; scored 5 2]) start
  = (Ret 1, emit [PrintBlock (scored 5 2)] start).
Proof. reflexivity. Qed.

Example example_run_output :
  stdout (main example_env defaultFlags sorter ["a.go"; "pkg"] start).2
  = [ PrintFun (ast.Ident "g");
      PrintBlock (record ("main", if_and_for) 1);
      PrintBlock (record ("pkg", method (ast.Ident "T") "String") 4);
      PrintBlock (record ("main", calls_g) 3);
      PrintBlock (record ("main", method (ast.StarExpr (ast.Ident "T")) "M") 2) ].
Proof. reflexivity. Qed.

(** * Beyond the claims *)

(** ** Which files a run parses *)



Lemma walked_unreadable pre path err post :
  walked (pre ++ EntryErr path err :: post) = walked pre.
Proof.
  induction pre as [|[path' info|path' err'] pre IH]; cbn [app walked].
  - reflexivity.
  - rewrite IH. reflexivity.
  - reflexivity.
Qed.

(** X2. An entry that cannot be read ends the walk of a directory without
    a word: the files before it are analysed, every entry after it is
    left out, and [analyzeDir] returns as if the directory ended there. *)
Theorem analyzeDir_stops_at_unreadable (env : Env) (dirname : string)
    (pre post : list WalkEntry) (path err : string)
    (bbs : list BasicBlock) (p : Proc) :
  walk_entries env dirname = pre ++ EntryErr path err :: post ->
  analyzeDir env dirname bbs p
  = forRange (walked pre) (fun bbs f => analyzeFile env f bbs) bbs p.
Proof.
  intros Hwalk. rewrite analyzeDir_walked, Hwalk, walked_unreadable.
  reflexivity.
Qed.

(** X2 on a directory whose third entry cannot be read: [bad.go], which
    comes after it, is never parsed. *)
Lemma analyzeDir_unreadable_example :
  analyzeDir unreadable_env "dir" [] start
  = forRange ["a.go"] (fun bbs f => analyzeFile unreadable_env f bbs) [] start.
Proof.
  apply (analyzeDir_stops_at_unreadable unreadable_env "dir"
           [Entry "dir" {| IsDir := true |}; Entry "a.go" {| IsDir := false |}]
           [Entry "bad.go" {| IsDir := false |}]
           "dir/locked" "open dir/locked: permission denied").
  reflexivity.
Defined.

(** ** Bounds of the score *)

Lemma decisions_le_length l : (decisions l <= length l)%nat.
Proof. unfold decisions. apply List.filter_length_le. Qed.

Lemma decisions_root fn :
  (1 <= decisions (ast.nodes (ast.FuncDecl_node fn)))%nat.
Proof.
  rewrite (nodes_eq (ast.FuncDecl_node fn)).
  unfold ast.FuncDecl_node at 1. unfold decisions. cbn [List.filter is_decision is_decl orb length].
  lia.
Qed.

(** X3. The score of a declaration is at least 1 and at most the number
    of nodes of its subtree, whatever the tree holds, as long as that
    number fits Go's [int]. *)
Theorem complexity_bounds (fn : ast.FuncDecl.t) (p : Proc) :
  len (ast.nodes (ast.FuncDecl_node fn)) <= int.max ->
  exists c, (complexity fn p).1 = Ret c
            /\ 1 <= c <= len (ast.nodes (ast.FuncDecl_node fn)).
Proof.
  intros Hmax. rewrite complexity_spec. cbn [fst].
  pose proof (decisions_le_length (ast.nodes (ast.FuncDecl_node fn))) as Hle.
  pose proof (decisions_root fn) as Hone.
  eexists. split; [reflexivity|].
  rewrite int_wrap_small; unfold len, int.min, int.max in *; lia.
Qed.

(** X3 on the function with an [if], an [&&] and a [for]. *)
Lemma complexity_bounds_example :
  exists c, (complexity if_and_for start).1 = Ret c
            /\ 1 <= c <= len (ast.nodes (ast.FuncDecl_node if_and_for)).
Proof.
  apply (complexity_bounds if_and_for start). vm_compute. discriminate.
Defined.

(** ** The report on sorted records *)

Lemma above_exceeding over l :
  StronglySorted (fun a b => Complexity b <= Complexity a) l ->
  above over l = exceeding over l.
Proof.
  unfold exceeding. induction l as [|b l IH]; intros Hs; [reflexivity|].
  apply StronglySorted_cons in Hs as [Hb Hs]. cbn [above List.filter].
  destruct (over <? Complexity b) eqn:Hover.
  - rewrite IH by exact Hs. reflexivity.
  - apply Z.ltb_ge in Hover. symmetry. apply filter_none.
    apply forallb_forall. intros x Hx.
    rewrite Forall_forall in Hb. apply list_elem_of_In, Hb in Hx.
    apply negb_true_iff, Z.ltb_ge. lia.
Qed.

(** X4. On records that are non-increasing in complexity the report
    misses nothing: [writeBasicBlocks] emits exactly the records whose
    complexity is above [over], cut to the first [top] of them when [top]
    is not negative, and returns their number. *)
Theorem writeBasicBlocks_sorted (flags : Flags) (sorted : list BasicBlock) (p : Proc) :
  StronglySorted (fun a b => Complexity b <= Complexity a) sorted ->
  writeBasicBlocks flags sorted p
  = (Ret (len (capped (top flags) (exceeding (over flags) sorted))),
     emit (map PrintBlock (capped (top flags) (exceeding (over flags) sorted))) p).
Proof.
  intros Hs. rewrite writeBasicBlocks_spec. unfold reported.
  rewrite (above_exceeding _ _ Hs). reflexivity.
Qed.

(** X4 on complexities 5, 3, 3, 1 with [-over 2]. *)
Lemma writeBasicBlocks_sorted_example :
  writeBasicBlocks {| over := 2; top := -1; avg := false |}
    [scored 5 1; scored 3 3; scored 3 2; scored 1 4] start
  = (Ret 3, emit [PrintBlock (scored 5 1); PrintBlock (scored 3 3);
                  PrintBlock (scored 3 2)] start).
Proof.
  apply (writeBasicBlocks_sorted {| over := 2; top := -1; avg := false |}
           [scored 5 1; scored 3 3; scored 3 2; scored 1 4] start).
  repeat constructor; simpl; lia.
Defined.

(** ** The exit status and the threshold *)

Lemma exceeding_perm over l l' : l ≡ₚ l' -> exceeding over l ≡ₚ exceeding over l'.
Proof.
  unfold exceeding.
  induction 1 as [|b l l' _ IH|a b l|l l' l'' _ IH1 _ IH2]; cbn [List.filter].
  - reflexivity.
  - destruct (over <? Complexity b); [constructor|]; exact IH.
  - destruct (over <? Complexity a), (over <? Complexity b);
      try reflexivity. apply Permutation_swap.
  - etransitivity; eassumption.
Qed.

Lemma exceeding_nonempty over l :
  exceeding over l <> [] <-> Exists (fun b => over < Complexity b) l.
Proof.
  unfold exceeding. induction l as [|b l IH]; cbn [List.filter].
  - split; [congruence|]. intros H. inversion H.
  - destruct (over <? Complexity b) eqn:Hb.
    + apply Z.ltb_lt in Hb. split; [intros _; left; exact Hb|discriminate].
    + apply Z.ltb_ge in Hb. rewrite IH. split.
      * intros H. right. exact H.
      * intros H. apply Exists_cons in H as [H|H]; [lia|exact H].
Qed.

Lemma capped_positive top l :
  0 < len (capped top l) <-> top <> 0 /\ l <> [].
Proof.
  unfold capped, len. destruct (top <? 0) eqn:Hneg.
  - apply Z.ltb_lt in Hneg. destruct l; simpl; split.
    + lia.
    + intros [_ H]. congruence.
    + intros _. split; [lia|discriminate].
    + lia.
  - apply Z.ltb_ge in Hneg. rewrite length_take. destruct l; simpl; split.
    + lia.
    + intros [_ H]. congruence.
    + intros H. split; [lia|discriminate].
    + intros [H _]. lia.
Qed.

(** X5. With a sort routine that sorts, a run that parses all its files
    ends with status 1 exactly when [over] is positive, [top] is not 0 and
    some function's complexity is above [over]; so [-top 0] silences the
    threshold. *)
Theorem exit_status_threshold (env : Env) (flags : Flags)
    (sort_Sort : list BasicBlock -> list BasicBlock)
    (args : list string) (fs : list ast.File.t) :
  sorts sort_Sort ->
  args <> [] ->
  parse_all env (sources env args) = inl fs ->
  exit_status (main env flags sort_Sort args start).1 = 1
  <-> 0 < over flags /\ top flags <> 0
      /\ Exists (fun b => over flags < Complexity b) (records (allFuncDecls fs) 1).
Proof.
  intros Hsort Hargs Hparse. rewrite main_spec.
  destruct args as [|a args]; [congruence|]. rewrite Hparse. cbv zeta.
  destruct (Hsort (records (allFuncDecls fs) 1)) as [Hperm Hsorted].
  unfold reported. rewrite (above_exceeding _ _ Hsorted).
  assert (Hex : exceeding (over flags) (sort_Sort (records (allFuncDecls fs) 1)) <> []
                <-> Exists (fun b => over flags < Complexity b)
                      (records (allFuncDecls fs) 1)).
  { rewrite <- exceeding_nonempty. split; intros H Hnil; apply H.
    - apply Permutation_nil_r. rewrite <- Hnil.
      apply exceeding_perm. exact Hperm.
    - apply Permutation_nil_r. rewrite <- Hnil.
      apply exceeding_perm. symmetry. exact Hperm. }
  destruct ((0 <? over flags) && (0 <? len _)) eqn:Hcond; cbn [fst exit_status].
  - apply andb_true_iff in Hcond as [Hover Hwritten].
    apply Z.ltb_lt in Hover. apply Z.ltb_lt in Hwritten.
    apply capped_positive in Hwritten as [Htop Hne].
    split; [intros _|reflexivity]. repeat split; [exact Hover|exact Htop|].
    apply Hex, Hne.
  - split; [discriminate|]. intros (Hover & Htop & Hsome). exfalso.
    apply andb_false_iff in Hcond as [Hcond|Hcond].
    + apply Z.ltb_ge in Hcond. lia.
    + apply Z.ltb_ge in Hcond.
      assert (0 < len (capped (top flags)
                         (exceeding (over flags)
                            (sort_Sort (records (allFuncDecls fs) 1))))); [|lia].
      apply capped_positive. split; [exact Htop|]. apply Hex, Hsome.
Qed.

Lemma sorter_sorts : sorts sorter.
Proof.
  intros l. unfold sorter, sort.Sort.
  destruct (SortWith_sorts sort.xorshift_Next l) as (sorted & -> & Hperm & Hs).
  cbn [default from_option id]. split; assumption.
Qed.

(** X5 on the run over [a.go] with [-over 3]: one function has
    complexity 4. *)
Lemma exit_status_threshold_example :
  exit_status
    (main example_env {| over := 3; top := -1; avg := false |} sorter
       ["a.go"] start).1 = 1
  <-> 0 < 3 /\ -1 <> 0
      /\ Exists (fun b => 3 < Complexity b) (records (allFuncDecls [file_a]) 1).
Proof.
  apply (exit_status_threshold example_env
           {| over := 3; top := -1; avg := false |} sorter ["a.go"] [file_a]);
    [apply sorter_sorts | discriminate | reflexivity].
Defined.

(** ** The first program *)

Lemma plain_writeBasicBlocks_spec l p :
  plain.writeBasicBlocks l p = (Ret (len l), emit (map PrintBlock l) p).
Proof.
  unfold plain.writeBasicBlocks. rewrite bind_stop.
  assert (H : forall p, forRange l
                (fun (_ : ()) BasicBlock => print (PrintBlock BasicBlock)) () p
              = (Ret (), emit (map PrintBlock l) p)).
  { clear p. induction l as [|b l IH]; intros p.
    - simpl. rewrite emit_nil. reflexivity.
    - cbn [forRange map]. rewrite bind_stop. unfold print at 1.
      rewrite IH, emit_cons. reflexivity. }
  rewrite H. reflexivity.
Qed.

Lemma above_all over l :
  Forall (fun b => over < Complexity b) l -> above over l = l.
Proof.
  induction 1 as [|b l Hb _ IH]; [reflexivity|].
  cbn [above]. apply Z.ltb_lt in Hb. rewrite Hb, IH. reflexivity.
Qed.

(** X6. The first program's [writeBasicBlocks] writes every record, in
    the order given, and returns their number; the second program's does
    the same whenever [top] is negative and every record is above [over]. *)
Theorem writeBasicBlocks_agree (flags : Flags) (l : list BasicBlock) (p : Proc) :
  top flags < 0 ->
  Forall (fun b => over flags < Complexity b) l ->
  plain.writeBasicBlocks l p = (Ret (len l), emit (map PrintBlock l) p)
  /\ writeBasicBlocks flags l p = plain.writeBasicBlocks l p.
Proof.
  intros Htop Hall. rewrite plain_writeBasicBlocks_spec. split; [reflexivity|].
  rewrite writeBasicBlocks_spec. unfold reported, capped.
  apply Z.ltb_lt in Htop. rewrite Htop, (above_all _ _ Hall). reflexivity.
Qed.

(** X6 with the default flags on three records. *)
Lemma writeBasicBlocks_agree_example :
  plain.writeBasicBlocks [scored 1 1; scored 3 2; scored 2 3] start
  = (Ret (len [scored 1 1; scored 3 2; scored 2 3]),
     emit (map PrintBlock [scored 1 1; scored 3 2; scored 2 3]) start)
  /\ writeBasicBlocks defaultFlags [scored 1 1; scored 3 2; scored 2 3] start
     = plain.writeBasicBlocks [scored 1 1; scored 3 2; scored 2 3] start.
Proof.
  apply (writeBasicBlocks_agree defaultFlags
           [scored 1 1; scored 3 2; scored 2 3] start).
  - simpl. lia.
  - repeat constructor; simpl; lia.
Defined.

(** X7. The first program exits with status 2, printing nothing, when it
    has no argument; [log.Fatal] ends it with status 1 at the first file
    that does not parse, before any record is written; otherwise it
    writes, after the visitor's call lines, every record in discovery
    order, unsorted, and returns, whatever the complexities. *)
Theorem plain_main_run (env : Env) (args : list string) :
  plain.main env args start
  = match args with
    | [] => (Exit 2, start)
    | _ :: _ =>
        match parse_all env (sources env args) with
        | inr (fs, err) =>
            (Exit 1, eemit [LogFatal err] (built (allFuncDecls fs) start))
        | inl fs =>
            (Ret (),
             emit (map PrintBlock (records (allFuncDecls fs) 1))
               (built (allFuncDecls fs) start))
        end
    end.
Proof.
  unfold plain.main. destruct args as [|a args]; [reflexivity|].
  rewrite bind_stop.
  replace (len (a :: args) =? 0) with false
    by (symmetry; apply Z.eqb_neq; unfold len; simpl; lia).
  unfold mret at 1, IO_ret at 1. rewrite bind_stop, analyze_spec by reflexivity.
  destruct (parse_all env (sources env (a :: args))) as [fs|[fs err]];
    [|reflexivity].
  rewrite bind_stop, plain_writeBasicBlocks_spec. reflexivity.
Qed.

(** ** [byComplexity] *)

Lemma index_Some {A} (s : list A) (i : Z) :
  is_Some (index s i) <-> 0 <= i < len s.
Proof.
  unfold index, len. destruct (i <? 0) eqn:Hneg.
  - apply Z.ltb_lt in Hneg. split; [intros [x Hx]; discriminate|lia].
  - apply Z.ltb_ge in Hneg. rewrite lookup_lt_is_Some. lia.
Qed.


(** X8. [Swap] panics exactly when an index is out of range; otherwise it
    exchanges the two records and touches no other, so the slice keeps its
    length and its records, and a second [Swap] of the same indices
    restores it. *)
Theorem Swap_exchanges (s : list BasicBlock) (i j : Z) :
  (is_Some (sort.Swap s i j) <-> 0 <= i < len s /\ 0 <= j < len s)
  /\ (forall s', sort.Swap s i j = Some s' ->
        index s' i = index s j
        /\ index s' j = index s i
        /\ (forall k, k <> i -> k <> j -> index s' k = index s k)
        /\ len s' = len s
        /\ s' ≡ₚ s
        /\ sort.Swap s' i j = Some s).
Proof.
  cbn [sort.Swap byComplexity]. split.
  - rewrite <- !index_Some.
    destruct (index s i) as [a|], (index s j) as [b|]; cbn [mbind option_bind];
      split; try (intros [[x Hx] [y Hy]]; discriminate);
      try (intros [x Hx]; discriminate); eauto.
  - intros s'. destruct (index s i) as [a|] eqn:Ha; [|discriminate].
    destruct (index s j) as [b|] eqn:Hb; [|discriminate].
    cbn [mbind option_bind]. intros [= <-].
    assert (Hi : 0 <= i < len s) by (apply index_Some; eauto).
    assert (Hj : 0 <= j < len s) by (apply index_Some; eauto).
    unfold index in *.
    destruct (i <? 0) eqn:Hin; [apply Z.ltb_lt in Hin; lia|].
    destruct (j <? 0) eqn:Hjn; [apply Z.ltb_lt in Hjn; lia|].
    unfold len in *.
    assert (Hlen : length (<[Z.to_nat j:=a]> (<[Z.to_nat i:=b]> s)) = length s)
      by (rewrite !length_insert; reflexivity).
    assert (Hsi : <[Z.to_nat j:=a]> (<[Z.to_nat i:=b]> s) !! Z.to_nat i = Some b).
    { destruct (decide (Z.to_nat i = Z.to_nat j)) as [Heq|Hne].
      - rewrite Heq in *. rewrite list_lookup_insert_eq
          by (rewrite length_insert; lia). congruence.
      - rewrite list_lookup_insert_ne by congruence.
        apply list_lookup_insert_eq. lia. }
    assert (Hsj : <[Z.to_nat j:=a]> (<[Z.to_nat i:=b]> s) !! Z.to_nat j = Some a).
    { apply list_lookup_insert_eq. rewrite length_insert. lia. }
    rewrite Hsi, Hsj. cbn [mbind option_bind].
    repeat split; try reflexivity.
    + intros k Hki Hkj. destruct (k <? 0) eqn:Hkn; [reflexivity|].
      apply Z.ltb_ge in Hkn.
      rewrite !list_lookup_insert_ne by lia. reflexivity.
    + rewrite Hlen. reflexivity.
    + apply swap_perm; assumption.
    + f_equal. apply list_eq. intros k.
      destruct (decide (k = Z.to_nat j)) as [->|Hkj].
      * rewrite list_lookup_insert_eq by (rewrite !length_insert; lia).
        symmetry. exact Hb.
      * rewrite list_lookup_insert_ne by congruence.
        destruct (decide (k = Z.to_nat i)) as [->|Hki].
        -- rewrite list_lookup_insert_eq by (rewrite !length_insert; lia).
           symmetry. exact Ha.
        -- rewrite !list_lookup_insert_ne by congruence. reflexivity.
Qed.

(** X9. On valid indices [Less] is total and reflexive: of two records
    one is before the other both ways round when their complexities are
    equal, and a record is before itself; so [Less] is not the strict
    order package sort asks for. Out of range it panics. *)
Theorem Less_total (s : list BasicBlock) (i j : Z) :
  (is_Some (sort.Less s i j) <-> 0 <= i < len s /\ 0 <= j < len s)
  /\ (0 <= i < len s -> sort.Less s i i = Some true)
  /\ (0 <= i < len s -> 0 <= j < len s ->
      sort.Less s i j = Some true \/ sort.Less s j i = Some true)
  /\ (forall a b, index s i = Some a -> index s j = Some b ->
      Complexity a = Complexity b ->
      sort.Less s i j = Some true /\ sort.Less s j i = Some true).
Proof.
  cbn [sort.Less byComplexity]. split; [|split; [|split]].
  - rewrite <- !index_Some.
    destruct (index s i) as [a|], (index s j) as [b|]; cbn [mbind option_bind];
      split; try (intros [[x Hx] [y Hy]]; discriminate);
      try (intros [x Hx]; discriminate); eauto.
  - intros Hi. apply index_Some in Hi as [a Ha]. rewrite Ha.
    cbn [mbind option_bind]. f_equal. apply Z.leb_le. lia.
  - intros Hi Hj. apply index_Some in Hi as [a Ha].
    apply index_Some in Hj as [b Hb]. rewrite Ha, Hb.
    cbn [mbind option_bind].
    destruct (Z.le_ge_cases (Complexity a) (Complexity b)).
    + right. f_equal. apply Z.leb_le. assumption.
    + left. f_equal. apply Z.leb_le. assumption.
  - intros a b Ha Hb Heq. rewrite Ha, Hb. cbn [mbind option_bind].
    rewrite Heq. split; f_equal; apply Z.leb_le; lia.
Qed.

(** ** Several receivers *)

(** X10. Of a receiver list with several entries (whose fields fit Go's
    [int]) [funcName] renders the type of the first entry alone, and a
    first entry without type as BADRECV; the other entries do not show. *)
Theorem funcName_first_receiver (fn : ast.FuncDecl.t) (f : ast.Field.t)
    (rest : list ast.Field.t) :
  ast.FuncDecl.Recv fn = Some {| ast.FieldList.List := f :: rest |} ->
  fieldCount (f :: rest) <= int.max ->
  funcName fn
  = Some ("(" +:+ match ast.Field.Type_ f with
                  | Some typ => recvString typ
                  | None => "BADRECV"
                  end +:+ ")." +:+ ast.FuncDecl.Name fn).
Proof.
  intros HR Hmax. unfold funcName. rewrite HR, NumFields_wrap.
  pose proof (fieldCount_pos f rest) as Hpos.
  rewrite int_wrap_small by (unfold int.min, int.max in *; lia).
  apply Z.ltb_lt in Hpos. rewrite Hpos. reflexivity.
Qed.

(** X10 on [func (a A, b *B) M()]. *)
Lemma funcName_first_receiver_example :
  funcName (two_receivers (ast.Ident "A") (ast.StarExpr (ast.Ident "B")) "M")
  = Some "(A).M".
Proof.
  apply (funcName_first_receiver
           (two_receivers (ast.Ident "A") (ast.StarExpr (ast.Ident "B")) "M")
           _ _ eq_refl).
  vm_compute. discriminate.
Defined.

(** ** Arguments in sequence *)

Lemma sources_app env a b : sources env (a ++ b) = sources env a ++ sources env b.
Proof. unfold sources. rewrite map_app, concat_app. reflexivity. Qed.

Lemma parse_all_app env a b fa fb :
  parse_all env a = inl fa -> parse_all env b = inl fb ->
  parse_all env (a ++ b) = inl (fa ++ fb).
Proof.
  revert fa. induction a as [|x a IH]; intros fa Ha Hb.
  - simpl in Ha. injection Ha as <-. exact Hb.
  - cbn [parse_all app] in *. destruct (parser_ParseFile env x) as [f|err];
      [|discriminate].
    destruct (parse_all env a) as [fs|[fs err]]; [|discriminate].
    injection Ha as <-. rewrite (IH fs eq_refl Hb). reflexivity.
Qed.

Lemma allFuncDecls_app fa fb :
  allFuncDecls (fa ++ fb) = allFuncDecls fa ++ allFuncDecls fb.
Proof. unfold allFuncDecls. rewrite map_app, concat_app. reflexivity. Qed.

(** X11. Arguments are analysed one after the other with one counter:
    the records of [a ++ b] are those of [a] followed by those of [b],
    whose ids go on where the ids of [a] end; nothing is merged, so a path
    named twice gives its records twice. *)
Theorem analyze_app (env : Env) (a b : list string) (fa fb : list ast.File.t) :
  parse_all env (sources env a) = inl fa ->
  parse_all env (sources env b) = inl fb ->
  len (allFuncDecls fa) + len (allFuncDecls fb) < int.max ->
  (analyze env (a ++ b) start).1
  = Ret (zip_with record (allFuncDecls fa) (seqZ 1 (len (allFuncDecls fa)))
         ++ zip_with record (allFuncDecls fb)
              (seqZ (1 + len (allFuncDecls fa)) (len (allFuncDecls fb)))).
Proof.
  intros Ha Hb Hmax. rewrite analyze_spec by reflexivity.
  rewrite sources_app, (parse_all_app _ _ _ _ _ Ha Hb). cbn [fst].
  rewrite allFuncDecls_app, records_app. cbn [count start].
  rewrite int_incr_iter by (unfold int.min, int.max; lia).
  rewrite (int_wrap_small (1 + _))
    by (unfold len, int.min, int.max in *; lia).
  rewrite !records_zip; unfold len, int.min, int.max in *; try lia.
  reflexivity.
Qed.

(** X11 on [a.go] named twice: six records, ids 1 to 6. *)
Lemma analyze_twice_example :
  (analyze example_env (["a.go"] ++ ["a.go"]) start).1
  = Ret (zip_with record (allFuncDecls [file_a]) (seqZ 1 3)
         ++ zip_with record (allFuncDecls [file_a]) (seqZ (1 + 3) 3)).
Proof.
  apply (analyze_app example_env ["a.go"] ["a.go"] [file_a] [file_a]);
    [reflexivity | reflexivity | vm_compute; reflexivity].
Defined.

(** ** What a run writes *)

(** X12. A run of the second program that parses all its files writes
    nothing to standard error and leaves the mutex free; on standard
    output come first the visitor's call lines, function by function in
    discovery order, then the report lines, then, with [-avg], the
    average. *)
Theorem main_output (env : Env) (flags : Flags)
    (sort_Sort : list BasicBlock -> list BasicBlock)
    (args : list string) (fs : list ast.File.t) :
  args <> [] ->
  parse_all env (sources env args) = inl fs ->
  let p := (main env flags sort_Sort args start).2 in
  let all := sort_Sort (records (allFuncDecls fs) 1) in
  stdout p
  = concat (map (fun d => printed (ast.nodes (ast.FuncDecl_node d.2)))
              (allFuncDecls fs))
    ++ map PrintBlock (reported flags all)
    ++ (if avg flags then [PrintAverage (average all)] else [])
  /\ stderr p = []
  /\ counterMutex p = false.
Proof.
  intros Hargs Hparse. cbv zeta. rewrite main_spec.
  destruct args as [|a args]; [congruence|]. rewrite Hparse. cbv zeta.
  destruct (avg flags); cbn [snd emit built stdout stderr counterMutex start app];
    rewrite <- ?app_assoc, ?app_nil_r; repeat split; reflexivity.
Qed.

(** X12 on the run over [a.go] and [pkg] with [-avg]. *)
Lemma main_output_example :
  let p := (main example_env avgFlags sorter ["a.go"; "pkg"] start).2 in
  let all := sorter (records (allFuncDecls [file_a; file_b]) 1) in
  stdout p
  = concat (map (fun d => printed (ast.nodes (ast.FuncDecl_node d.2)))
              (allFuncDecls [file_a; file_b]))
    ++ map PrintBlock (reported avgFlags all)
    ++ (if avg avgFlags then [PrintAverage (average all)] else [])
  /\ stderr p = []
  /\ counterMutex p = false.
Proof.
  apply (main_output example_env avgFlags sorter ["a.go"; "pkg"]
           [file_a; file_b]); [discriminate | reflexivity].
Defined.

(** ** The line of a record *)

Lemma string_app_cons (x : ascii) (a b : string) :
  String x a +:+ b = String x (a +:+ b).
Proof. reflexivity. Qed.

Lemma string_app_assoc (a b c : string) : (a +:+ b) +:+ c = a +:+ (b +:+ c).
Proof.
  induction a as [|x a IH]; [reflexivity|].
  rewrite !string_app_cons, IH. reflexivity.
Qed.

Lemma string_app_nil_l (a : string) : "" +:+ a = a.
Proof. reflexivity. Qed.

Lemma spaceless_app_space a b : spaceless (a +:+ String " " b) = false.
Proof.
  induction a as [|x a IH]; [reflexivity|].
  rewrite string_app_cons. cbn [spaceless]. rewrite IH. apply andb_false_r.
Qed.

(** A first field without space is read off the front of a line. *)
Lemma first_field d1 : forall d2 r1 r2,
  spaceless d1 = true -> spaceless d2 = true ->
  d1 +:+ " " +:+ r1 = d2 +:+ " " +:+ r2 -> d1 = d2.
Proof.
  induction d1 as [|c d1 IH]; intros [|c' d2] r1 r2 H1 H2 Heq;
    rewrite ?string_app_cons, ?string_app_nil_l in Heq; cbn [spaceless] in *.
  - reflexivity.
  - injection Heq as <- _. discriminate.
  - injection Heq as -> _. discriminate.
  - injection Heq as <- Heq.
    apply andb_true_iff in H1 as [_ H1]. apply andb_true_iff in H2 as [_ H2].
    f_equal. apply (IH d2 r1 r2); assumption.
Qed.

(** A last field without space is read off the end of a line. *)
Lemma last_field s1 : forall s2 d1 d2,
  spaceless d1 = true -> spaceless d2 = true ->
  s1 +:+ " " +:+ d1 = s2 +:+ " " +:+ d2 -> d1 = d2.
Proof.
  induction s1 as [|c s1 IH]; intros [|c' s2] d1 d2 H1 H2 Heq;
    rewrite ?string_app_cons, ?string_app_nil_l in Heq.
  - injection Heq as ->. reflexivity.
  - injection Heq as _ ->. rewrite spaceless_app_space in H1. discriminate.
  - injection Heq as _ <-. rewrite spaceless_app_space in H2. discriminate.
  - injection Heq as _ Heq. apply (IH s2 d1 d2); assumption.
Qed.

Lemma itoa_spaceless z : spaceless (itoa z) = true.
Proof.
  unfold itoa.
  assert (H : forall u, spaceless (DecimalString.NilEmpty.string_of_uint u) = true)
    by (induction u; simpl; auto).
  destruct (Z.to_int z) as [u|u]; simpl; apply H.
Qed.

Lemma itoa_inj a b : itoa a = itoa b -> a = b.
Proof.
  unfold itoa. intros H.
  apply (f_equal DecimalString.NilEmpty.int_of_string) in H.
  rewrite !DecimalString.NilEmpty.isi in H. injection H as H.
  rewrite <- (DecimalZ.of_to a), <- (DecimalZ.of_to b), H. reflexivity.
Qed.

(** X13. The line of a record begins with its complexity and ends with
    its id, both in decimal and each set off by a space, however the
    positions are printed; so two records with the same line have the
    same complexity and the same id, and within a run, where ids differ,
    no two records share a line. *)
Theorem String_fields (posString : token.Position -> string) (a b : BasicBlock) :
  BasicBlock_String posString a = BasicBlock_String posString b ->
  Complexity a = Complexity b /\ ID a = ID b.
Proof.
  intros Heq. split.
  - unfold BasicBlock_String in Heq.
    apply itoa_inj. eapply first_field; [| |exact Heq]; apply itoa_spaceless.
  - assert (Hline : forall r,
      BasicBlock_String posString r
      = (itoa (Complexity r) +:+ " " +:+ PkgName r +:+ " " +:+ FuncName r
         +:+ " " +:+ posString (Pos r) +:+ " " +:+ posString (EndPos r))
        +:+ " " +:+ itoa (ID r)).
    { intros r. unfold BasicBlock_String. rewrite !string_app_assoc.
      reflexivity. }
    rewrite !Hline in Heq.
    apply itoa_inj. eapply last_field; [| |exact Heq]; apply itoa_spaceless.
Qed.

(** X13 on two records that differ in their package alone, printed the
    same when the package and function names make up the difference. *)
Lemma String_fields_example :
  Complexity (named "a b" "c" 4 7) = Complexity (named "a" "b c" 4 7)
  /\ ID (named "a b" "c" 4 7) = ID (named "a" "b c" 4 7).
Proof.
  apply (String_fields file_line_column
           (named "a b" "c" 4 7) (named "a" "b c" 4 7)).
  reflexivity.
Defined.

Example String_line :
  BasicBlock_String file_line_column (record ("main", if_and_for) 1)
  = "4 main f a.go:3:1 a.go:8:2 1".
Proof. reflexivity. Qed.

(** ** The entropy functions *)

Lemma add_nan_l (x : float) : PrimFloat.add nan x = nan.
Proof.
  rewrite <- (FloatAxioms.SF2Prim_Prim2SF (PrimFloat.add nan x)), FloatAxioms.add_spec.
  change (Prim2SF nan) with S754_nan.
  destruct (Prim2SF x); reflexivity.
Qed.

Lemma add_nan_r (x : float) : PrimFloat.add x nan = nan.
Proof.
  rewrite <- (FloatAxioms.SF2Prim_Prim2SF (PrimFloat.add x nan)), FloatAxioms.add_spec.
  change (Prim2SF nan) with S754_nan.
  destruct (Prim2SF x); reflexivity.
Qed.

Lemma sum_stays_nan (Log2 : float -> float) (l : list float) :
  fold_left
    (fun sum probability =>
       PrimFloat.add sum (PrimFloat.mul probability (Log2 probability)))
    l nan = nan.
Proof.
  induction l as [|x l IH]; [reflexivity|].
  cbn [fold_left]. rewrite add_nan_l. exact IH.
Qed.

(** X14. Where [math.Log2(0)] is minus infinity, one probability 0 makes
    [calculateShannonsEntropy] return a NaN, whatever the other
    probabilities: the term 0 * Log2(0) is not taken as 0.
    [calculateProbablityOfSpecificLog] is the same computation and returns
    the same. *)
Theorem entropy_of_zero_probability (Log2 : float -> float)
    (probabilities : list float) :
  Log2 0%float = neg_infinity ->
  0%float ∈ probabilities ->
  PrimFloat.is_nan (calculateShannonsEntropy Log2 probabilities) = true
  /\ calculateProbablityOfSpecificLog Log2 probabilities
     = calculateShannonsEntropy Log2 probabilities.
Proof.
  intros Hlog Hin. split; [|reflexivity].
  apply list_elem_of_split in Hin as (l1 & l2 & ->).
  unfold calculateShannonsEntropy. cbv zeta.
  rewrite fold_left_app. cbn [fold_left]. rewrite Hlog.
  change (PrimFloat.mul 0 neg_infinity) with nan.
  rewrite add_nan_r, sum_stays_nan. reflexivity.
Qed.

(** X14 on the probabilities 0.5, 0 and 0.5. *)
Lemma entropy_of_zero_probability_example :
  PrimFloat.is_nan
    (calculateShannonsEntropy log2_table [0.5; 0; 0.5]%float) = true
  /\ calculateProbablityOfSpecificLog log2_table [0.5; 0; 0.5]%float
     = calculateShannonsEntropy log2_table [0.5; 0; 0.5]%float.
Proof.
  apply (entropy_of_zero_probability log2_table [0.5; 0; 0.5]%float).
  - reflexivity.
  - apply elem_of_cons. right. apply elem_of_cons. left. reflexivity.
Defined.

Example entropy_fair_coin :
  calculateShannonsEntropy log2_table [0.5; 0.5]%float = 1%float.
Proof. reflexivity. Qed.

(** ** What the builder keeps *)

Lemma length_records ds id : length (records ds id) = length ds.
Proof.
  revert id. induction ds as [|d ds IH]; intros id; [reflexivity|].
  simpl. rewrite IH. reflexivity.
Qed.

Lemma records_PkgName pkg ds id :
  Forall (fun d => d.1 = pkg) ds ->
  Forall (fun b => PkgName b = pkg) (records ds id).
Proof.
  intros H. revert id. induction H as [|d ds Hd _ IH]; intros id; simpl.
  - constructor.
  - constructor; [exact Hd|apply IH].
Qed.

Lemma funcDecls_pkg f : Forall (fun d => d.1 = ast.File.Name f) (funcDecls f).
Proof.
  unfold funcDecls. induction (ast.File.Decls f) as [|[fn|d|] decls IH];
    cbn [omap list_omap]; try exact IH; [constructor|].
  constructor; [reflexivity|exact IH].
Qed.

(** X15. [buildBasicBlocks] only appends: called with the mutex free, it
    keeps the records it is given as a prefix, adds one record per
    function declaration of the file, each with the file's package name,
    skips every other declaration, writes nothing to standard error and
    leaves the mutex free; a file without function declaration leaves
    records and process as they are. *)
Theorem buildBasicBlocks_appends (f : ast.File.t) (bbs : list BasicBlock) (p : Proc) :
  counterMutex p = false ->
  exists new p',
    buildBasicBlocks f bbs p = (Ret (bbs ++ new), p')
    /\ length new = length (funcDecls f)
    /\ Forall (fun b => PkgName b = ast.File.Name f) new
    /\ stderr p' = stderr p
    /\ counterMutex p' = false
    /\ (funcDecls f = [] -> new = [] /\ p' = p).
Proof.
  intros Hfree. rewrite buildBasicBlocks_spec by exact Hfree.
  eexists _, _. split; [reflexivity|].
  split; [apply length_records|].
  split; [apply records_PkgName, funcDecls_pkg|].
  split; [reflexivity|]. split; [exact Hfree|].
  intros ->. split; [reflexivity|apply built_nil].
Qed.

(** X15 on [a.go], added to one record. *)
Lemma buildBasicBlocks_appends_example :
  exists new p',
    buildBasicBlocks file_a [scored 1 9] start = (Ret ([scored 1 9] ++ new), p')
    /\ length new = length (funcDecls file_a)
    /\ Forall (fun b => PkgName b = ast.File.Name file_a) new
    /\ stderr p' = stderr start
    /\ counterMutex p' = false
    /\ (funcDecls file_a = [] -> new = [] /\ p' = start).
Proof.
  apply (buildBasicBlocks_appends file_a [scored 1 9] start). reflexivity.
Defined.

(** ** Records already in order *)

Lemma settled_decreasing l : forall rp,
  StronglySorted (fun a b => Complexity b < Complexity a) (rev rp ++ l) ->
  settled rp l = rev l ++ rp.
Proof.
  induction l as [|x l IH]; intros rp Hs; [reflexivity|].
  cbn [settled foldl]. fold (settled (settle x rp) l).
  assert (Hx : settle x rp = x :: rp).
  { destruct rp as [|y rp]; [reflexivity|]. cbn [settle].
    replace (Complexity y <=? Complexity x) with false; [reflexivity|].
    symmetry. apply Z.leb_gt.
    cbn [rev] in Hs. rewrite <- app_assoc in Hs.
    apply StronglySorted_app_1_r in Hs. cbn [app] in Hs.
    apply StronglySorted_cons in Hs as [Hy _].
    apply Forall_cons in Hy as [Hy _]. exact Hy. }
  rewrite Hx, IH.
  - cbn [rev]. rewrite <- app_assoc. reflexivity.
  - cbn [rev]. rewrite <- app_assoc. exact Hs.
Qed.

(** X16. A short record list whose complexities strictly decrease is
    left as it is by the sort: no record moves. *)
Theorem Sort_decreasing (l : list BasicBlock) :
  len l <= shortSlice ->
  StronglySorted (fun a b => Complexity b < Complexity a) l ->
  sort.Sort l = Some l.
Proof.
  intros Hshort Hs. unfold sort.Sort.
  rewrite Sort_settled by (unfold shortSlice, sort.maxInsertion in *; lia).
  rewrite (settled_decreasing l []) by exact Hs.
  rewrite app_nil_r, rev_involutive. reflexivity.
Qed.

(** X16 on complexities 5, 3, 2. *)
Lemma Sort_decreasing_example :
  sort.Sort [scored 5 1; scored 3 2; scored 2 3]
  = Some [scored 5 1; scored 3 2; scored 2 3].
Proof.
  apply (Sort_decreasing [scored 5 1; scored 3 2; scored 2 3]).
  - vm_compute. discriminate.
  - repeat constructor; simpl; lia.
Defined.

(** ** The default flags *)

Lemma score_positive fn :
  len (ast.nodes (ast.FuncDecl_node fn)) <= int.max -> 0 < score fn.
Proof.
  intros Hmax. unfold score.
  pose proof (decisions_le_length (ast.nodes (ast.FuncDecl_node fn))).
  pose proof (decisions_root fn).
  rewrite int_wrap_small; unfold len, int.min, int.max in *; lia.
Qed.

Lemma records_positive ds id :
  Forall (fun d => len (ast.nodes (ast.FuncDecl_node d.2)) <= int.max) ds ->
  Forall (fun b => 0 < Complexity b) (records ds id).
Proof.
  intros H. revert id. induction H as [|d ds Hd _ IH]; intros id; simpl.
  - constructor.
  - constructor; [apply score_positive, Hd|apply IH].
Qed.

(** X17. With the default flags nothing is filtered: for any sort routine
    that permutes its input, a run that parses all its files reports
    every function it found (each subtree within Go's [int]), since every
    score is at least 1 and [over] is 0, and returns with status 0. *)
Theorem default_flags_report_all (env : Env)
    (sort_Sort : list BasicBlock -> list BasicBlock)
    (args : list string) (fs : list ast.File.t) :
  (forall l, sort_Sort l ≡ₚ l) ->
  args <> [] ->
  parse_all env (sources env args) = inl fs ->
  Forall (fun d => len (ast.nodes (ast.FuncDecl_node d.2)) <= int.max)
         (allFuncDecls fs) ->
  main env defaultFlags sort_Sort args start
  = (Ret (),
     emit (map PrintBlock (sort_Sort (records (allFuncDecls fs) 1)))
       (built (allFuncDecls fs) start)).
Proof.
  intros Hperm Hargs Hparse Hsize. rewrite main_spec.
  destruct args as [|a args]; [congruence|]. rewrite Hparse. cbv zeta.
  assert (Hall : reported defaultFlags (sort_Sort (records (allFuncDecls fs) 1))
                 = sort_Sort (records (allFuncDecls fs) 1)).
  { unfold reported, capped. cbn [top over defaultFlags].
    replace (-1 <? 0) with true by reflexivity.
    apply above_all. rewrite Hperm. apply records_positive, Hsize. }
  rewrite Hall. reflexivity.
Qed.

(** X17 on the run over [a.go] and [pkg]. *)
Lemma default_flags_example :
  main example_env defaultFlags sorter ["a.go"; "pkg"] start
  = (Ret (),
     emit (map PrintBlock (sorter (records (allFuncDecls [file_a; file_b]) 1)))
       (built (allFuncDecls [file_a; file_b]) start)).
Proof.
  apply (default_flags_report_all example_env sorter ["a.go"; "pkg"]
           [file_a; file_b]).
  - intros l. apply sorter_sorts.
  - discriminate.
  - reflexivity.
  - repeat constructor; vm_compute; discriminate.
Defined.
